(** * Terminal shell integration of the extension host

    A shallow embedding of
    [src/vs/workbench/api/common/extHostTerminalShellIntegration.ts]:
    the data stream of a shell execution, the execution record, the
    per-terminal shell integration and the directory that maps terminal
    handles to integrations.

    Objects that the TypeScript code shares by reference (executions,
    data streams, barriers, async iterables) live in stores indexed by a
    number, which is the identity of the object; [===] on two such
    objects is equality of their indices.  Code that runs after an
    [await], in a [then] callback or in a queued microtask is kept as a
    pending microtask and run by an explicit step. *)

From Stdlib Require Import ZArith NArith List String Ascii Bool Lia.
From stdpp Require Import base option list gmap.

Local Open Scope N_scope.

(** ** Strings *)

(** A JavaScript string is a sequence of UTF-16 code units. *)
Abbreviation JSString := (list N).

(** An ASCII literal as a JavaScript string. *)
Definition str (s : string) : JSString :=
  List.map N_of_ascii (list_ascii_of_string s).

(** The character class of the first regular expression of
    [executeCommand]: the double quote (34), the single quote (39) and
    the backtick (96). *)
Definition is_quote_char (c : N) : bool :=
  (c =? 34) || (c =? 39) || (c =? 96).

(** The character class [\s] of a JavaScript regular expression. *)
Definition is_whitespace (c : N) : bool :=
  ((9 <=? c) && (c <=? 13)) || (c =? 32) || (c =? 160) || (c =? 5760)
  || ((8192 <=? c) && (c <=? 8202)) || (c =? 8232) || (c =? 8233)
  || (c =? 8239) || (c =? 8287) || (c =? 12288) || (c =? 65279).

(** [arg.match(re)] for a one-character class, read as a truth value. *)
Definition matches (class : N -> bool) (s : JSString) : bool :=
  existsb class s.

(** ** Plain data *)

(** Modelled from the spec: the enum of [extHostTypes.ts], which is not
    under src/. *)
Inductive TerminalShellExecutionCommandLineConfidence := Low | Medium | High.

Record TerminalShellExecutionCommandLine := {
  cl_value : JSString;
  cl_confidence : TerminalShellExecutionCommandLineConfidence;
  cl_isTrusted : bool
}.

(** Modelled from the spec: a [URI] of [base/common/uri.ts], which is not
    under src/.  This file observes a URI only through [toString()], and
    the spec compares working directories by value equality; so a URI is
    identified with the string that [toString()] gives, and two URIs are
    equal exactly when their strings are. *)
Record URI := { URI_toString : JSString }.

Record TerminalShellIntegrationEnvironment := {
  env_value : gmap JSString (option JSString);
  env_isTrusted : bool
}.

#[global] Instance confidence_eq_dec :
  EqDecision TerminalShellExecutionCommandLineConfidence.
Proof. solve_decision. Defined.

#[global] Instance commandLine_eq_dec :
  EqDecision TerminalShellExecutionCommandLine.
Proof. solve_decision. Defined.

#[global] Instance URI_eq_dec : EqDecision URI.
Proof. solve_decision. Defined.

(** ** Async iterables, barriers and microtasks *)

Inductive AsyncIterableSourceState := Initial | DoneOK.

(** Modelled from the spec: [AsyncIterableObject] of
    [base/common/async.ts], which is not under src/.  It holds the chunks
    emitted so far and whether the sequence has terminated. *)
Record AsyncIterableObject := {
  _results : list JSString;
  _state : AsyncIterableSourceState
}.

(** Modelled from the spec: [emitter.emitOne], a chunk is appended while
    the sequence has not terminated. *)
Definition emitOne (data : JSString) (it : AsyncIterableObject)
  : AsyncIterableObject :=
  match _state it with
  | Initial => {| _results := _results it ++ [data]; _state := Initial |}
  | DoneOK => it
  end.

(** Modelled from the spec: the executor's promise completes and the
    sequence terminates. *)
Definition resolve (it : AsyncIterableObject) : AsyncIterableObject :=
  {| _results := _results it; _state := DoneOK |}.

(** Modelled from the spec: [AsyncIterableObject.EMPTY], an
    immediately-terminated empty sequence. *)
Definition AsyncIterableObject_EMPTY : AsyncIterableObject :=
  {| _results := []; _state := DoneOK |}.

(** What one [next()] of an iterator standing at index [i] gives. *)
Inductive IteratorResult :=
  | Yield (chunk : JSString)
  | Done
  | Suspended.

(** Modelled from the spec: the lazy sequence suspends until either a
    chunk is pushed (yields it) or close() has been called and all
    currently-queued chunks for that reader are exhausted (terminates). *)
Definition iterator_next (it : AsyncIterableObject) (i : nat) : IteratorResult :=
  match _results it !! i with
  | Some chunk => Yield chunk
  | None => match _state it with DoneOK => Done | Initial => Suspended end
  end.

(** An iterable in the store together with the position of the consumer
    that iterates it with [for await]. *)
Record Reader := {
  iterable : AsyncIterableObject;
  position : nat
}.

(** What [read()] hands to the consumer: an iterable of the store or the
    shared static [EMPTY]. *)
Inductive IterableRef :=
  | Ref (id : nat)
  | StaticEmpty.

(** What an [await] waits for: nothing ([await undefined]) or the
    [Promise.all] over [toPromise()] of the listed iterables. *)
Abbreviation Awaited := (option (list nat)).

(** Modelled from the spec: [Barrier] of [base/common/async.ts], which is
    not under src/: the single pending-completion gate of a stream.  It
    is open or not, and [waiting] are the executors suspended in
    [await barrier.wait()], each named by its iterable. *)
Record Barrier := {
  _isOpen : bool;
  waiting : list nat
}.

(** The fields of a [ShellExecutionDataStream] object; its methods are in
    the module of that name.  [_barrier] names a barrier of the store,
    [_iterables] and [_emitters] name iterables of the store (an emitter
    is named by the iterable it writes to). *)
Record DataStream := {
  _barrier : option nat;
  _iterables : list nat;
  _emitters : list nat
}.

Inductive Microtask :=
  (** Modelled from the spec: the constructor of [AsyncIterableObject]
      does not call the executor, it queues a microtask that does.  Here
      the executor of [createIterable] for the iterable [it], which has
      captured the stream [this] and the [barrier]. *)
  | ExecutorStart (stream it barrier : nat)
  (** the executor of an iterable resumes after [await barrier.wait()] and
      returns, which terminates the iterable *)
  | ExecutorResume (it : nat)
  (** the [then] callback of [endShellExecution], behind
      [currentExecution.flush()] *)
  | EndContinuation (awaited : Awaited) (execution : nat) (exitCode : option Z).

#[global] Instance Microtask_eq_dec : EqDecision Microtask.
Proof. solve_decision. Defined.

Record Runtime := {
  iterables : list Reader;
  barriers : list Barrier;
  streams : list DataStream;
  microtasks : list Microtask
}.

Definition Runtime_init : Runtime :=
  {| iterables := []; barriers := []; streams := []; microtasks := [] |}.

Definition set_iterables (l : list Reader) (rt : Runtime) : Runtime :=
  {| iterables := l; barriers := barriers rt; streams := streams rt;
     microtasks := microtasks rt |}.

Definition set_barriers (l : list Barrier) (rt : Runtime) : Runtime :=
  {| iterables := iterables rt; barriers := l; streams := streams rt;
     microtasks := microtasks rt |}.

Definition set_streams (l : list DataStream) (rt : Runtime) : Runtime :=
  {| iterables := iterables rt; barriers := barriers rt; streams := l;
     microtasks := microtasks rt |}.

Definition set_microtasks (l : list Microtask) (rt : Runtime) : Runtime :=
  {| iterables := iterables rt; barriers := barriers rt; streams := streams rt;
     microtasks := l |}.

Definition map_iterable (f : AsyncIterableObject -> AsyncIterableObject) (r : Reader) : Reader :=
  {| iterable := f (iterable r); position := position r |}.

(** A method of the object [id] of a store changes that object; an index
    that names no object changes nothing. *)
Definition update_iterable (f : AsyncIterableObject -> AsyncIterableObject)
    (id : nat) (rt : Runtime) : Runtime :=
  set_iterables (alter (map_iterable f) id (iterables rt)) rt.

Definition update_barrier (f : Barrier -> Barrier) (id : nat) (rt : Runtime) : Runtime :=
  set_barriers (alter f id (barriers rt)) rt.

Definition update_stream (f : DataStream -> DataStream) (id : nat) (rt : Runtime) : Runtime :=
  set_streams (alter f id (streams rt)) rt.

Definition queueMicrotasks (ms : list Microtask) (rt : Runtime) : Runtime :=
  set_microtasks (microtasks rt ++ ms) rt.

(** The microtask at index [k] leaves the queue. *)
Definition dequeue (k : nat) (rt : Runtime) : Runtime :=
  set_microtasks (delete k (microtasks rt)) rt.

Definition deref (rt : Runtime) (r : IterableRef) : option AsyncIterableObject :=
  match r with
  | Ref id => iterable <$> iterables rt !! id
  | StaticEmpty => Some AsyncIterableObject_EMPTY
  end.

(** [toPromise()] of an iterable has resolved once its sequence has
    terminated. *)
Definition drained (rt : Runtime) (id : nat) : bool :=
  match iterables rt !! id with
  | Some r => match _state (iterable r) with DoneOK => true | Initial => false end
  | None => false
  end.

Definition resolved (rt : Runtime) (p : Awaited) : bool :=
  match p with
  | None => true
  | Some ids => forallb (drained rt) ids
  end.

(** Modelled from the spec: [new AsyncIterableObject(executor)].  The new
    iterable is empty and has not terminated; the microtask that will
    call the executor is queued. *)
Definition AsyncIterableObject_new (executor : nat -> Microtask) (rt : Runtime)
  : nat * Runtime :=
  let id := length (iterables rt) in
  let fresh := {| iterable := {| _results := []; _state := Initial |}; position := 0 |} in
  (id, queueMicrotasks [executor id] (set_iterables (iterables rt ++ [fresh]) rt)).

(** Modelled from the spec: [new Barrier()], not open. *)
Definition Barrier_new (rt : Runtime) : nat * Runtime :=
  (length (barriers rt),
   set_barriers (barriers rt ++ [{| _isOpen := false; waiting := [] |}]) rt).

(** Modelled from the spec: [barrier.open()] completes the promise of the
    barrier, and every executor suspended on it is queued to resume. *)
Definition Barrier_open (b : nat) (rt : Runtime) : Runtime :=
  match barriers rt !! b with
  | Some x =>
      queueMicrotasks (ExecutorResume <$> waiting x)
        (update_barrier (fun _ => {| _isOpen := true; waiting := [] |}) b rt)
  | None => rt
  end.

(** Modelled from the spec: [await barrier.wait()] in the executor of
    [it].  On an open barrier the executor is queued to resume at once,
    otherwise it is suspended on the barrier. *)
Definition Barrier_await (b it : nat) (rt : Runtime) : Runtime :=
  match barriers rt !! b with
  | Some x =>
      if _isOpen x then queueMicrotasks [ExecutorResume it] rt
      else update_barrier
             (fun x => {| _isOpen := _isOpen x; waiting := waiting x ++ [it] |}) b rt
  | None => rt
  end.

(** A consumer's [for await] loop asks the iterator of iterable [id] for
    its next element. *)
Definition iterate (id : nat) (rt : Runtime) : IteratorResult * Runtime :=
  match iterables rt !! id with
  | Some r =>
      match iterator_next (iterable r) (position r) with
      | Yield chunk =>
          (Yield chunk,
           set_iterables
             (<[id := {| iterable := iterable r; position := S (position r) |}]> (iterables rt))
             rt)
      | Done => (Done, rt)
      | Suspended => (Suspended, rt)
      end
  | None => (Suspended, rt)
  end.

(** ** class ShellExecutionDataStream *)

Module ShellExecutionDataStream.

Definition new : DataStream := {| _barrier := None; _iterables := []; _emitters := [] |}.

Definition set_barrier (b : option nat) (s : DataStream) : DataStream :=
  {| _barrier := b; _iterables := _iterables s; _emitters := _emitters s |}.

Definition push_iterable (it : nat) (s : DataStream) : DataStream :=
  {| _barrier := _barrier s; _iterables := _iterables s ++ [it]; _emitters := _emitters s |}.

Definition push_emitter (it : nat) (s : DataStream) : DataStream :=
  {| _barrier := _barrier s; _iterables := _iterables s; _emitters := _emitters s ++ [it] |}.

(** [createIterable()] on the stream [this]: the barrier is created when
    there is none, the new iterable is pushed on [_iterables], and its
    executor is left to the microtask that the constructor queues. *)
Definition createIterable (this : nat) (rt : Runtime) : nat * Runtime :=
  let '(barrier, rt1) :=
    match streams rt !! this ≫= _barrier with
    | Some b => (b, rt)
    | None =>
        let '(b, rt') := Barrier_new rt in
        (b, update_stream (set_barrier (Some b)) this rt')
    end in
  let '(iterable, rt2) :=
    AsyncIterableObject_new (fun it => ExecutorStart this it barrier) rt1 in
  (iterable, update_stream (push_iterable iterable) this rt2).

(** The executor of [createIterable], when the queued microtask calls
    it: [this._emitters.push(emitter); await barrier.wait();] *)
Definition executor (this it barrier : nat) (rt : Runtime) : Runtime :=
  Barrier_await barrier it (update_stream (push_emitter it) this rt).

Definition emitData (data : JSString) (this : nat) (rt : Runtime) : Runtime :=
  foldl (fun rt emitter => update_iterable (emitOne data) emitter rt) rt
        (default [] (_emitters <$> streams rt !! this)).

Definition endExecution (this : nat) (rt : Runtime) : Runtime :=
  match streams rt !! this ≫= _barrier with
  | Some b => update_stream (set_barrier None) this (Barrier_open b rt)
  | None => rt
  end.

(** [flush()]: the iterables whose [toPromise()] the returned promise
    waits for. *)
Definition flush (this : nat) (rt : Runtime) : list nat :=
  default [] (_iterables <$> streams rt !! this).

End ShellExecutionDataStream.

(** A queued executor runs: the microtask at index [k], when it is the
    start or the resumption of an executor. *)
Definition run_executor (k : nat) (rt : Runtime) : Runtime :=
  match microtasks rt !! k with
  | Some (ExecutorStart stream it barrier) =>
      ShellExecutionDataStream.executor stream it barrier (dequeue k rt)
  | Some (ExecutorResume it) => update_iterable resolve it (dequeue k rt)
  | _ => rt
  end.

(** ** class InternalTerminalShellExecution *)

Module InternalTerminalShellExecution.

Record t := {
  _commandLine : TerminalShellExecutionCommandLine;
  cwd : option URI;
  (** the stream of the store that [_dataStream] refers to *)
  _dataStream : option nat;
  _ended : bool
}.

Definition new (commandLine : TerminalShellExecutionCommandLine) (cwd : option URI) : t :=
  {| _commandLine := commandLine; cwd := cwd; _dataStream := None; _ended := false |}.

Definition with_dataStream (ds : option nat) (e : t) : t :=
  {| _commandLine := _commandLine e; cwd := cwd e; _dataStream := ds; _ended := _ended e |}.

Definition _createDataStream (e : t) (rt : Runtime) : IterableRef * t * Runtime :=
  match _dataStream e with
  | None =>
      if _ended e then (StaticEmpty, e, rt)
      else
        let stream := length (streams rt) in
        let rt1 := set_streams (streams rt ++ [ShellExecutionDataStream.new]) rt in
        let '(id, rt') := ShellExecutionDataStream.createIterable stream rt1 in
        (Ref id, with_dataStream (Some stream) e, rt')
  | Some stream =>
      let '(id, rt') := ShellExecutionDataStream.createIterable stream rt in
      (Ref id, e, rt')
  end.

(** [value.read()] *)
Definition read := _createDataStream.

Definition emitData (data : JSString) (e : t) (rt : Runtime) : Runtime :=
  match _dataStream e with
  | Some stream => ShellExecutionDataStream.emitData data stream rt
  | None => rt
  end.

Definition endExecution (commandLine : option TerminalShellExecutionCommandLine)
    (e : t) (rt : Runtime) : t * Runtime :=
  let cl := match commandLine with Some c => c | None => _commandLine e end in
  let rt' := match _dataStream e with
             | Some stream => ShellExecutionDataStream.endExecution stream rt
             | None => rt
             end in
  ({| _commandLine := cl; cwd := cwd e; _dataStream := None; _ended := true |}, rt').

(** [await this._dataStream?.flush()]: what the returned promise waits
    for, read when [flush()] is called. *)
Definition flush (e : t) (rt : Runtime) : Awaited :=
  (fun stream => ShellExecutionDataStream.flush stream rt) <$> _dataStream e.

End InternalTerminalShellExecution.

(** ** class InternalTerminalShellIntegration *)

(** [a ?? b] *)
Definition nullish {A : Type} (a b : option A) : option A :=
  match a with
  | Some _ => a
  | None => b
  end.

(** [Array.prototype.findIndex], with [None] for [-1]. *)
Fixpoint findIndex {A : Type} (p : A -> bool) (l : list A) : option nat :=
  match l with
  | [] => None
  | x :: l' => if p x then Some 0%nat else S <$> findIndex p l'
  end.

(** The command line that [executeCommand] builds, one argument of the
    loop at a time. *)
Definition wrapInQuotes (arg : JSString) : bool :=
  negb (matches is_quote_char arg) && matches is_whitespace arg.

Definition appendArg (commandLineValue arg : JSString) : JSString :=
  if wrapInQuotes arg then commandLineValue ++ [32; 34] ++ arg ++ [34]
  else commandLineValue ++ [32] ++ arg.

Definition executeCommand_commandLineValue (commandLineOrExecutable : JSString)
    (args : option (list JSString)) : JSString :=
  match args with
  | Some args => foldl appendArg commandLineOrExecutable args
  | None => commandLineOrExecutable
  end.

(** The key [__proto__]. *)
Definition proto_key : JSString := str "__proto__".

(** The loop of [setEnv]: [env[keys[i]] = values[i]] for every index of
    [keys]; an index past the end of [values] reads [undefined].  [env]
    is an object literal, so the assignment creates or overwrites an own
    property, except for the key [__proto__]: that assignment goes to
    the setter of [Object.prototype], which ignores a value that is
    neither an object nor [null], and no property is stored. *)
Definition setEnv_step (keys values : list JSString)
    (env : gmap JSString (option JSString)) (i : nat) : gmap JSString (option JSString) :=
  match keys !! i with
  | Some k => if decide (k = proto_key) then env else <[k := values !! i]> env
  | None => env
  end.

Definition setEnv_env (keys values : list JSString) : gmap JSString (option JSString) :=
  foldl (setEnv_step keys values) ∅ (seq 0 (length keys)).

Module InternalTerminalShellIntegration.

(** What the integration fires on its emitters (and the warning it
    logs), with an execution named by its index in the store. *)
Inductive Fired :=
  | DidStartTerminalShellExecution (execution : nat)
  | DidRequestEndExecution (execution : nat) (exitCode : option Z)
  | DidRequestChangeShellIntegration
  | DidRequestShellExecution (commandLine : JSString)
  | DidRequestNewExecution (commandLine : JSString)
  | ConsoleWarn.

Record t := {
  _activeExecutions : list nat;
  _currentExecution : option nat;
  _env : option TerminalShellIntegrationEnvironment;
  _cwd : option URI;
  _hasRichCommandDetection : bool;
  (** the [InternalTerminalShellExecution] objects created so far *)
  executions : list InternalTerminalShellExecution.t;
  runtime : Runtime
}.

Definition new : t :=
  {| _activeExecutions := []; _currentExecution := None; _env := None;
     _cwd := None; _hasRichCommandDetection := false;
     executions := []; runtime := Runtime_init |}.

Definition set_activeExecutions (l : list nat) (s : t) : t :=
  {| _activeExecutions := l; _currentExecution := _currentExecution s;
     _env := _env s; _cwd := _cwd s;
     _hasRichCommandDetection := _hasRichCommandDetection s;
     executions := executions s; runtime := runtime s |}.

Definition set_currentExecution (c : option nat) (s : t) : t :=
  {| _activeExecutions := _activeExecutions s; _currentExecution := c;
     _env := _env s; _cwd := _cwd s;
     _hasRichCommandDetection := _hasRichCommandDetection s;
     executions := executions s; runtime := runtime s |}.

Definition set_env (e : option TerminalShellIntegrationEnvironment) (s : t) : t :=
  {| _activeExecutions := _activeExecutions s;
     _currentExecution := _currentExecution s;
     _env := e; _cwd := _cwd s;
     _hasRichCommandDetection := _hasRichCommandDetection s;
     executions := executions s; runtime := runtime s |}.

Definition set_cwd (c : option URI) (s : t) : t :=
  {| _activeExecutions := _activeExecutions s;
     _currentExecution := _currentExecution s;
     _env := _env s; _cwd := c;
     _hasRichCommandDetection := _hasRichCommandDetection s;
     executions := executions s; runtime := runtime s |}.

Definition set_hasRichCommandDetection (b : bool) (s : t) : t :=
  {| _activeExecutions := _activeExecutions s;
     _currentExecution := _currentExecution s;
     _env := _env s; _cwd := _cwd s;
     _hasRichCommandDetection := b;
     executions := executions s; runtime := runtime s |}.

Definition set_executions (h : list InternalTerminalShellExecution.t) (s : t) : t :=
  {| _activeExecutions := _activeExecutions s;
     _currentExecution := _currentExecution s;
     _env := _env s; _cwd := _cwd s;
     _hasRichCommandDetection := _hasRichCommandDetection s;
     executions := h; runtime := runtime s |}.

Definition set_runtime (rt : Runtime) (s : t) : t :=
  {| _activeExecutions := _activeExecutions s;
     _currentExecution := _currentExecution s;
     _env := _env s; _cwd := _cwd s;
     _hasRichCommandDetection := _hasRichCommandDetection s;
     executions := executions s; runtime := rt |}.

(** A method of the execution object [id] that changes the object and
    the runtime.  An index that names no object leaves the state as it
    is; the integration only ever holds indices of objects it created. *)
Definition call_execution
    (method : InternalTerminalShellExecution.t -> Runtime ->
              InternalTerminalShellExecution.t * Runtime)
    (id : nat) (s : t) : t :=
  match executions s !! id with
  | Some e =>
      let '(e', rt') := method e (runtime s) in
      set_runtime rt' (set_executions (<[id := e']> (executions s)) s)
  | None => s
  end.

(** [e.value.commandLine.value] of the execution object [id]. *)
Definition commandLine_value (s : t) (id : nat) : option JSString :=
  (fun e => cl_value (InternalTerminalShellExecution._commandLine e)) <$> executions s !! id.

Definition requestNewShellExecution (commandLine : TerminalShellExecutionCommandLine)
    (cwd : option URI) (s : t) : nat * t * list Fired :=
  let execution := length (executions s) in
  let s1 := set_executions
              (executions s ++ [InternalTerminalShellExecution.new commandLine (nullish cwd (_cwd s))]) s in
  (execution,
   set_activeExecutions (_activeExecutions s ++ [execution]) s1,
   [DidRequestNewExecution (cl_value commandLine)]).

(** [value.executeCommand] *)
Definition executeCommand (commandLineOrExecutable : JSString)
    (args : option (list JSString)) (s : t) : nat * t * list Fired :=
  let commandLineValue := executeCommand_commandLineValue commandLineOrExecutable args in
  let commandLine := {| cl_value := commandLineValue; cl_confidence := High; cl_isTrusted := true |} in
  let '(execution, s', fired) := requestNewShellExecution commandLine (_cwd s) s in
  (execution, s', DidRequestShellExecution commandLineValue :: fired).

Definition startShellExecution (commandLine : TerminalShellExecutionCommandLine)
    (cwd : option URI) (s : t) : nat * t * list Fired :=
  let '(s1, fired1) :=
    match _currentExecution s with
    | Some current =>
        (call_execution (InternalTerminalShellExecution.endExecution None) current s,
         (if _hasRichCommandDetection s then [ConsoleWarn] else [])
         ++ [DidRequestEndExecution current None])
    | None => (s, [])
    end in
  let '(currentExecution, rest) :=
    match cl_confidence commandLine with
    | High =>
        match findIndex (fun e => bool_decide (commandLine_value s1 e = Some (cl_value commandLine)))
                        (_activeExecutions s1) with
        | Some index => (_activeExecutions s1 !! index, delete index (_activeExecutions s1))
        | None => (None, _activeExecutions s1)
        end
    | _ => (head (_activeExecutions s1), tail (_activeExecutions s1))
    end in
  let s2 := set_activeExecutions rest s1 in
  let '(currentExecution, s3) :=
    match currentExecution with
    | Some e => (e, s2)
    | None =>
        (length (executions s2),
         set_executions
           (executions s2 ++ [InternalTerminalShellExecution.new commandLine (nullish cwd (_cwd s2))]) s2)
    end in
  (currentExecution,
   set_currentExecution (Some currentExecution) s3,
   fired1 ++ [DidStartTerminalShellExecution currentExecution]).

Definition emitData (data : JSString) (s : t) : t :=
  match _currentExecution s with
  | Some current =>
      match executions s !! current with
      | Some e => set_runtime (InternalTerminalShellExecution.emitData data e (runtime s)) s
      | None => s
      end
  | None => s
  end.

Definition endShellExecution (commandLine : option TerminalShellExecutionCommandLine)
    (exitCode : option Z) (s : t) : t :=
  match _currentExecution s with
  | Some currentExecution =>
      let s1 := call_execution (InternalTerminalShellExecution.endExecution commandLine)
                               currentExecution s in
      let awaited :=
        executions s1 !! currentExecution
          ≫= (fun e => InternalTerminalShellExecution.flush e (runtime s1)) in
      set_runtime
        (queueMicrotasks [EndContinuation awaited currentExecution exitCode] (runtime s1)) s1
  | None => s
  end.

Definition _fireChangeEvent : list Fired := [DidRequestChangeShellIntegration].

Definition setHasRichCommandDetection (value : bool) (s : t) : t * list Fired :=
  if bool_decide (_hasRichCommandDetection s ≠ value)
  then (set_hasRichCommandDetection value s, _fireChangeEvent)
  else (s, []).

Definition setEnv (keys values : list JSString) (isTrusted : bool) (s : t) : t * list Fired :=
  (set_env (Some {| env_value := setEnv_env keys values; env_isTrusted := isTrusted |}) s,
   _fireChangeEvent).

Definition setCwd (cwd : option URI) (s : t) : t * list Fired :=
  let wasChanged :=
    match _cwd s with
    | Some stored =>
        match cwd with
        | Some u => bool_decide (URI_toString stored ≠ URI_toString u)
        | None => true
        end
    | None => bool_decide (cwd ≠ None)
    end in
  if wasChanged then (set_cwd cwd s, _fireChangeEvent) else (s, []).

(** The microtask at index [k] of the queue runs; the callback of an end
    runs when what it waits for has resolved.  Index [0] is the order of
    the JavaScript job queue; a statement about every index holds for
    that order too. *)
Definition runMicrotask (k : nat) (s : t) : t * list Fired :=
  let rt := runtime s in
  match microtasks rt !! k with
  | Some (EndContinuation awaited currentExecution exitCode) =>
      if resolved rt awaited then
        let s1 := set_runtime (dequeue k rt) s in
        if bool_decide (_currentExecution s1 = Some currentExecution)
        then (set_currentExecution None s1, [DidRequestEndExecution currentExecution exitCode])
        else (s1, [])
      else (s, [])
  | Some _ => (set_runtime (run_executor k rt) s, [])
  | None => (s, [])
  end.

(** A consumer calls [read()] on the public view of execution [id]. *)
Definition read (id : nat) (s : t) : option IterableRef * t :=
  match executions s !! id with
  | Some e =>
      let '(r, e', rt') := InternalTerminalShellExecution.read e (runtime s) in
      (Some r, set_runtime rt' (set_executions (<[id := e']> (executions s)) s))
  | None => (None, s)
  end.

End InternalTerminalShellIntegration.

(** ** Traces of one integration *)

(** What happens to an integration: the calls the directory makes on it
    for the signals of the shell, the calls of an API consumer on the
    public views, and the microtasks the event loop runs. *)
Inductive Action :=
  | ExecuteCommand (commandLineOrExecutable : JSString) (args : option (list JSString))
  | StartShellExecution (commandLine : TerminalShellExecutionCommandLine) (cwd : option URI)
  | EndShellExecution (commandLine : option TerminalShellExecutionCommandLine) (exitCode : option Z)
  | EmitData (data : JSString)
  | SetEnv (keys values : list JSString) (isTrusted : bool)
  | SetCwd (cwd : option URI)
  | SetHasRichCommandDetection (value : bool)
  | Read (execution : nat)
  | Next (it : nat)
  | RunMicrotask (k : nat).

(** What an observer outside the integration sees, in order. *)
Inductive Observable :=
  | Event (f : InternalTerminalShellIntegration.Fired)
  | Attached (execution : nat) (r : IterableRef)
  | Yielded (it : nat) (chunk : JSString)
  | Finished (it : nat).

Definition step (a : Action) (s : InternalTerminalShellIntegration.t)
  : InternalTerminalShellIntegration.t * list Observable :=
  match a with
  | ExecuteCommand exe args =>
      let '(_, s', fired) := InternalTerminalShellIntegration.executeCommand exe args s in
      (s', Event <$> fired)
  | StartShellExecution cl cwd =>
      let '(_, s', fired) := InternalTerminalShellIntegration.startShellExecution cl cwd s in
      (s', Event <$> fired)
  | EndShellExecution cl exitCode =>
      (InternalTerminalShellIntegration.endShellExecution cl exitCode s, [])
  | EmitData data => (InternalTerminalShellIntegration.emitData data s, [])
  | SetEnv keys values isTrusted =>
      let '(s', fired) := InternalTerminalShellIntegration.setEnv keys values isTrusted s in
      (s', Event <$> fired)
  | SetCwd cwd =>
      let '(s', fired) := InternalTerminalShellIntegration.setCwd cwd s in
      (s', Event <$> fired)
  | SetHasRichCommandDetection value =>
      let '(s', fired) := InternalTerminalShellIntegration.setHasRichCommandDetection value s in
      (s', Event <$> fired)
  | Read execution =>
      match InternalTerminalShellIntegration.read execution s with
      | (Some r, s') => (s', [Attached execution r])
      | (None, s') => (s', [])
      end
  | Next it =>
      match iterate it (InternalTerminalShellIntegration.runtime s) with
      | (Yield chunk, rt') => (InternalTerminalShellIntegration.set_runtime rt' s, [Yielded it chunk])
      | (Done, rt') => (InternalTerminalShellIntegration.set_runtime rt' s, [Finished it])
      | (Suspended, _) => (s, [])
      end
  | RunMicrotask k =>
      let '(s', fired) := InternalTerminalShellIntegration.runMicrotask k s in
      (s', Event <$> fired)
  end.

Fixpoint run (trace : list Action) (s : InternalTerminalShellIntegration.t)
  : InternalTerminalShellIntegration.t * list Observable :=
  match trace with
  | [] => (s, [])
  | a :: trace' =>
      let '(s1, seen1) := step a s in
      let '(s2, seen2) := run trace' s1 in
      (s2, seen1 ++ seen2)
  end.

(** ** Calls on one execution *)

(** The methods of one [InternalTerminalShellExecution], the microtasks
    that run between them, and the consumer of an iterable asking for
    its next element. *)
Inductive ExecutionCall :=
  | CallRead
  | CallEmitData (data : JSString)
  | CallEndExecution (commandLine : option TerminalShellExecutionCommandLine)
  | CallFlush
  | CallMicrotask (k : nat)
  | CallNext (it : nat).

Definition call (c : ExecutionCall) (st : InternalTerminalShellExecution.t * Runtime)
  : InternalTerminalShellExecution.t * Runtime :=
  let '(e, rt) := st in
  match c with
  | CallRead =>
      let '(_, e', rt') := InternalTerminalShellExecution.read e rt in (e', rt')
  | CallEmitData data => (e, InternalTerminalShellExecution.emitData data e rt)
  | CallEndExecution cl => InternalTerminalShellExecution.endExecution cl e rt
  | CallFlush => (e, rt)
  | CallMicrotask k => (e, run_executor k rt)
  | CallNext it => (e, (iterate it rt).2)
  end.

Definition calls (cs : list ExecutionCall) (st : InternalTerminalShellExecution.t * Runtime)
  : InternalTerminalShellExecution.t * Runtime :=
  foldl (fun st c => call c st) st cs.

(** The chunks that a list of calls pushes into the stream of a running
    execution: those of [emitData] up to the first [endExecution]. *)
Fixpoint pushed (cs : list ExecutionCall) : list JSString :=
  match cs with
  | [] => []
  | CallEmitData data :: cs' => data :: pushed cs'
  | CallEndExecution _ :: _ => []
  | _ :: cs' => pushed cs'
  end.

(** The chunks that the consumer of iterable [it] is given during a list
    of calls, in order. *)
Fixpoint produced (it : nat) (cs : list ExecutionCall)
    (st : InternalTerminalShellExecution.t * Runtime) : list JSString :=
  match cs with
  | [] => []
  | c :: cs' =>
      match c with
      | CallNext it' =>
          if decide (it' = it)
          then match (iterate it st.2).1 with Yield chunk => [chunk] | _ => [] end
          else []
      | _ => []
      end ++ produced it cs' (call c st)
  end.

(** A consumer asks the iterator of [it] for its next element [n]
    times. *)
Fixpoint consume (n : nat) (it : nat) (rt : Runtime) : list IteratorResult :=
  match n with
  | O => []
  | S n' => (iterate it rt).1 :: consume n' it (iterate it rt).2
  end.

(** ** class ExtHostTerminalShellIntegration *)

Module ExtHostTerminalShellIntegration.

(** The listeners that [$shellIntegrationChange] adds to the store of a
    new integration. *)
Inductive Listener :=
  | OnWillDispose
  | OnDidRequestShellExecution
  | OnDidRequestEndExecution
  | OnDidRequestChangeShellIntegration.

#[global] Instance Listener_eq_dec : EqDecision Listener.
Proof. solve_decision. Defined.

(** Modelled from the spec: a terminal object of [IExtHostTerminalService]
    (not under src/), as far as this class touches it: whether its
    [shellIntegration] has been assigned and how many listeners
    [onWillDispose] has. *)
Record ExtHostTerminal := {
  shellIntegration : bool;
  onWillDispose : nat
}.

(** An [InternalTerminalShellIntegration] as the directory holds it: its
    state, the listeners in its [store], and the terminal it was
    constructed with ([_terminal]), which the events it fires carry. *)
Record Integration := {
  integration : InternalTerminalShellIntegration.t;
  store : list Listener;
  _terminal : nat
}.

(** What leaves the class: the three public events with the terminal
    they carry, the request to the main thread with the handle it
    carries, and the console. *)
Inductive Emitted :=
  | OnDidChangeTerminalShellIntegration (terminal : nat)
  | OnDidStartTerminalShellExecution (terminal execution : nat)
  | OnDidEndTerminalShellExecution (terminal execution : nat) (exitCode : option Z)
  | Proxy_executeCommand (instanceId : nat) (commandLine : JSString)
  | Console_warn.

Record t := {
  (** Modelled from the spec: the terminals that
      [_extHostTerminalService.getTerminalById] resolves. *)
  _extHostTerminalService : gmap nat ExtHostTerminal;
  _activeShellIntegrations : gmap nat Integration;
  emitted : list Emitted
}.

Definition getTerminalById (instanceId : nat) (h : t) : option ExtHostTerminal :=
  _extHostTerminalService h !! instanceId.

(** Where an event of the integration [i], registered under the handle
    [instanceId], goes.  The start event is fired on the emitter of the
    directory itself; the others reach the listeners of the store of
    [i], which pass the event on as it is or send the request with the
    handle. *)
Definition deliver (instanceId : nat) (i : Integration)
    (f : InternalTerminalShellIntegration.Fired) : list Emitted :=
  match f with
  | InternalTerminalShellIntegration.DidStartTerminalShellExecution e =>
      [OnDidStartTerminalShellExecution (_terminal i) e]
  | InternalTerminalShellIntegration.DidRequestEndExecution e exitCode =>
      if bool_decide (OnDidRequestEndExecution ∈ store i)
      then [OnDidEndTerminalShellExecution (_terminal i) e exitCode] else []
  | InternalTerminalShellIntegration.DidRequestChangeShellIntegration =>
      if bool_decide (OnDidRequestChangeShellIntegration ∈ store i)
      then [OnDidChangeTerminalShellIntegration (_terminal i)] else []
  | InternalTerminalShellIntegration.DidRequestShellExecution commandLine =>
      if bool_decide (OnDidRequestShellExecution ∈ store i)
      then [Proxy_executeCommand instanceId commandLine] else []
  | InternalTerminalShellIntegration.DidRequestNewExecution _ => []
  | InternalTerminalShellIntegration.ConsoleWarn => [Console_warn]
  end.

(** [this._activeShellIntegrations.get(instanceId)?.method(...)] *)
Definition with_integration (instanceId : nat)
    (method : InternalTerminalShellIntegration.t ->
              InternalTerminalShellIntegration.t * list InternalTerminalShellIntegration.Fired)
    (h : t) : t :=
  match _activeShellIntegrations h !! instanceId with
  | Some i =>
      let '(s', fired) := method (integration i) in
      {| _extHostTerminalService := _extHostTerminalService h;
         _activeShellIntegrations :=
           <[instanceId := {| integration := s'; store := store i; _terminal := _terminal i |}]>
             (_activeShellIntegrations h);
         emitted := emitted h ++ concat (deliver instanceId i <$> fired) |}
  | None => h
  end.

Definition shellIntegrationChange (instanceId : nat) (h : t) : t :=
  match getTerminalById instanceId h with
  | None => h
  | Some terminal =>
      let h1 :=
        match _activeShellIntegrations h !! instanceId with
        | Some _ => h
        | None =>
            {| _extHostTerminalService :=
                 <[instanceId := {| shellIntegration := true;
                                    onWillDispose := S (onWillDispose terminal) |}]>
                   (_extHostTerminalService h);
               _activeShellIntegrations :=
                 <[instanceId := {| integration := InternalTerminalShellIntegration.new;
                                    store := [OnWillDispose; OnDidRequestShellExecution;
                                              OnDidRequestEndExecution;
                                              OnDidRequestChangeShellIntegration];
                                    _terminal := instanceId |}]>
                   (_activeShellIntegrations h);
               emitted := emitted h |}
        end in
      {| _extHostTerminalService := _extHostTerminalService h1;
         _activeShellIntegrations := _activeShellIntegrations h1;
         emitted := emitted h1 ++ [OnDidChangeTerminalShellIntegration instanceId] |}
  end.

Definition shellExecutionStart (instanceId : nat) (commandLineValue : JSString)
    (commandLineConfidence : TerminalShellExecutionCommandLineConfidence)
    (isTrusted : bool) (cwd : option URI) (h : t) : t :=
  let h1 := match _activeShellIntegrations h !! instanceId with
            | Some _ => h
            | None => shellIntegrationChange instanceId h
            end in
  let commandLine := {| cl_value := commandLineValue;
                        cl_confidence := commandLineConfidence;
                        cl_isTrusted := isTrusted |} in
  with_integration instanceId
    (fun s => let '(_, s', fired) :=
                InternalTerminalShellIntegration.startShellExecution commandLine cwd s in
              (s', fired)) h1.

Definition shellExecutionEnd (instanceId : nat) (commandLineValue : JSString)
    (commandLineConfidence : TerminalShellExecutionCommandLineConfidence)
    (isTrusted : bool) (exitCode : option Z) (h : t) : t :=
  let commandLine := {| cl_value := commandLineValue;
                        cl_confidence := commandLineConfidence;
                        cl_isTrusted := isTrusted |} in
  with_integration instanceId
    (fun s => (InternalTerminalShellIntegration.endShellExecution (Some commandLine) exitCode s, []))
    h.

Definition shellExecutionData (instanceId : nat) (data : JSString) (h : t) : t :=
  with_integration instanceId
    (fun s => (InternalTerminalShellIntegration.emitData data s, [])) h.

Definition shellEnvChange (instanceId : nat) (shellEnvKeys shellEnvValues : list JSString)
    (isTrusted : bool) (h : t) : t :=
  with_integration instanceId
    (InternalTerminalShellIntegration.setEnv shellEnvKeys shellEnvValues isTrusted) h.

Definition cwdChange (instanceId : nat) (cwd : option URI) (h : t) : t :=
  with_integration instanceId (InternalTerminalShellIntegration.setCwd cwd) h.

(** [integration.dispose()] disposes the listeners of its store; the one
    on [onWillDispose] of its terminal is among them and leaves that
    event. *)
Definition dispose (i : Integration) (terminals : gmap nat ExtHostTerminal)
  : gmap nat ExtHostTerminal :=
  if bool_decide (OnWillDispose ∈ store i)
  then alter (fun terminal => {| shellIntegration := shellIntegration terminal;
                                 onWillDispose := pred (onWillDispose terminal) |})
             (_terminal i) terminals
  else terminals.

Definition closeTerminal (instanceId : nat) (h : t) : t :=
  {| _extHostTerminalService :=
       match _activeShellIntegrations h !! instanceId with
       | Some i => dispose i (_extHostTerminalService h)
       | None => _extHostTerminalService h
       end;
     _activeShellIntegrations := delete instanceId (_activeShellIntegrations h);
     emitted := emitted h |}.

Definition setHasRichCommandDetection (instanceId : nat) (value : bool) (h : t) : t :=
  with_integration instanceId
    (InternalTerminalShellIntegration.setHasRichCommandDetection value) h.

(** The inbound signals, each keyed by a terminal handle when it is
    handled. *)
Inductive Signal :=
  | ShellIntegrationChange
  | ShellExecutionStart (commandLineValue : JSString)
      (commandLineConfidence : TerminalShellExecutionCommandLineConfidence)
      (isTrusted : bool) (cwd : option URI)
  | ShellExecutionEnd (commandLineValue : JSString)
      (commandLineConfidence : TerminalShellExecutionCommandLineConfidence)
      (isTrusted : bool) (exitCode : option Z)
  | ShellExecutionData (data : JSString)
  | ShellEnvChange (shellEnvKeys shellEnvValues : list JSString) (isTrusted : bool)
  | CwdChange (cwd : option URI)
  | CloseTerminal
  | SetHasRichCommandDetection (value : bool).

Definition handle (instanceId : nat) (sig : Signal) (h : t) : t :=
  match sig with
  | ShellIntegrationChange => shellIntegrationChange instanceId h
  | ShellExecutionStart v c tr cwd => shellExecutionStart instanceId v c tr cwd h
  | ShellExecutionEnd v c tr exitCode => shellExecutionEnd instanceId v c tr exitCode h
  | ShellExecutionData data => shellExecutionData instanceId data h
  | ShellEnvChange keys values tr => shellEnvChange instanceId keys values tr h
  | CwdChange cwd => cwdChange instanceId cwd h
  | CloseTerminal => closeTerminal instanceId h
  | SetHasRichCommandDetection value => setHasRichCommandDetection instanceId value h
  end.

(** The signals that create the integration of a terminal that has
    none: [$shellIntegrationChange], and [$shellExecutionStart] through
    it. *)
Definition creates_integration (sig : Signal) : bool :=
  match sig with
  | ShellIntegrationChange | ShellExecutionStart _ _ _ _ => true
  | _ => false
  end.

(** What else happens to the integration registered under a handle: a
    call of an API consumer on its public views ([executeCommand],
    [read()], the iterator of an iterable) or a microtask of its queue.
    What the integration fires goes where [deliver] says. *)
Definition act (instanceId : nat) (a : Action) (h : t) : t :=
  with_integration instanceId
    (fun s => ((step a s).1,
               omap (fun o => match o with Event f => Some f | _ => None end) (step a s).2))
    h.

(** What happens to the directory, one step at a time. *)
Inductive Step :=
  | Handle (instanceId : nat) (sig : Signal)
  | Act (instanceId : nat) (a : Action).

Definition hstep (st : Step) (h : t) : t :=
  match st with
  | Handle instanceId sig => handle instanceId sig h
  | Act instanceId a => act instanceId a h
  end.

Definition hrun (steps : list Step) (h : t) : t := foldl (fun h st => hstep st h) h steps.

End ExtHostTerminalShellIntegration.

(** ** The properties, in the words of the specification *)

(** An argument as it stands in the command line: in double quotes when
    it is to be wrapped, verbatim otherwise. *)
Definition rendered_arg (arg : JSString) : JSString :=
  if wrapInQuotes arg then [34] ++ arg ++ [34] else arg.

(** The executable followed by each argument, separated by one space. *)
Definition rendered_commandLine (executable : JSString) (args : list JSString) : JSString :=
  executable ++ concat ((fun arg => [32] ++ rendered_arg arg) <$> args).

(** A new working directory differs from the stored one: by the string
    of the URI when one is stored, by identity with [undefined]
    otherwise. *)
Definition cwd_differs (stored new : option URI) : Prop :=
  match stored, new with
  | Some a, Some b => URI_toString a ≠ URI_toString b
  | Some _, None => True
  | None, Some _ => True
  | None, None => False
  end.

#[global] Instance cwd_differs_dec stored new : Decision (cwd_differs stored new).
Proof. destruct stored, new; simpl; apply _. Defined.

(** The correlation policy of a shell-reported start, in the words of the
    spec: [text e] is the command-line text of the pending execution [e];
    the policy relates the pending queue and the reported command line
    to the execution it dequeues, if any, and to the queue it leaves. *)
Inductive correlates (text : nat -> option JSString) (pending : list nat)
    (commandLine : TerminalShellExecutionCommandLine) : option nat -> list nat -> Prop :=
  | correlates_first_exact_match before e after :
      cl_confidence commandLine = High ->
      pending = before ++ e :: after ->
      text e = Some (cl_value commandLine) ->
      (forall x, x ∈ before -> text x ≠ Some (cl_value commandLine)) ->
      correlates text pending commandLine (Some e) (before ++ after)
  | correlates_no_match :
      cl_confidence commandLine = High ->
      (forall x, x ∈ pending -> text x ≠ Some (cl_value commandLine)) ->
      correlates text pending commandLine None pending
  | correlates_head e rest :
      cl_confidence commandLine ≠ High ->
      pending = e :: rest ->
      correlates text pending commandLine (Some e) rest
  | correlates_empty :
      cl_confidence commandLine ≠ High ->
      pending = [] ->
      correlates text pending commandLine None [].

(** The end events of execution [e] in what an observer has seen. *)
Definition is_end_of (e : nat) (o : Observable) : bool :=
  match o with
  | Event (InternalTerminalShellIntegration.DidRequestEndExecution e' _) => bool_decide (e' = e)
  | _ => false
  end.

Definition end_events (e : nat) (seen : list Observable) : nat :=
  length (List.filter (is_end_of e) seen).

(** Drain before end: wherever an end event of an execution stands, every
    reader attached to that execution before it has already finished. *)
Definition drain_before_end (seen : list Observable) : Prop :=
  forall before e exitCode after it,
    seen = before ++ Event (InternalTerminalShellIntegration.DidRequestEndExecution e exitCode) :: after ->
    Attached e (Ref it) ∈ before ->
    Finished it ∈ before.

(** ** Notions used in the proofs *)

Definition torn_down (e : InternalTerminalShellExecution.t) : Prop :=
  InternalTerminalShellExecution._ended e = true
  /\ InternalTerminalShellExecution._dataStream e = None.

(** The chunks that the iterable [it] holds. *)
Definition received_by (rt : Runtime) (it : nat) : option (list JSString) :=
  _results <$> deref rt (Ref it).

(** The chunks that the iterable [it] holds and its consumer has not been
    given yet. *)
Definition unread (rt : Runtime) (it : nat) : list JSString :=
  match iterables rt !! it with
  | Some r => drop (position r) (_results (iterable r))
  | None => []
  end.

(** The state of the iterable [it] of the store. *)
Definition state_of (rt : Runtime) (it : nat) : option AsyncIterableSourceState :=
  (fun r => _state (iterable r)) <$> iterables rt !! it.

(** The iterables whose executor is queued to start. *)
Definition starting (rt : Runtime) : list nat :=
  omap (fun m => match m with ExecutorStart _ it _ => Some it | _ => None end)
       (microtasks rt).

(** The stream that the execution object [e] of the store [h] refers
    to. *)
Definition stream_of (h : list InternalTerminalShellExecution.t) (e : nat) : option nat :=
  h !! e ≫= InternalTerminalShellExecution._dataStream.

(** The readers registered with the stream of the execution object [e]:
    the emitters that [emitData] writes to. *)
Definition readers_of (h : list InternalTerminalShellExecution.t) (rt : Runtime)
    (e : nat) : list nat :=
  default [] (stream_of h e ≫= fun stream => _emitters <$> streams rt !! stream).

(** The iterables that [read()] has handed out for the stream of the
    execution object [e], registered or not yet. *)
Definition attachments_of (h : list InternalTerminalShellExecution.t) (rt : Runtime)
    (e : nat) : list nat :=
  default [] (stream_of h e ≫= fun stream => _iterables <$> streams rt !! stream).

(** What holds of the execution objects of a store and of the runtime
    they use. *)
Record heap_inv (h : list InternalTerminalShellExecution.t) (rt : Runtime) : Prop := {
  (** an execution that has ended refers to no stream *)
  hi_running : forall e x,
    h !! e = Some x -> InternalTerminalShellExecution._ended x = true ->
    InternalTerminalShellExecution._dataStream x = None;
  (** the stream that an execution refers to has its barrier *)
  hi_live : forall e stream,
    stream_of h e = Some stream ->
    exists s b, streams rt !! stream = Some s /\ _barrier s = Some b;
  (** no two executions refer to the same stream *)
  hi_owner : forall e e' stream,
    stream_of h e = Some stream -> stream_of h e' = Some stream -> e = e';
  (** the barrier of a stream is not open, and the executors suspended on
      it are those of the emitters of the stream *)
  hi_barrier : forall stream s b,
    streams rt !! stream = Some s -> _barrier s = Some b ->
    barriers rt !! b = Some {| _isOpen := false; waiting := _emitters s |};
  (** no two streams have the same barrier *)
  hi_gate : forall stream stream' s s' b,
    streams rt !! stream = Some s -> streams rt !! stream' = Some s' ->
    _barrier s = Some b -> _barrier s' = Some b -> stream = stream';
  hi_bound : forall stream s it,
    streams rt !! stream = Some s -> it ∈ _iterables s ->
    (it < length (iterables rt))%nat;
  hi_emitters : forall stream s,
    streams rt !! stream = Some s ->
    NoDup (_emitters s) /\ (forall it, it ∈ _emitters s -> it ∈ _iterables s);
  (** no iterable belongs to two streams *)
  hi_disjoint : forall stream stream' s s' it,
    streams rt !! stream = Some s -> streams rt !! stream' = Some s' ->
    it ∈ _iterables s -> it ∈ _iterables s' -> stream = stream';
  (** an executor queued to start belongs to an iterable of its stream
      that is not registered and has not terminated; the barrier it has
      captured is that of the stream, or is open *)
  hi_starting : forall stream it b,
    ExecutorStart stream it b ∈ microtasks rt ->
    exists s,
      streams rt !! stream = Some s /\ it ∈ _iterables s /\ (it ∉ _emitters s)
      /\ state_of rt it = Some Initial /\ (ExecutorResume it ∉ microtasks rt)
      /\ match _barrier s with
         | Some b' => b' = b
         | None => exists w, barriers rt !! b = Some {| _isOpen := true; waiting := w |}
         end;
  hi_once : NoDup (starting rt);
  hi_resuming : forall it,
    ExecutorResume it ∈ microtasks rt -> (it < length (iterables rt))%nat;
  (** an iterable of a stream is registered or its executor is queued to
      start *)
  hi_attached : forall stream s it,
    streams rt !! stream = Some s -> it ∈ _iterables s -> it ∉ _emitters s ->
    exists b, ExecutorStart stream it b ∈ microtasks rt;
  (** the readers registered with a stream that has its barrier have not
      terminated and are not about to *)
  hi_readers : forall stream s b it,
    streams rt !! stream = Some s -> _barrier s = Some b -> it ∈ _emitters s ->
    state_of rt it = Some Initial /\ (ExecutorResume it ∉ microtasks rt);
  (** the callback of an end waits for nothing *)
  hi_flush : forall awaited e exitCode,
    EndContinuation awaited e exitCode ∈ microtasks rt -> awaited = None
}.

Definition session_inv (s : InternalTerminalShellIntegration.t) : Prop :=
  heap_inv (InternalTerminalShellIntegration.executions s)
           (InternalTerminalShellIntegration.runtime s).

(** The readers registered with the current execution. *)
Definition current_readers (s : InternalTerminalShellIntegration.t) : list nat :=
  match InternalTerminalShellIntegration._currentExecution s with
  | Some e => readers_of (InternalTerminalShellIntegration.executions s)
                         (InternalTerminalShellIntegration.runtime s) e
  | None => []
  end.

(** The iterable [it] holds [results], its consumer stands at [p], and
    its sequence is in state [st]. *)
Definition reader_at (rt : Runtime) (it : nat) (results : list JSString) (p : nat)
    (st : AsyncIterableSourceState) : Prop :=
  iterables rt !! it
  = Some {| iterable := {| _results := results; _state := st |}; position := p |}
  /\ (p <= length results)%nat.

(** [read()] has handed out the iterable [it] for the stream that the
    execution [e] refers to. *)
Definition attached_to (e : InternalTerminalShellExecution.t) (rt : Runtime)
    (it : nat) : Prop :=
  exists stream s,
    InternalTerminalShellExecution._dataStream e = Some stream
    /\ streams rt !! stream = Some s
    /\ it ∈ _iterables s.

(** The emitter of the iterable [it] is registered with the stream that
    the execution [e] refers to. *)
Definition registered_with (e : InternalTerminalShellExecution.t) (rt : Runtime)
    (it : nat) : Prop :=
  exists stream s,
    InternalTerminalShellExecution._dataStream e = Some stream
    /\ streams rt !! stream = Some s
    /\ it ∈ _emitters s.

(** The first step of [startShellExecution]: an execution that is still
    current is ended without an exit code. *)
Definition force_end (s : InternalTerminalShellIntegration.t)
  : InternalTerminalShellIntegration.t * list InternalTerminalShellIntegration.Fired :=
  match InternalTerminalShellIntegration._currentExecution s with
  | Some current =>
      (InternalTerminalShellIntegration.call_execution
         (InternalTerminalShellExecution.endExecution None) current s,
       (if InternalTerminalShellIntegration._hasRichCommandDetection s
        then [InternalTerminalShellIntegration.ConsoleWarn] else [])
       ++ [InternalTerminalShellIntegration.DidRequestEndExecution current None])
  | None => (s, [])
  end.

(** The pending executions are distinct objects of the store, and the
    current execution is an object of the store that is not pending. *)
Record wf (s : InternalTerminalShellIntegration.t) : Prop := {
  wf_bound :
    Forall (fun e => (e < length (InternalTerminalShellIntegration.executions s))%nat)
           (InternalTerminalShellIntegration._activeExecutions s);
  wf_nodup : NoDup (InternalTerminalShellIntegration._activeExecutions s);
  wf_current : forall e,
    InternalTerminalShellIntegration._currentExecution s = Some e ->
    (e < length (InternalTerminalShellIntegration.executions s))%nat
    /\ e ∉ InternalTerminalShellIntegration._activeExecutions s
}.

(** An execution whose end event has been seen is neither current nor
    pending. *)
Definition ended_are_gone (s : InternalTerminalShellIntegration.t)
    (seen : list Observable) : Prop :=
  forall e, (0 < end_events e seen)%nat ->
    (e < length (InternalTerminalShellIntegration.executions s))%nat
    /\ InternalTerminalShellIntegration._currentExecution s ≠ Some e
    /\ e ∉ InternalTerminalShellIntegration._activeExecutions s.

Definition inv (s : InternalTerminalShellIntegration.t) (seen : list Observable) : Prop :=
  wf s /\ ended_are_gone s seen /\ forall e, (end_events e seen <= 1)%nat.

(** What one step does to the queue, to the current execution and to the
    size of the store, and the end events it shows. *)
Inductive transition (s s' : InternalTerminalShellIntegration.t)
  : list Observable -> Prop :=
  | transition_quiet seen :
      InternalTerminalShellIntegration._activeExecutions s'
        = InternalTerminalShellIntegration._activeExecutions s ->
      InternalTerminalShellIntegration._currentExecution s'
        = InternalTerminalShellIntegration._currentExecution s ->
      length (InternalTerminalShellIntegration.executions s')
        = length (InternalTerminalShellIntegration.executions s) ->
      (forall e, end_events e seen = 0%nat) ->
      transition s s' seen
  | transition_register seen :
      InternalTerminalShellIntegration._activeExecutions s'
        = InternalTerminalShellIntegration._activeExecutions s
          ++ [length (InternalTerminalShellIntegration.executions s)] ->
      InternalTerminalShellIntegration._currentExecution s'
        = InternalTerminalShellIntegration._currentExecution s ->
      length (InternalTerminalShellIntegration.executions s')
        = S (length (InternalTerminalShellIntegration.executions s)) ->
      (forall e, end_events e seen = 0%nat) ->
      transition s s' seen
  | transition_start picked rest current seen :
      match picked with
      | Some e =>
          InternalTerminalShellIntegration._activeExecutions s ≡ₚ e :: rest
          /\ current = e
          /\ length (InternalTerminalShellIntegration.executions s')
             = length (InternalTerminalShellIntegration.executions s)
      | None =>
          rest = InternalTerminalShellIntegration._activeExecutions s
          /\ current = length (InternalTerminalShellIntegration.executions s)
          /\ length (InternalTerminalShellIntegration.executions s')
             = S (length (InternalTerminalShellIntegration.executions s))
      end ->
      InternalTerminalShellIntegration._activeExecutions s' = rest ->
      InternalTerminalShellIntegration._currentExecution s' = Some current ->
      (forall e, end_events e seen =
                 if decide (InternalTerminalShellIntegration._currentExecution s = Some e)
                 then 1%nat else 0%nat) ->
      transition s s' seen
  | transition_end e exitCode :
      InternalTerminalShellIntegration._currentExecution s = Some e ->
      InternalTerminalShellIntegration._currentExecution s' = None ->
      InternalTerminalShellIntegration._activeExecutions s'
        = InternalTerminalShellIntegration._activeExecutions s ->
      length (InternalTerminalShellIntegration.executions s')
        = length (InternalTerminalShellIntegration.executions s) ->
      transition s s'
        [Event (InternalTerminalShellIntegration.DidRequestEndExecution e exitCode)].

Definition a_commandLine : TerminalShellExecutionCommandLine :=
  {| cl_value := str "ls"; cl_confidence := High; cl_isTrusted := true |}.

Definition all_listeners : list ExtHostTerminalShellIntegration.Listener :=
  [ExtHostTerminalShellIntegration.OnWillDispose;
   ExtHostTerminalShellIntegration.OnDidRequestShellExecution;
   ExtHostTerminalShellIntegration.OnDidRequestEndExecution;
   ExtHostTerminalShellIntegration.OnDidRequestChangeShellIntegration].

Definition a_host : ExtHostTerminalShellIntegration.t :=
  {| ExtHostTerminalShellIntegration._extHostTerminalService :=
       {[ 1%nat := {| ExtHostTerminalShellIntegration.shellIntegration := false;
                      ExtHostTerminalShellIntegration.onWillDispose := 0 |} ]};
     ExtHostTerminalShellIntegration._activeShellIntegrations := ∅;
     ExtHostTerminalShellIntegration.emitted := [] |}.

(** A directory that resolves the terminals 1 and 2. *)
Definition two_terminals : ExtHostTerminalShellIntegration.t :=
  {| ExtHostTerminalShellIntegration._extHostTerminalService :=
       {[ 1%nat := {| ExtHostTerminalShellIntegration.shellIntegration := false;
                      ExtHostTerminalShellIntegration.onWillDispose := 0 |};
          2%nat := {| ExtHostTerminalShellIntegration.shellIntegration := false;
                      ExtHostTerminalShellIntegration.onWillDispose := 0 |} ]};
     ExtHostTerminalShellIntegration._activeShellIntegrations := ∅;
     ExtHostTerminalShellIntegration.emitted := [] |}.

Definition pending_ls_pwd : InternalTerminalShellIntegration.t :=
  (run [ExecuteCommand (str "ls") None; ExecuteCommand (str "pwd") None]
       InternalTerminalShellIntegration.new).1.

Definition a_uri : URI := {| URI_toString := str "file:///home" |}.

(** An observable that is neither a start event nor an end event. *)
Definition no_lifecycle (o : Observable) : Prop :=
  match o with
  | Event (InternalTerminalShellIntegration.DidStartTerminalShellExecution _) => False
  | Event (InternalTerminalShellIntegration.DidRequestEndExecution _ _) => False
  | _ => True
  end.

(** Start before end: wherever an end event of an execution stands, the
    start event of that execution stands before it. *)
Definition start_before_end (seen : list Observable) : Prop :=
  forall before e exitCode after,
    seen = before ++ Event (InternalTerminalShellIntegration.DidRequestEndExecution e exitCode) :: after ->
    Event (InternalTerminalShellIntegration.DidStartTerminalShellExecution e) ∈ before.

Definition is_start_of (e : nat) (o : Observable) : bool :=
  match o with
  | Event (InternalTerminalShellIntegration.DidStartTerminalShellExecution e') => bool_decide (e' = e)
  | _ => false
  end.

Definition start_events (e : nat) (seen : list Observable) : nat :=
  length (List.filter (is_start_of e) seen).

(** What one step does to the queue, to the current execution and to the
    size of the store, together with the lifecycle events it shows. *)
Inductive moves (s s' : InternalTerminalShellIntegration.t) : list Observable -> Prop :=
  | moves_quiet seen :
      InternalTerminalShellIntegration._activeExecutions s'
        = InternalTerminalShellIntegration._activeExecutions s ->
      InternalTerminalShellIntegration._currentExecution s'
        = InternalTerminalShellIntegration._currentExecution s ->
      length (InternalTerminalShellIntegration.executions s')
        = length (InternalTerminalShellIntegration.executions s) ->
      Forall no_lifecycle seen ->
      moves s s' seen
  | moves_register seen :
      InternalTerminalShellIntegration._activeExecutions s'
        = InternalTerminalShellIntegration._activeExecutions s
          ++ [length (InternalTerminalShellIntegration.executions s)] ->
      InternalTerminalShellIntegration._currentExecution s'
        = InternalTerminalShellIntegration._currentExecution s ->
      length (InternalTerminalShellIntegration.executions s')
        = S (length (InternalTerminalShellIntegration.executions s)) ->
      Forall no_lifecycle seen ->
      moves s s' seen
  | moves_start picked rest current :
      match picked with
      | Some e =>
          InternalTerminalShellIntegration._activeExecutions s ≡ₚ e :: rest
          /\ current = e
          /\ length (InternalTerminalShellIntegration.executions s')
             = length (InternalTerminalShellIntegration.executions s)
      | None =>
          rest = InternalTerminalShellIntegration._activeExecutions s
          /\ current = length (InternalTerminalShellIntegration.executions s)
          /\ length (InternalTerminalShellIntegration.executions s')
             = S (length (InternalTerminalShellIntegration.executions s))
      end ->
      InternalTerminalShellIntegration._activeExecutions s' = rest ->
      InternalTerminalShellIntegration._currentExecution s' = Some current ->
      moves s s'
        ((Event <$> (force_end s).2)
         ++ [Event (InternalTerminalShellIntegration.DidStartTerminalShellExecution current)])
  | moves_end e exitCode :
      InternalTerminalShellIntegration._currentExecution s = Some e ->
      InternalTerminalShellIntegration._currentExecution s' = None ->
      InternalTerminalShellIntegration._activeExecutions s'
        = InternalTerminalShellIntegration._activeExecutions s ->
      length (InternalTerminalShellIntegration.executions s')
        = length (InternalTerminalShellIntegration.executions s) ->
      moves s s' [Event (InternalTerminalShellIntegration.DidRequestEndExecution e exitCode)].

Ltac still := apply moves_quiet; simpl; try done; by repeat constructor.

(** The execution that is running after the lifecycle events of [seen],
    when [running] was running before: a start needs that none is
    running, an end needs that its own execution is running; [None] when
    an event comes out of turn. *)
Fixpoint running_after (running : option nat) (seen : list Observable)
  : option (option nat) :=
  match seen with
  | [] => Some running
  | Event (InternalTerminalShellIntegration.DidStartTerminalShellExecution e) :: seen' =>
      match running with
      | None => running_after (Some e) seen'
      | Some _ => None
      end
  | Event (InternalTerminalShellIntegration.DidRequestEndExecution e _) :: seen' =>
      if bool_decide (running = Some e) then running_after None seen' else None
  | _ :: seen' => running_after running seen'
  end.

(** An execution whose start event has been seen is not pending. *)
Definition started_are_not_pending (s : InternalTerminalShellIntegration.t)
    (seen : list Observable) : Prop :=
  forall e, (0 < start_events e seen)%nat ->
    (e < length (InternalTerminalShellIntegration.executions s))%nat
    /\ e ∉ InternalTerminalShellIntegration._activeExecutions s.

(** The barrier [b] is open. *)
Definition is_open (rt : Runtime) (b : nat) : bool :=
  match barriers rt !! b with
  | Some x => _isOpen x
  | None => false
  end.

(** The iterables that terminate when the tasks of a queue run: those
    whose executor resumes, and those whose executor starts on an open
    barrier. *)
Definition terminating (rt : Runtime) (tasks : list Microtask) : list nat :=
  omap (fun m => match m with
                 | ExecutorResume it => Some it
                 | ExecutorStart _ it b => if is_open rt b then Some it else None
                 | EndContinuation _ _ _ => None
                 end) tasks.

(** What the end callbacks of a queue fire when the queue runs in order,
    [current] being the current execution, and the current execution
    they leave. *)
Fixpoint callbacks (current : option nat) (tasks : list Microtask)
  : list InternalTerminalShellIntegration.Fired * option nat :=
  match tasks with
  | [] => ([], current)
  | EndContinuation _ e exitCode :: tasks' =>
      if bool_decide (current = Some e)
      then (InternalTerminalShellIntegration.DidRequestEndExecution e exitCode
              :: (callbacks None tasks').1,
            (callbacks None tasks').2)
      else callbacks current tasks'
  | _ :: tasks' => callbacks current tasks'
  end.

(** [x'] is a later state of the execution object [x]: the working
    directory is the same, and an object that was ended stays ended. *)
Definition later_of (x x' : InternalTerminalShellExecution.t) : Prop :=
  InternalTerminalShellExecution.cwd x' = InternalTerminalShellExecution.cwd x
  /\ (torn_down x -> torn_down x').

(** An outward emission that names the terminal [i], or the console. *)
Definition emitted_for (i : nat) (e : ExtHostTerminalShellIntegration.Emitted) : Prop :=
  match e with
  | ExtHostTerminalShellIntegration.OnDidChangeTerminalShellIntegration j
  | ExtHostTerminalShellIntegration.OnDidStartTerminalShellExecution j _
  | ExtHostTerminalShellIntegration.OnDidEndTerminalShellExecution j _ _
  | ExtHostTerminalShellIntegration.Proxy_executeCommand j _ => j = i
  | ExtHostTerminalShellIntegration.Console_warn => True
  end.

(** Every integration of the directory is registered under the handle of
    the terminal it was constructed with. *)
Definition keyed (h : ExtHostTerminalShellIntegration.t) : Prop :=
  forall i x,
    ExtHostTerminalShellIntegration._activeShellIntegrations h !! i = Some x ->
    ExtHostTerminalShellIntegration._terminal x = i.

(** What a step for terminal [i] leaves alone: the integration and the
    terminal object of every other terminal; and what it emits names
    [i]. *)
Definition touches_only (i : nat) (h h' : ExtHostTerminalShellIntegration.t) : Prop :=
  (forall j, j ≠ i ->
     ExtHostTerminalShellIntegration._activeShellIntegrations h' !! j
     = ExtHostTerminalShellIntegration._activeShellIntegrations h !! j
     /\ ExtHostTerminalShellIntegration.getTerminalById j h'
        = ExtHostTerminalShellIntegration.getTerminalById j h)
  /\ exists new,
       ExtHostTerminalShellIntegration.emitted h'
       = ExtHostTerminalShellIntegration.emitted h ++ new
       /\ Forall (emitted_for i) new.

(** The terminal that a step of the directory is for. *)
Definition terminal_of (st : ExtHostTerminalShellIntegration.Step) : nat :=
  match st with
  | ExtHostTerminalShellIntegration.Handle i _ => i
  | ExtHostTerminalShellIntegration.Act i _ => i
  end.

(** ** The stores of the runtime *)

Lemma elem_of_delete_other {A : Type} (l : list A) (k : nat) (x y : A) :
  l !! k = Some y -> x ∈ l -> x ≠ y -> x ∈ delete k l.
Proof.
  revert k. induction l as [|a l IH]; intros k Hk Hx Hne.
  - by apply elem_of_nil in Hx.
  - destruct k as [|k]; simpl in *.
    + injection Hk as ->. apply elem_of_cons in Hx as [?|?]; done.
    + apply elem_of_cons in Hx as [->|Hx]; [by left|]. right. by apply IH.
Qed.

Lemma omap_delete_NoDup {A B : Type} (f : A -> option B) (l : list A) (k : nat) :
  NoDup (omap f l) -> NoDup (omap f (delete k l)).
Proof.
  revert k. induction l as [|a l IH]; intros k H; [done|].
  destruct k as [|k]; simpl in *.
  - destruct (f a); [by apply NoDup_cons in H as [_ H]|done].
  - destruct (f a) as [b|]; [|by apply IH].
    apply NoDup_cons in H as [Hb H]. apply NoDup_cons. split; [|by apply IH].
    intros Hin. apply Hb. apply list_elem_of_omap in Hin as (x & Hx & Hfx).
    apply list_elem_of_omap. exists x. split; [|done].
    by eapply list_elem_of_delete_inv.
Qed.

Lemma elem_of_starting rt it :
  it ∈ starting rt <-> exists stream b, ExecutorStart stream it b ∈ microtasks rt.
Proof.
  unfold starting. rewrite list_elem_of_omap. split.
  - intros ([stream it' b| |] & Hin & Hf); simplify_eq. by exists stream, b.
  - intros (stream & b & Hin). by exists (ExecutorStart stream it b).
Qed.

Lemma state_of_lt rt it : is_Some (state_of rt it) <-> (it < length (iterables rt))%nat.
Proof.
  unfold state_of. rewrite fmap_is_Some. apply lookup_lt_is_Some.
Qed.

Lemma state_of_Some_lt rt it st : state_of rt it = Some st -> (it < length (iterables rt))%nat.
Proof. intros H. apply state_of_lt. by eexists. Qed.

Lemma state_of_update_iterable f id rt it :
  (forall x, _state (f x) = _state x) ->
  state_of (update_iterable f id rt) it = state_of rt it.
Proof.
  intros Hf. unfold state_of, update_iterable. simpl.
  rewrite list_lookup_alter. destruct (decide (id = it)) as [->|]; [|done].
  destruct (iterables rt !! it) as [r|]; simpl; [|done]. by rewrite Hf.
Qed.

Lemma emitOne_state data it : _state (emitOne data it) = _state it.
Proof. unfold emitOne. by destruct (_state it) eqn:E. Qed.

Lemma emitData_frame data stream rt :
  barriers (ShellExecutionDataStream.emitData data stream rt) = barriers rt
  /\ streams (ShellExecutionDataStream.emitData data stream rt) = streams rt
  /\ microtasks (ShellExecutionDataStream.emitData data stream rt) = microtasks rt
  /\ length (iterables (ShellExecutionDataStream.emitData data stream rt))
     = length (iterables rt)
  /\ (forall it, state_of (ShellExecutionDataStream.emitData data stream rt) it
                 = state_of rt it).
Proof.
  unfold ShellExecutionDataStream.emitData.
  generalize (default [] (_emitters <$> streams rt !! stream)). intros l. revert rt.
  induction l as [|x l IH]; intros rt; simpl; [done|].
  destruct (IH (update_iterable (emitOne data) x rt)) as (H1 & H2 & H3 & H4 & H5).
  rewrite H1, H2, H3, H4. repeat split; try done.
  - simpl. by rewrite length_alter.
  - intros it. rewrite H5. apply state_of_update_iterable, emitOne_state.
Qed.

Lemma emitData_lookup data stream rt it :
  NoDup (default [] (_emitters <$> streams rt !! stream)) ->
  iterables (ShellExecutionDataStream.emitData data stream rt) !! it =
  if decide (it ∈ default [] (_emitters <$> streams rt !! stream))
  then map_iterable (emitOne data) <$> iterables rt !! it
  else iterables rt !! it.
Proof.
  unfold ShellExecutionDataStream.emitData.
  generalize (default [] (_emitters <$> streams rt !! stream)). intros l. revert rt.
  induction l as [|x l IH]; intros rt Hnd; simpl.
  - destruct (decide (it ∈ [])) as [H|H]; [by apply elem_of_nil in H | done].
  - apply NoDup_cons in Hnd as [Hx Hnd].
    rewrite IH by done. unfold update_iterable. simpl. rewrite list_lookup_alter.
    destruct (decide (x = it)) as [->|Hne].
    + destruct (decide (it ∈ l)); [done|].
      destruct (decide (it ∈ it :: l)) as [|H]; [done|].
      exfalso. apply H. by left.
    + destruct (decide (it ∈ l)) as [Hin|Hin].
      * destruct (decide (it ∈ x :: l)) as [|H]; [done|].
        exfalso. apply H. by right.
      * destruct (decide (it ∈ x :: l)) as [H|]; [|done].
        apply elem_of_cons in H as [?|?]; done.
Qed.

Lemma iterate_frame it rt :
  barriers (iterate it rt).2 = barriers rt
  /\ streams (iterate it rt).2 = streams rt
  /\ microtasks (iterate it rt).2 = microtasks rt
  /\ length (iterables (iterate it rt).2) = length (iterables rt)
  /\ (forall id, state_of (iterate it rt).2 id = state_of rt id)
  /\ (forall id, received_by (iterate it rt).2 id = received_by rt id).
Proof.
  unfold iterate. destruct (iterables rt !! it) as [r|] eqn:Hr; [|done].
  destruct (iterator_next _ _); try done. simpl.
  split; [done|]. split; [done|]. split; [done|]. split; [by rewrite length_insert|].
  split; intros id; unfold state_of, received_by, deref; simpl;
    (destruct (decide (id = it)) as [->|Hne];
     [rewrite list_lookup_insert_eq by (by eapply lookup_lt_Some); by rewrite Hr
     |by rewrite list_lookup_insert_ne]).
Qed.

(** ** What holds of the executions and the runtime *)

Lemma stream_of_Some h e stream :
  stream_of h e = Some stream <->
  exists x, h !! e = Some x /\ InternalTerminalShellExecution._dataStream x = Some stream.
Proof.
  unfold stream_of. destruct (h !! e) as [x|]; simpl.
  - split; [intros H; by exists x | by intros (? & [= <-] & ?)].
  - split; [done | by intros (? & ? & ?)].
Qed.

Ltac open_inv H :=
  destruct H as [Hrun Hlive Hown Hbar Hgate Hbound Hemit Hdisj Hstart Honce Hres Hatt
                 Hread Hflush].

Lemma heap_inv_init : heap_inv [] Runtime_init.
Proof.
  split; simpl; intros;
    repeat match goal with
    | H : stream_of [] _ = Some _ |- _ => by apply stream_of_Some in H as (? & ? & ?)
    | H : _ ∈ [] |- _ => by apply elem_of_nil in H
    | H : [] !! _ = Some _ |- _ => by rewrite lookup_nil in H
    end; try done.
  apply NoDup_nil_2.
Qed.

(** The invariant reads the iterables through their number and their
    states only. *)
Lemma heap_inv_ext h rt rt' :
  barriers rt' = barriers rt -> streams rt' = streams rt ->
  microtasks rt' = microtasks rt ->
  length (iterables rt') = length (iterables rt) ->
  (forall it, state_of rt' it = state_of rt it) ->
  heap_inv h rt -> heap_inv h rt'.
Proof.
  intros Hb Hs Hm Hl Hst Hinv. open_inv Hinv.
  split; unfold starting; rewrite ?Hb, ?Hs, ?Hm, ?Hl; try done.
  - intros stream it b H. destruct (Hstart stream it b H) as (s & ? & ? & ? & ? & ? & ?).
    exists s. rewrite Hst. done.
  - intros stream s b it H1 H2 H3. rewrite Hst. by eapply Hread.
Qed.

(** The invariant reads the store through the stream of each execution
    and through the executions that have ended. *)
Lemma heap_inv_store h h' rt :
  (forall e, stream_of h' e = stream_of h e) ->
  (forall e x, h' !! e = Some x -> InternalTerminalShellExecution._ended x = true ->
               InternalTerminalShellExecution._dataStream x = None) ->
  heap_inv h rt -> heap_inv h' rt.
Proof.
  intros Hs Hr Hinv. open_inv Hinv. split; try done.
  - intros e stream. rewrite Hs. apply Hlive.
  - intros e e' stream. rewrite !Hs. apply Hown.
Qed.

Lemma stream_of_snoc h x e :
  stream_of (h ++ [x]) e =
  if decide (e = length h) then InternalTerminalShellExecution._dataStream x
  else stream_of h e.
Proof.
  unfold stream_of. destruct (decide (e = length h)) as [->|Hne].
  - by rewrite (list_lookup_middle h [] x _ eq_refl).
  - destruct (decide (e < length h)%nat).
    + by rewrite lookup_app_l.
    + rewrite !lookup_ge_None_2; [done|lia|rewrite length_app; simpl; lia].
Qed.

Lemma stream_of_insert h c x e :
  h !! c = Some x ->
  forall x', stream_of (<[c := x']> h) e =
  if decide (e = c) then InternalTerminalShellExecution._dataStream x' else stream_of h e.
Proof.
  intros Hc x'. unfold stream_of. destruct (decide (e = c)) as [->|Hne].
  - by rewrite list_lookup_insert_eq by (by eapply lookup_lt_Some).
  - by rewrite list_lookup_insert_ne.
Qed.

(** A new execution object. *)
Lemma heap_inv_alloc h rt commandLine cwd :
  heap_inv h rt ->
  heap_inv (h ++ [InternalTerminalShellExecution.new commandLine cwd]) rt.
Proof.
  intros Hinv. open_inv Hinv. split; try done.
  - intros e x Hx He. apply lookup_app_Some in Hx as [Hx|[_ Hx]]; [by eapply Hrun|].
    destruct (e - length h)%nat; simpl in Hx; [by injection Hx as <-|done].
  - intros e stream. rewrite stream_of_snoc. destruct (decide _); [done|apply Hlive].
  - intros e e' stream. rewrite !stream_of_snoc.
    repeat destruct (decide _); try done. apply Hown.
Qed.

(** [createIterable] on a stream that has its barrier. *)
Lemma createIterable_live rt stream s b :
  streams rt !! stream = Some s -> _barrier s = Some b ->
  ShellExecutionDataStream.createIterable stream rt =
  (length (iterables rt),
   {| iterables :=
        iterables rt ++ [{| iterable := {| _results := []; _state := Initial |};
                            position := 0 |}];
      barriers := barriers rt;
      streams := alter (ShellExecutionDataStream.push_iterable (length (iterables rt)))
                       stream (streams rt);
      microtasks := microtasks rt ++ [ExecutorStart stream (length (iterables rt)) b] |}).
Proof.
  intros Hs Hb. unfold ShellExecutionDataStream.createIterable. rewrite Hs. simpl.
  by rewrite Hb.
Qed.

(** [createIterable] on a new stream first gives it a barrier. *)
Lemma createIterable_new rt :
  let stream := length (streams rt) in
  let b := length (barriers rt) in
  let rt1 :=
    {| iterables := iterables rt;
       barriers := barriers rt ++ [{| _isOpen := false; waiting := [] |}];
       streams := streams rt ++ [{| _barrier := Some b; _iterables := []; _emitters := [] |}];
       microtasks := microtasks rt |} in
  ShellExecutionDataStream.createIterable stream
    (set_streams (streams rt ++ [ShellExecutionDataStream.new]) rt)
  = ShellExecutionDataStream.createIterable stream rt1.
Proof.
  intros stream b rt1.
  assert (streams rt1 !! stream
          = Some {| _barrier := Some b; _iterables := []; _emitters := [] |}) as H1.
  { by apply list_lookup_middle. }
  rewrite (createIterable_live rt1 stream _ b H1 eq_refl).
  unfold ShellExecutionDataStream.createIterable. simpl.
  rewrite (list_lookup_middle (streams rt) [] _ stream eq_refl). simpl.
  unfold update_stream, AsyncIterableObject_new, queueMicrotasks. simpl.
  replace stream with (length (streams rt) + 0)%nat by (subst stream; lia).
  unfold set_streams, set_microtasks, set_iterables, set_barriers; simpl.
  f_equal. f_equal. by rewrite !(alter_app_r _ (streams rt)).
Qed.

Lemma lookup_push_iterable rt stream it stream0 s0' :
  alter (ShellExecutionDataStream.push_iterable it) stream (streams rt) !! stream0 = Some s0' ->
  exists s0,
    streams rt !! stream0 = Some s0
    /\ _barrier s0' = _barrier s0 /\ _emitters s0' = _emitters s0
    /\ (forall x, x ∈ _iterables s0' <-> x ∈ _iterables s0 \/ (stream0 = stream /\ x = it)).
Proof.
  rewrite list_lookup_alter. destruct (decide (stream = stream0)) as [->|Hne].
  - destruct (streams rt !! stream0) as [s0|]; simpl; [|done].
    intros [= <-]. exists s0. split; [done|]. split; [done|]. split; [done|].
    intros x. simpl. rewrite elem_of_app, list_elem_of_singleton.
    split; [intros [?|?]; [by left|by right]|intros [?|[_ ?]]; [by left|by right]].
  - intros H. exists s0'. split; [done|]. split; [done|]. split; [done|].
    intros x. split; [by left|intros [?|[? _]]; [done|by subst]].
Qed.

(** A reader is attached to a stream that has its barrier. *)
Lemma heap_inv_createIterable h rt stream s b :
  heap_inv h rt -> streams rt !! stream = Some s -> _barrier s = Some b ->
  heap_inv h (ShellExecutionDataStream.createIterable stream rt).2.
Proof.
  intros Hinv Hs Hb. rewrite (createIterable_live rt stream s b Hs Hb). simpl.
  set (it := length (iterables rt)).
  open_inv Hinv.
  assert (forall x st, state_of rt x = Some st ->
            state_of {| iterables := iterables rt
                          ++ [{| iterable := {| _results := []; _state := Initial |};
                                 position := 0 |}];
                        barriers := barriers rt;
                        streams := alter (ShellExecutionDataStream.push_iterable it)
                                         stream (streams rt);
                        microtasks := microtasks rt ++ [ExecutorStart stream it b] |} x
            = Some st) as Hstate.
  { intros x st Hx. unfold state_of in *. simpl. rewrite lookup_app_l; [done|].
    apply lookup_lt_is_Some. by destruct (iterables rt !! x). }
  assert (forall stream0 s0, streams rt !! stream0 = Some s0 -> it ∉ _iterables s0) as Hfresh.
  { intros stream0 s0 H0 Hin. apply (Hbound _ _ _ H0) in Hin. subst it. lia. }
  assert (forall x, ExecutorResume x ∈ microtasks rt ++ [ExecutorStart stream it b] ->
                    ExecutorResume x ∈ microtasks rt) as Hresume.
  { intros x Hx. apply elem_of_app in Hx as [?|Hx]; [done|].
    by apply list_elem_of_singleton in Hx. }
  split; simpl.
  - done.
  - intros e stream0 He. destruct (Hlive e stream0 He) as (s0 & b0 & H0 & Hb0).
    rewrite list_lookup_alter. destruct (decide (stream = stream0)) as [->|Hne].
    + rewrite H0. simpl. by eexists _, b0.
    + by exists s0, b0.
  - done.
  - intros stream0 s0' b0 H0' Hb0.
    apply lookup_push_iterable in H0' as (s0 & H0 & Hbe & Hem & _).
    rewrite Hem. apply (Hbar stream0); [done|congruence].
  - intros stream0 stream1 s0' s1' b0 H0' H1' Hb0 Hb1.
    apply lookup_push_iterable in H0' as (s0 & H0 & Hbe0 & _).
    apply lookup_push_iterable in H1' as (s1 & H1 & Hbe1 & _).
    apply (Hgate stream0 stream1 s0 s1 b0); congruence.
  - intros stream0 s0' x H0' Hx.
    apply lookup_push_iterable in H0' as (s0 & H0 & _ & _ & Hit).
    rewrite length_app. simpl. apply Hit in Hx as [Hx|[_ ->]]; [|subst it; lia].
    apply (Hbound _ _ _ H0) in Hx. lia.
  - intros stream0 s0' H0'.
    apply lookup_push_iterable in H0' as (s0 & H0 & _ & Hem & Hit).
    rewrite Hem. destruct (Hemit _ _ H0) as [Hnd Hsub]. split; [done|].
    intros x Hx. apply Hit. left. by apply Hsub.
  - intros stream0 stream1 s0' s1' x H0' H1' Hx0 Hx1.
    apply lookup_push_iterable in H0' as (s0 & H0 & _ & _ & Hit0).
    apply lookup_push_iterable in H1' as (s1 & H1 & _ & _ & Hit1).
    apply Hit0 in Hx0. apply Hit1 in Hx1.
    destruct Hx0 as [Hx0|[-> ->]], Hx1 as [Hx1|[-> Hx1]]; try done.
    + by apply (Hdisj stream0 stream1 s0 s1 x).
    + subst x. by apply (Hfresh _ _ H0) in Hx0.
    + by apply (Hfresh _ _ H1) in Hx1.
  - intros stream0 x b0 Hin. apply elem_of_app in Hin as [Hin|Hin].
    + destruct (Hstart _ _ _ Hin) as (s0 & H0 & Hx & Hnx & Hst & Hnr & Hbm).
      rewrite list_lookup_alter. destruct (decide (stream = stream0)) as [->|Hne].
      * rewrite H0. simpl. eexists. split; [done|]. simpl.
        split; [apply elem_of_app; by left|]. split; [done|].
        split; [by apply Hstate|]. split; [by intros Hr; apply Hnr, Hresume|done].
      * exists s0. split; [done|]. split; [done|]. split; [done|].
        split; [by apply Hstate|]. split; [by intros Hr; apply Hnr, Hresume|done].
    + apply list_elem_of_singleton in Hin. injection Hin as -> -> ->.
      rewrite list_lookup_alter_eq, Hs. simpl. eexists. split; [done|]. simpl.
      split; [apply elem_of_app; right; by apply list_elem_of_singleton|].
      split.
      { intros Hin. destruct (Hemit _ _ Hs) as [_ Hsub]. apply Hsub in Hin.
        by apply (Hfresh stream s). }
      split.
      { unfold state_of. simpl. by rewrite (list_lookup_middle _ [] _ it eq_refl). }
      split; [|by rewrite Hb].
      intros Hr. apply Hresume, Hres in Hr. subst it. lia.
  - unfold starting. simpl. rewrite omap_app. simpl. apply NoDup_app.
    split; [done|]. split; [|apply NoDup_singleton].
    intros x Hx Hx'. apply list_elem_of_singleton in Hx'. subst x.
    apply elem_of_starting in Hx as (stream0 & b0 & Hin).
    destruct (Hstart _ _ _ Hin) as (s0 & H0 & Hx & _). by apply (Hfresh stream0 s0).
  - intros x Hx. apply Hresume, Hres in Hx. rewrite length_app. simpl. lia.
  - intros stream0 s0' x H0' Hx Hnx.
    apply lookup_push_iterable in H0' as (s0 & H0 & _ & Hem & Hit).
    rewrite Hem in Hnx. apply Hit in Hx as [Hx|[-> ->]].
    + destruct (Hatt _ _ _ H0 Hx Hnx) as [b0 Hb0]. exists b0.
      apply elem_of_app. by left.
    + exists b. apply elem_of_app. right. by apply list_elem_of_singleton.
  - intros stream0 s0' b0 x H0' Hb0 Hx.
    apply lookup_push_iterable in H0' as (s0 & H0 & Hbe & Hem & _).
    rewrite Hem in Hx. rewrite Hbe in Hb0.
    destruct (Hread _ _ _ _ H0 Hb0 Hx) as [Hst Hnr].
    split; [by apply Hstate|]. by intros Hr; apply Hnr, Hresume.
  - intros awaited e exitCode Hin. apply elem_of_app in Hin as [Hin|Hin].
    + by eapply Hflush.
    + by apply list_elem_of_singleton in Hin.
Qed.

(** An execution that has not ended gets its stream, and the stream its
    barrier. *)
Lemma heap_inv_new_stream h rt e x :
  heap_inv h rt -> h !! e = Some x ->
  InternalTerminalShellExecution._dataStream x = None ->
  InternalTerminalShellExecution._ended x = false ->
  heap_inv (<[e := InternalTerminalShellExecution.with_dataStream
                     (Some (length (streams rt))) x]> h)
           {| iterables := iterables rt;
              barriers := barriers rt ++ [{| _isOpen := false; waiting := [] |}];
              streams := streams rt ++ [{| _barrier := Some (length (barriers rt));
                                           _iterables := []; _emitters := [] |}];
              microtasks := microtasks rt |}.
Proof.
  intros Hinv He Hnone Hrunning. open_inv Hinv.
  assert (forall stream0 s0, streams rt !! stream0 = Some s0 ->
            forall b0, _barrier s0 = Some b0 -> (b0 < length (barriers rt))%nat) as Hblt.
  { intros stream0 s0 H0 b0 Hb0. apply lookup_lt_is_Some.
    rewrite (Hbar _ _ _ H0 Hb0). by eexists. }
  assert (forall e0 stream0, stream_of h e0 = Some stream0 ->
            (stream0 < length (streams rt))%nat) as Hslt.
  { intros e0 stream0 H0. destruct (Hlive _ _ H0) as (s0 & b0 & Hs0 & _).
    by eapply lookup_lt_Some. }
  split; simpl.
  - intros e0 x0 H0 Hended. destruct (decide (e0 = e)) as [->|Hne].
    + rewrite list_lookup_insert_eq in H0 by (by eapply lookup_lt_Some).
      injection H0 as <-. simpl in Hended. congruence.
    + rewrite list_lookup_insert_ne in H0 by done. by eapply Hrun.
  - intros e0 stream0. rewrite (stream_of_insert h e x e0 He).
    destruct (decide (e0 = e)) as [->|Hne]; simpl.
    + intros [= <-]. eexists _, _. split; [by apply list_lookup_middle|done].
    + intros H0. destruct (Hlive _ _ H0) as (s0 & b0 & Hs0 & Hb0).
      exists s0, b0. split; [|done]. rewrite lookup_app_l; [done|by eapply lookup_lt_Some].
  - intros e0 e1 stream0. rewrite !(stream_of_insert h e x _ He).
    destruct (decide (e0 = e)) as [->|Hne0], (decide (e1 = e)) as [->|Hne1]; simpl;
      try done.
    + intros [= <-] H1. apply Hslt in H1. lia.
    + intros H0 [= <-]. apply Hslt in H0. lia.
    + apply Hown.
  - intros stream0 s0 b0 H0 Hb0. apply lookup_snoc_Some in H0 as [[Hlt H0]|[-> <-]].
    + rewrite lookup_app_l by (by eapply Hblt). by eapply Hbar.
    + simpl in *. injection Hb0 as <-. by apply list_lookup_middle.
  - intros stream0 stream1 s0 s1 b0 H0 H1 Hb0 Hb1.
    apply lookup_snoc_Some in H0 as [[Hlt0 H0]|[-> <-]];
      apply lookup_snoc_Some in H1 as [[Hlt1 H1]|[-> <-]]; simpl in *; try done.
    + by eapply Hgate.
    + injection Hb1 as <-. apply (Hblt _ _ H0) in Hb0. lia.
    + injection Hb0 as <-. apply (Hblt _ _ H1) in Hb1. lia.
  - intros stream0 s0 it H0 Hit. apply lookup_snoc_Some in H0 as [[Hlt H0]|[-> <-]].
    + by eapply Hbound.
    + by apply elem_of_nil in Hit.
  - intros stream0 s0 H0. apply lookup_snoc_Some in H0 as [[Hlt H0]|[-> <-]].
    + by eapply Hemit.
    + simpl. split; [apply NoDup_nil_2|]. intros it Hit. by apply elem_of_nil in Hit.
  - intros stream0 stream1 s0 s1 it H0 H1 Hit0 Hit1.
    apply lookup_snoc_Some in H0 as [[Hlt0 H0]|[-> <-]];
      apply lookup_snoc_Some in H1 as [[Hlt1 H1]|[-> <-]]; simpl in *; try done.
    + by eapply Hdisj.
    + by apply elem_of_nil in Hit1.
    + by apply elem_of_nil in Hit0.
  - intros stream0 it b0 Hin.
    destruct (Hstart _ _ _ Hin) as (s0 & H0 & Hx & Hnx & Hst & Hnr & Hbm).
    exists s0. split; [rewrite lookup_app_l; [done|by eapply lookup_lt_Some]|].
    split; [done|]. split; [done|]. split; [done|]. split; [done|].
    destruct (_barrier s0); [done|]. destruct Hbm as [w Hw]. exists w.
    rewrite lookup_app_l; [done|by eapply lookup_lt_Some].
  - done.
  - done.
  - intros stream0 s0 it H0 Hit Hnit. apply lookup_snoc_Some in H0 as [[Hlt H0]|[-> <-]].
    + by eapply Hatt.
    + by apply elem_of_nil in Hit.
  - intros stream0 s0 b0 it H0 Hb0 Hit. apply lookup_snoc_Some in H0 as [[Hlt H0]|[-> <-]].
    + by eapply Hread.
    + by apply elem_of_nil in Hit.
  - done.
Qed.

(** [read()] on an execution of the store. *)
Lemma heap_inv_read h rt e x :
  heap_inv h rt -> h !! e = Some x ->
  heap_inv (<[e := (InternalTerminalShellExecution.read x rt).1.2]> h)
           (InternalTerminalShellExecution.read x rt).2.
Proof.
  intros Hinv He.
  unfold InternalTerminalShellExecution.read,
    InternalTerminalShellExecution._createDataStream.
  destruct (InternalTerminalShellExecution._dataStream x) as [stream|] eqn:Hds.
  - assert (stream_of h e = Some stream) as Hso by (apply stream_of_Some; eauto).
    destruct (hi_live _ _ Hinv e stream Hso) as (s & b & Hs & Hb).
    pose proof (heap_inv_createIterable h rt stream s b Hinv Hs Hb) as H.
    destruct (ShellExecutionDataStream.createIterable stream rt) as [it rt'].
    simpl in *. by rewrite list_insert_id.
  - destruct (InternalTerminalShellExecution._ended x) eqn:Hended.
    + simpl. by rewrite list_insert_id.
    + rewrite createIterable_new. cbv zeta.
      pose proof (heap_inv_new_stream h rt e x Hinv He Hds Hended) as H1.
      match type of H1 with
      | heap_inv ?h1 ?rt1 =>
          pose proof (heap_inv_createIterable h1 rt1 (length (streams rt)) _
                        (length (barriers rt)) H1
                        (list_lookup_middle (streams rt) [] _ _ eq_refl) eq_refl) as H2
      end.
      match type of H2 with
      | heap_inv _ (?c).2 => destruct c as [it rt'] eqn:Ec
      end.
      simpl in *. exact H2.
Qed.

Lemma heap_inv_emitData h rt x data :
  heap_inv h rt -> heap_inv h (InternalTerminalShellExecution.emitData data x rt).
Proof.
  intros Hinv. unfold InternalTerminalShellExecution.emitData.
  destruct (InternalTerminalShellExecution._dataStream x) as [stream|]; [|done].
  destruct (emitData_frame data stream rt) as (H1 & H2 & H3 & H4 & H5).
  by apply (heap_inv_ext h rt).
Qed.

Lemma heap_inv_iterate h rt it :
  heap_inv h rt -> heap_inv h (iterate it rt).2.
Proof.
  intros Hinv. destruct (iterate_frame it rt) as (H1 & H2 & H3 & H4 & H5 & _).
  by apply (heap_inv_ext h rt).
Qed.

(** [endExecution] on an execution whose stream has its barrier. *)
Lemma endExecution_live rt stream s b w :
  streams rt !! stream = Some s -> _barrier s = Some b ->
  barriers rt !! b = Some {| _isOpen := false; waiting := w |} ->
  ShellExecutionDataStream.endExecution stream rt =
  {| iterables := iterables rt;
     barriers := alter (fun _ => {| _isOpen := true; waiting := [] |}) b (barriers rt);
     streams := alter (ShellExecutionDataStream.set_barrier None) stream (streams rt);
     microtasks := microtasks rt ++ (ExecutorResume <$> w) |}.
Proof.
  intros Hs Hb Hw. unfold ShellExecutionDataStream.endExecution, Barrier_open.
  rewrite Hs. simpl. rewrite Hb, Hw. reflexivity.
Qed.

Lemma lookup_set_barrier_None (l : list DataStream) stream stream0 s0' :
  alter (ShellExecutionDataStream.set_barrier None) stream l !! stream0 = Some s0' ->
  exists s0,
    l !! stream0 = Some s0
    /\ _iterables s0' = _iterables s0 /\ _emitters s0' = _emitters s0
    /\ (stream0 = stream -> _barrier s0' = None)
    /\ (stream0 ≠ stream -> s0' = s0).
Proof.
  rewrite list_lookup_alter. destruct (decide (stream = stream0)) as [->|Hne].
  - destruct (l !! stream0) as [s0|]; simpl; [|done].
    intros [= <-]. by exists s0.
  - intros H. exists s0'. split; [done|]. split; [done|]. split; [done|].
    split; [by intros ->|done].
Qed.

Lemma starting_resumes rt w :
  starting (set_microtasks (microtasks rt ++ (ExecutorResume <$> w)) rt) = starting rt.
Proof.
  unfold starting. simpl. rewrite omap_app.
  assert (omap (fun m => match m with ExecutorStart _ it _ => Some it | _ => None end)
               (ExecutorResume <$> w) = []) as ->.
  { induction w as [|a w IH]; [done|]. simpl. exact IH. }
  by rewrite app_nil_r.
Qed.

Lemma elem_of_resumes (q : list Microtask) w m :
  m ∈ q ++ (ExecutorResume <$> w) ->
  m ∈ q \/ exists it, m = ExecutorResume it /\ it ∈ w.
Proof.
  intros H. apply elem_of_app in H as [?|H]; [by left|right].
  apply list_elem_of_fmap in H as (it & -> & Hit). by exists it.
Qed.

(** [endExecution] on an execution of the store. *)
Lemma heap_inv_endExecution h rt e x commandLine :
  heap_inv h rt -> h !! e = Some x ->
  heap_inv (<[e := (InternalTerminalShellExecution.endExecution commandLine x rt).1]> h)
           (InternalTerminalShellExecution.endExecution commandLine x rt).2.
Proof.
  intros Hinv He. unfold InternalTerminalShellExecution.endExecution. simpl.
  destruct (InternalTerminalShellExecution._dataStream x) as [stream|] eqn:Hds.
  2: { apply (heap_inv_store h); [| |done].
       - intros e0. rewrite (stream_of_insert h e x e0 He). destruct (decide _) as [->|]; [|done].
         simpl. symmetry. unfold stream_of. by rewrite He.
       - intros e0 x0 H0 Hended. destruct (decide (e0 = e)) as [->|Hne].
         + rewrite list_lookup_insert_eq in H0 by (by eapply lookup_lt_Some).
           by injection H0 as <-.
         + rewrite list_lookup_insert_ne in H0 by done. by eapply (hi_running _ _ Hinv). }
  assert (stream_of h e = Some stream) as Hso by (apply stream_of_Some; eauto).
  destruct (hi_live _ _ Hinv e stream Hso) as (s & b & Hs & Hb).
  pose proof (hi_barrier _ _ Hinv stream s b Hs Hb) as Hw.
  rewrite (endExecution_live rt stream s b _ Hs Hb Hw).
  open_inv Hinv.
  assert (forall it stream0 s0, it ∈ _emitters s -> streams rt !! stream0 = Some s0 ->
            it ∈ _iterables s0 -> stream0 = stream) as Hmine.
  { intros it stream0 s0 Hit H0 Hit0. destruct (Hemit _ _ Hs) as [_ Hsub].
    apply (Hdisj stream0 stream s0 s it); auto. }
  split; simpl.
  - intros e0 x0 H0 Hended. destruct (decide (e0 = e)) as [->|Hne].
    + rewrite list_lookup_insert_eq in H0 by (by eapply lookup_lt_Some).
      by injection H0 as <-.
    + rewrite list_lookup_insert_ne in H0 by done. by eapply Hrun.
  - intros e0 stream0. rewrite (stream_of_insert h e x e0 He).
    destruct (decide (e0 = e)) as [->|Hne]; simpl; [done|].
    intros H0. destruct (Hlive _ _ H0) as (s0 & b0 & Hs0 & Hb0).
    exists s0, b0. split; [|done]. rewrite list_lookup_alter_ne; [done|].
    intros <-. apply Hne. by apply (Hown e0 e stream).
  - intros e0 e1 stream0. rewrite !(stream_of_insert h e x _ He).
    destruct (decide (e0 = e)) as [->|Hne0], (decide (e1 = e)) as [->|Hne1]; simpl;
      try done.
    apply Hown.
  - intros stream0 s0' b0 H0' Hb0.
    apply lookup_set_barrier_None in H0' as (s0 & H0 & _ & _ & Heq & Hne).
    destruct (decide (stream0 = stream)) as [->|Hn]; [rewrite Heq in Hb0; done|].
    rewrite (Hne Hn) in *. rewrite list_lookup_alter_ne; [by eapply Hbar|].
    intros <-. apply Hn. by apply (Hgate stream0 stream s0 s b).
  - intros stream0 stream1 s0' s1' b0 H0' H1' Hb0 Hb1.
    apply lookup_set_barrier_None in H0' as (s0 & H0 & _ & _ & Heq0 & Hne0).
    apply lookup_set_barrier_None in H1' as (s1 & H1 & _ & _ & Heq1 & Hne1).
    destruct (decide (stream0 = stream)) as [->|Hn0]; [rewrite Heq0 in Hb0; done|].
    destruct (decide (stream1 = stream)) as [->|Hn1]; [rewrite Heq1 in Hb1; done|].
    rewrite (Hne0 Hn0), (Hne1 Hn1) in *. by eapply Hgate.
  - intros stream0 s0' it H0' Hit.
    apply lookup_set_barrier_None in H0' as (s0 & H0 & Hi & _).
    rewrite Hi in Hit. by eapply Hbound.
  - intros stream0 s0' H0'.
    apply lookup_set_barrier_None in H0' as (s0 & H0 & Hi & Hem & _).
    rewrite Hi, Hem. by eapply Hemit.
  - intros stream0 stream1 s0' s1' it H0' H1' Hit0 Hit1.
    apply lookup_set_barrier_None in H0' as (s0 & H0 & Hi0 & _).
    apply lookup_set_barrier_None in H1' as (s1 & H1 & Hi1 & _).
    rewrite Hi0 in Hit0. rewrite Hi1 in Hit1. by eapply Hdisj.
  - intros stream0 it b0 Hin. apply elem_of_resumes in Hin as [Hin|(? & ? & _)]; [|done].
    destruct (Hstart _ _ _ Hin) as (s0 & H0 & Hx & Hnx & Hst & Hnr & Hbm).
    assert (ExecutorResume it ∉ microtasks rt ++ (ExecutorResume <$> _emitters s)) as Hnr'.
    { intros Hr. apply elem_of_resumes in Hr as [?|(it' & [= <-] & Hit')]; [done|].
      pose proof (Hmine it stream0 s0 Hit' H0 Hx) as ->.
      rewrite Hs in H0. injection H0 as <-. done. }
    destruct (decide (stream0 = stream)) as [->|Hn].
    + rewrite Hs in H0. injection H0 as <-.
      rewrite list_lookup_alter_eq, Hs. simpl. eexists. split; [done|]. simpl.
      split; [done|]. split; [done|]. split; [done|]. split; [done|].
      rewrite Hb in Hbm. subst b0. eexists. by rewrite list_lookup_alter_eq, Hw.
    + exists s0. split; [by rewrite list_lookup_alter_ne|].
      split; [done|]. split; [done|]. split; [done|]. split; [done|].
      destruct (_barrier s0); [done|]. destruct Hbm as [w0 Hw0].
      rewrite list_lookup_alter. destruct (decide (b = b0)) as [->|]; [|by exists w0].
      rewrite Hw0. simpl. by eexists.
  - change (NoDup (starting (set_microtasks
              (microtasks rt ++ (ExecutorResume <$> _emitters s)) rt))).
    by rewrite starting_resumes.
  - intros it Hin. apply elem_of_resumes in Hin as [Hin|(it' & [= <-] & Hit')].
    + by apply Hres.
    + destruct (Hemit _ _ Hs) as [_ Hsub]. apply (Hbound stream s it Hs). by apply Hsub.
  - intros stream0 s0' it H0' Hit Hnit.
    apply lookup_set_barrier_None in H0' as (s0 & H0 & Hi & Hem & _).
    rewrite Hi in Hit. rewrite Hem in Hnit.
    destruct (Hatt _ _ _ H0 Hit Hnit) as [b0 Hb0]. exists b0. apply elem_of_app. by left.
  - intros stream0 s0' b0 it H0' Hb0 Hit.
    apply lookup_set_barrier_None in H0' as (s0 & H0 & _ & Hem & Heq & Hne).
    destruct (decide (stream0 = stream)) as [->|Hn]; [rewrite Heq in Hb0; done|].
    rewrite (Hne Hn) in *. destruct (Hread _ _ _ _ H0 Hb0 Hit) as [Hst Hnr].
    split; [done|]. intros Hr.
    apply elem_of_resumes in Hr as [?|(it' & [= <-] & Hit')]; [done|].
    destruct (Hemit _ _ H0) as [_ Hsub0].
    apply Hn. apply (Hmine it stream0 s0 Hit' H0). by apply Hsub0.
  - intros awaited e0 exitCode Hin.
    apply elem_of_resumes in Hin as [Hin|(? & ? & _)]; [|done]. by eapply Hflush.
Qed.

Lemma omap_delete_fresh {A B : Type} (f : A -> option B) (l : list A) (k : nat) x y :
  NoDup (omap f l) -> l !! k = Some x -> f x = Some y -> y ∉ omap f (delete k l).
Proof.
  revert k. induction l as [|a l IH]; intros k Hnd Hk Hf; [done|].
  destruct k as [|k]; simpl in *.
  - injection Hk as ->. rewrite Hf in Hnd. by apply NoDup_cons in Hnd as [? _].
  - destruct (f a) as [b|] eqn:Ea; [|by eapply IH].
    apply NoDup_cons in Hnd as [Hb Hnd]. intros Hin.
    apply elem_of_cons in Hin as [->|Hin]; [|by eapply IH].
    apply Hb. apply list_elem_of_omap. exists x. split; [|done].
    by eapply list_elem_of_lookup_2.
Qed.

(** A task that is not the start of an executor leaves the queue. *)
Lemma heap_inv_dequeue h rt k m :
  heap_inv h rt -> microtasks rt !! k = Some m ->
  (forall stream it b, m ≠ ExecutorStart stream it b) ->
  heap_inv h (dequeue k rt).
Proof.
  intros Hinv Hk Hm. open_inv Hinv.
  assert (forall x, x ∈ delete k (microtasks rt) -> x ∈ microtasks rt) as Hsub.
  { intros x. apply list_elem_of_delete_inv. }
  split; simpl; try done.
  - intros stream it b Hin. apply Hsub in Hin.
    destruct (Hstart _ _ _ Hin) as (s & H0 & Hx & Hnx & Hst & Hnr & Hbm).
    exists s. repeat (split; [done|]). split; [|done]. intros Hr. by apply Hnr, Hsub.
  - by apply omap_delete_NoDup.
  - intros it Hin. by apply Hres, Hsub.
  - intros stream s it H0 Hit Hnit. destruct (Hatt _ _ _ H0 Hit Hnit) as [b Hb].
    exists b. eapply elem_of_delete_other; [done|done|]. intros <-. by eapply Hm.
  - intros stream s b it H0 Hb Hit. destruct (Hread _ _ _ _ H0 Hb Hit) as [Hst Hnr].
    split; [done|]. intros Hr. by apply Hnr, Hsub.
  - intros awaited e exitCode Hin. by eapply Hflush, Hsub.
Qed.

(** The executor of [it] is about to resume, and the iterable
    terminates. *)
Lemma heap_inv_resolve h rt it :
  heap_inv h rt -> ExecutorResume it ∈ microtasks rt ->
  heap_inv h (update_iterable resolve it rt).
Proof.
  intros Hinv Hin. open_inv Hinv.
  assert (forall x, x ≠ it -> state_of (update_iterable resolve it rt) x = state_of rt x)
    as Hstate.
  { intros x Hne. unfold state_of, update_iterable. simpl.
    by rewrite list_lookup_alter_ne. }
  split; simpl; rewrite ?length_alter; try done.
  - intros stream x b Hx.
    destruct (Hstart _ _ _ Hx) as (s & H0 & Hxi & Hnx & Hst & Hnr & Hbm).
    exists s. repeat (split; [done|]). split; [|done].
    rewrite Hstate; [done|]. by intros ->.
  - intros stream s b x H0 Hb Hx. destruct (Hread _ _ _ _ H0 Hb Hx) as [Hst Hnr].
    split; [|done]. rewrite Hstate; [done|]. by intros ->.
Qed.

(** The callback of an end that waits for nothing joins the queue. *)
Lemma heap_inv_queue_end h rt e exitCode :
  heap_inv h rt -> heap_inv h (queueMicrotasks [EndContinuation None e exitCode] rt).
Proof.
  intros Hinv. open_inv Hinv.
  assert (forall m, m ∈ microtasks rt ++ [EndContinuation None e exitCode] ->
                    m ∈ microtasks rt \/ m = EndContinuation None e exitCode) as Hq.
  { intros m Hm. apply elem_of_app in Hm as [?|Hm]; [by left|right].
    by apply list_elem_of_singleton in Hm. }
  split; simpl; try done.
  - intros stream it b Hin. apply Hq in Hin as [Hin|?]; [|done].
    destruct (Hstart _ _ _ Hin) as (s & H0 & Hx & Hnx & Hst & Hnr & Hbm).
    exists s. repeat (split; [done|]). split; [|done].
    intros Hr. apply Hq in Hr as [?|?]; done.
  - unfold starting. simpl. rewrite omap_app. simpl. by rewrite app_nil_r.
  - intros it Hin. apply Hq in Hin as [?|?]; [by apply Hres|done].
  - intros stream s it H0 Hit Hnit. destruct (Hatt _ _ _ H0 Hit Hnit) as [b Hb].
    exists b. apply elem_of_app. by left.
  - intros stream s b it H0 Hb Hit. destruct (Hread _ _ _ _ H0 Hb Hit) as [Hst Hnr].
    split; [done|]. intros Hr. apply Hq in Hr as [?|?]; done.
  - intros awaited e0 exitCode0 Hin. apply Hq in Hin as [Hin|[= -> _ _]]; [|done].
    by eapply Hflush.
Qed.

Lemma lookup_push_emitter (l : list DataStream) stream it stream0 s0' :
  alter (ShellExecutionDataStream.push_emitter it) stream l !! stream0 = Some s0' ->
  exists s0,
    l !! stream0 = Some s0
    /\ _barrier s0' = _barrier s0 /\ _iterables s0' = _iterables s0
    /\ (stream0 = stream -> _emitters s0' = _emitters s0 ++ [it])
    /\ (stream0 ≠ stream -> s0' = s0).
Proof.
  rewrite list_lookup_alter. destruct (decide (stream = stream0)) as [->|Hne].
  - destruct (l !! stream0) as [s0|]; simpl; [|done].
    intros [= <-]. by exists s0.
  - intros H. exists s0'. split; [done|]. split; [done|]. split; [done|].
    split; [by intros ->|done].
Qed.

(** The executor of a queued iterable starts. *)
Lemma executor_start rt k stream it b s :
  microtasks rt !! k = Some (ExecutorStart stream it b) ->
  streams rt !! stream = Some s ->
  run_executor k rt =
  match barriers rt !! b with
  | Some x =>
      if _isOpen x
      then {| iterables := iterables rt; barriers := barriers rt;
              streams := alter (ShellExecutionDataStream.push_emitter it) stream (streams rt);
              microtasks := delete k (microtasks rt) ++ [ExecutorResume it] |}
      else {| iterables := iterables rt;
              barriers := alter (fun x => {| _isOpen := _isOpen x;
                                             waiting := waiting x ++ [it] |})
                                b (barriers rt);
              streams := alter (ShellExecutionDataStream.push_emitter it) stream (streams rt);
              microtasks := delete k (microtasks rt) |}
  | None =>
      {| iterables := iterables rt; barriers := barriers rt;
         streams := alter (ShellExecutionDataStream.push_emitter it) stream (streams rt);
         microtasks := delete k (microtasks rt) |}
  end.
Proof.
  intros Hk Hs. unfold run_executor. rewrite Hk.
  unfold ShellExecutionDataStream.executor, Barrier_await. simpl.
  destruct (barriers rt !! b) as [x|]; [|done]. by destruct (_isOpen x).
Qed.

Lemma heap_inv_start h rt k stream it b :
  heap_inv h rt -> microtasks rt !! k = Some (ExecutorStart stream it b) ->
  heap_inv h (run_executor k rt).
Proof.
  intros Hinv Hk.
  assert (ExecutorStart stream it b ∈ microtasks rt) as Hin
    by (by eapply list_elem_of_lookup_2).
  destruct (hi_starting _ _ Hinv _ _ _ Hin) as (s & Hs & Hit & Hnit & Hst & Hnr & Hbm).
  rewrite (executor_start rt k stream it b s Hk Hs).
  open_inv Hinv.
  assert (forall x, x ∈ delete k (microtasks rt) -> x ∈ microtasks rt) as Hsub.
  { intros x. apply list_elem_of_delete_inv. }
  assert (forall stream0 it0 b0, ExecutorStart stream0 it0 b0 ∈ delete k (microtasks rt) ->
            it0 ≠ it) as Hother.
  { intros stream0 it0 b0 H0 ->.
    apply (omap_delete_fresh
             (fun m => match m with ExecutorStart _ it _ => Some it | _ => None end)
             (microtasks rt) k _ it Honce Hk eq_refl).
    apply list_elem_of_omap. by eexists. }
  assert (forall stream0 s0, streams rt !! stream0 = Some s0 -> it ∈ _iterables s0 ->
            stream0 = stream) as Hmine.
  { intros stream0 s0 H0 Hit0. by apply (Hdisj stream0 stream s0 s it). }
  assert (forall stream0 s0' it0,
            alter (ShellExecutionDataStream.push_emitter it) stream (streams rt) !! stream0
              = Some s0' ->
            it0 ∈ _emitters s0' ->
            (exists s0, streams rt !! stream0 = Some s0 /\ it0 ∈ _emitters s0
                        /\ _barrier s0' = _barrier s0)
            \/ (stream0 = stream /\ it0 = it)) as Hem.
  { intros stream0 s0' it0 H0' Hit0.
    apply lookup_push_emitter in H0' as (s0 & H0 & Hb0 & _ & Heq & Hne).
    destruct (decide (stream0 = stream)) as [->|Hn].
    - rewrite (Heq eq_refl) in Hit0. apply elem_of_app in Hit0 as [?|Hit0].
      + left. by exists s0.
      + right. by apply list_elem_of_singleton in Hit0.
    - rewrite (Hne Hn) in *. left. by exists s0. }
  destruct (_barrier s) as [b'|] eqn:Hb.
  - (* the stream has its barrier: the executor is suspended on it *)
    subst b'. rewrite (Hbar _ _ _ Hs Hb). simpl.
    split; simpl; try done.
    + intros e stream0 He. destruct (Hlive _ _ He) as (s0 & b0 & H0 & Hb0).
      rewrite list_lookup_alter. destruct (decide (stream = stream0)) as [->|Hne].
      * rewrite H0. simpl. by eexists _, b0.
      * by exists s0, b0.
    + intros stream0 s0' b0 H0' Hb0.
      apply lookup_push_emitter in H0' as (s0 & H0 & Hbe & _ & Heq & Hne).
      rewrite Hbe in Hb0. destruct (decide (stream0 = stream)) as [->|Hn].
      * rewrite Hs in H0. injection H0 as <-. rewrite Hb in Hb0. injection Hb0 as <-.
        rewrite list_lookup_alter_eq, (Hbar _ _ _ Hs Hb). simpl. by rewrite (Heq eq_refl).
      * rewrite (Hne Hn). rewrite list_lookup_alter_ne; [by eapply Hbar|].
        intros <-. apply Hn. symmetry. by apply (Hgate stream stream0 s s0 b).
    + intros stream0 stream1 s0' s1' b0 H0' H1' Hb0 Hb1.
      apply lookup_push_emitter in H0' as (s0 & H0 & Hbe0 & _).
      apply lookup_push_emitter in H1' as (s1 & H1 & Hbe1 & _).
      apply (Hgate stream0 stream1 s0 s1 b0); congruence.
    + intros stream0 s0' x H0' Hx.
      apply lookup_push_emitter in H0' as (s0 & H0 & _ & Hi & _).
      rewrite Hi in Hx. by eapply Hbound.
    + intros stream0 s0' H0'. pose proof H0' as H0''.
      apply lookup_push_emitter in H0' as (s0 & H0 & _ & Hi & Heq & Hne).
      destruct (Hemit _ _ H0) as [Hnd Hsub']. rewrite Hi.
      destruct (decide (stream0 = stream)) as [->|Hn].
      * rewrite (Heq eq_refl). rewrite Hs in H0. injection H0 as <-. split.
        -- apply NoDup_app. split; [done|]. split; [|apply NoDup_singleton].
           intros x Hx Hx'. apply list_elem_of_singleton in Hx'. by subst x.
        -- intros x Hx. apply elem_of_app in Hx as [Hx|Hx]; [by apply Hsub'|].
           apply list_elem_of_singleton in Hx. by subst x.
      * by rewrite (Hne Hn).
    + intros stream0 stream1 s0' s1' x H0' H1' Hx0 Hx1.
      apply lookup_push_emitter in H0' as (s0 & H0 & _ & Hi0 & _).
      apply lookup_push_emitter in H1' as (s1 & H1 & _ & Hi1 & _).
      rewrite Hi0 in Hx0. rewrite Hi1 in Hx1. by eapply Hdisj.
    + intros stream0 it0 b0 Hin0. pose proof (Hother _ _ _ Hin0) as Hne0.
      apply Hsub in Hin0.
      destruct (Hstart _ _ _ Hin0) as (s0 & H0 & Hx0 & Hnx0 & Hst0 & Hnr0 & Hbm0).
      assert (exists s0', alter (ShellExecutionDataStream.push_emitter it) stream (streams rt)
                            !! stream0 = Some s0') as [s0' H0'].
      { rewrite list_lookup_alter. destruct (decide _) as [->|]; rewrite ?H0; by eexists. }
      exists s0'. split; [done|]. pose proof H0' as H0''.
      apply lookup_push_emitter in H0' as (s0x & H0x & Hbe & Hi & _).
      rewrite H0 in H0x. injection H0x as <-.
      split; [by rewrite Hi|]. split.
      { intros Hx. destruct (Hem _ _ _ H0'' Hx) as [(s1 & H1 & Hx1 & _)|[_ ->]]; [|done].
        rewrite H0 in H1. by injection H1 as <-. }
      split; [done|]. split; [by intros Hr; apply Hnr0, Hsub|].
      rewrite Hbe. destruct (_barrier s0); [done|]. destruct Hbm0 as [w0 Hw0].
      exists w0. rewrite list_lookup_alter_ne; [done|].
      intros <-. rewrite (Hbar _ _ _ Hs Hb) in Hw0. done.
    + by apply omap_delete_NoDup.
    + intros x Hx. by apply Hres, Hsub.
    + intros stream0 s0' x H0' Hx Hnx. pose proof H0' as H0''.
      apply lookup_push_emitter in H0' as (s0 & H0 & _ & Hi & Heq & Hne).
      rewrite Hi in Hx.
      assert (x ≠ it) as Hxit.
      { intros ->. pose proof (Hmine _ _ H0 Hx) as ->. apply Hnx.
        rewrite (Heq eq_refl). apply elem_of_app. right. by apply list_elem_of_singleton. }
      assert (x ∉ _emitters s0) as Hnx0.
      { intros Hx0. apply Hnx. destruct (decide (stream0 = stream)) as [->|Hn].
        - rewrite (Heq eq_refl). apply elem_of_app. by left.
        - by rewrite (Hne Hn). }
      destruct (Hatt _ _ _ H0 Hx Hnx0) as [b0 Hb0]. exists b0.
      eapply elem_of_delete_other; [done|done|]. by intros [= _ -> _].
    + intros stream0 s0' b0 x H0' Hb0 Hx.
      destruct (Hem _ _ _ H0' Hx) as [(s0 & H0 & Hx0 & Hbe)|[-> ->]].
      * rewrite Hbe in Hb0. destruct (Hread _ _ _ _ H0 Hb0 Hx0) as [Hst0 Hnr0].
        split; [done|]. by intros Hr; apply Hnr0, Hsub.
      * split; [done|]. by intros Hr; apply Hnr, Hsub.
    + intros awaited e exitCode Hin0. by eapply Hflush, Hsub.
  - (* the stream has lost its barrier, which is open: the executor resumes *)
    destruct Hbm as [w Hw]. rewrite Hw. simpl.
    assert (forall m, m ∈ delete k (microtasks rt) ++ [ExecutorResume it] ->
                      m ∈ microtasks rt \/ m = ExecutorResume it) as Hq.
    { intros m Hm. apply elem_of_app in Hm as [?|Hm]; [left; by apply Hsub|right].
      by apply list_elem_of_singleton in Hm. }
    split; simpl; try done.
    + intros e stream0 He. destruct (Hlive _ _ He) as (s0 & b0 & H0 & Hb0).
      rewrite list_lookup_alter. destruct (decide (stream = stream0)) as [->|Hne].
      * rewrite H0. simpl. by eexists _, b0.
      * by exists s0, b0.
    + intros stream0 s0' b0 H0' Hb0.
      apply lookup_push_emitter in H0' as (s0 & H0 & Hbe & _ & Heq & Hne).
      rewrite Hbe in Hb0. destruct (decide (stream0 = stream)) as [->|Hn].
      * rewrite Hs in H0. injection H0 as <-. congruence.
      * rewrite (Hne Hn). by eapply Hbar.
    + intros stream0 stream1 s0' s1' b0 H0' H1' Hb0 Hb1.
      apply lookup_push_emitter in H0' as (s0 & H0 & Hbe0 & _).
      apply lookup_push_emitter in H1' as (s1 & H1 & Hbe1 & _).
      apply (Hgate stream0 stream1 s0 s1 b0); congruence.
    + intros stream0 s0' x H0' Hx.
      apply lookup_push_emitter in H0' as (s0 & H0 & _ & Hi & _).
      rewrite Hi in Hx. by eapply Hbound.
    + intros stream0 s0' H0'.
      apply lookup_push_emitter in H0' as (s0 & H0 & _ & Hi & Heq & Hne).
      destruct (Hemit _ _ H0) as [Hnd Hsub']. rewrite Hi.
      destruct (decide (stream0 = stream)) as [->|Hn].
      * rewrite (Heq eq_refl). rewrite Hs in H0. injection H0 as <-. split.
        -- apply NoDup_app. split; [done|]. split; [|apply NoDup_singleton].
           intros x Hx Hx'. apply list_elem_of_singleton in Hx'. by subst x.
        -- intros x Hx. apply elem_of_app in Hx as [Hx|Hx]; [by apply Hsub'|].
           apply list_elem_of_singleton in Hx. by subst x.
      * by rewrite (Hne Hn).
    + intros stream0 stream1 s0' s1' x H0' H1' Hx0 Hx1.
      apply lookup_push_emitter in H0' as (s0 & H0 & _ & Hi0 & _).
      apply lookup_push_emitter in H1' as (s1 & H1 & _ & Hi1 & _).
      rewrite Hi0 in Hx0. rewrite Hi1 in Hx1. by eapply Hdisj.
    + intros stream0 it0 b0 Hin0. apply elem_of_app in Hin0 as [Hin0|Hin0];
        [|by apply list_elem_of_singleton in Hin0].
      pose proof (Hother _ _ _ Hin0) as Hne0. apply Hsub in Hin0.
      destruct (Hstart _ _ _ Hin0) as (s0 & H0 & Hx0 & Hnx0 & Hst0 & Hnr0 & Hbm0).
      assert (exists s0', alter (ShellExecutionDataStream.push_emitter it) stream (streams rt)
                            !! stream0 = Some s0') as [s0' H0'].
      { rewrite list_lookup_alter. destruct (decide _) as [->|]; rewrite ?H0; by eexists. }
      exists s0'. split; [done|]. pose proof H0' as H0''.
      apply lookup_push_emitter in H0' as (s0x & H0x & Hbe & Hi & _).
      rewrite H0 in H0x. injection H0x as <-.
      split; [by rewrite Hi|]. split.
      { intros Hx. destruct (Hem _ _ _ H0'' Hx) as [(s1 & H1 & Hx1 & _)|[_ ->]]; [|done].
        rewrite H0 in H1. by injection H1 as <-. }
      split; [done|]. split.
      { intros Hr. apply Hq in Hr as [?|[= ->]]; done. }
      by rewrite Hbe.
    + unfold starting. simpl. rewrite omap_app. simpl. rewrite app_nil_r.
      by apply omap_delete_NoDup.
    + intros x Hx. apply Hq in Hx as [?|[= ->]]; [by apply Hres|].
      by eapply state_of_Some_lt.
    + intros stream0 s0' x H0' Hx Hnx. pose proof H0' as H0''.
      apply lookup_push_emitter in H0' as (s0 & H0 & _ & Hi & Heq & Hne).
      rewrite Hi in Hx.
      assert (x ≠ it) as Hxit.
      { intros ->. pose proof (Hmine _ _ H0 Hx) as ->. apply Hnx.
        rewrite (Heq eq_refl). apply elem_of_app. right. by apply list_elem_of_singleton. }
      assert (x ∉ _emitters s0) as Hnx0.
      { intros Hx0. apply Hnx. destruct (decide (stream0 = stream)) as [->|Hn].
        - rewrite (Heq eq_refl). apply elem_of_app. by left.
        - by rewrite (Hne Hn). }
      destruct (Hatt _ _ _ H0 Hx Hnx0) as [b0 Hb0]. exists b0.
      apply elem_of_app. left.
      eapply elem_of_delete_other; [done|done|]. by intros [= _ -> _].
    + intros stream0 s0' b0 x H0' Hb0 Hx.
      destruct (Hem _ _ _ H0' Hx) as [(s0 & H0 & Hx0 & Hbe)|[-> ->]].
      * rewrite Hbe in Hb0. destruct (Hread _ _ _ _ H0 Hb0 Hx0) as [Hst0 Hnr0].
        split; [done|]. intros Hr. apply Hq in Hr as [?|[= ->]]; [done|].
        destruct (Hemit _ _ H0) as [_ Hsub0].
        pose proof (Hmine _ _ H0 (Hsub0 _ Hx0)) as ->.
        rewrite Hs in H0. injection H0 as <-. congruence.
      * apply lookup_push_emitter in H0' as (s0 & H0 & Hbe & _).
        rewrite Hs in H0. injection H0 as <-. congruence.
    + intros awaited e exitCode Hin0. apply Hq in Hin0 as [?|?]; [|done].
      by eapply Hflush.
Qed.

(** A queued executor runs. *)
Lemma heap_inv_run_executor h rt k :
  heap_inv h rt -> heap_inv h (run_executor k rt).
Proof.
  intros Hinv. destruct (microtasks rt !! k) as [[stream it b|it|awaited e exitCode]|] eqn:Hk.
  - by eapply heap_inv_start.
  - unfold run_executor. rewrite Hk.
    change (update_iterable resolve it (dequeue k rt))
      with (dequeue k (update_iterable resolve it rt)).
    eapply heap_inv_dequeue; [|exact Hk|done].
    apply heap_inv_resolve; [done|]. by eapply list_elem_of_lookup_2.
  - unfold run_executor. by rewrite Hk.
  - unfold run_executor. by rewrite Hk.
Qed.

(** ** Reading after the end of an execution *)

Lemma endExecution_torn_down cl e rt :
  torn_down (InternalTerminalShellExecution.endExecution cl e rt).1.
Proof. by split. Qed.

Lemma call_torn_down c e rt :
  torn_down e -> torn_down (call c (e, rt)).1.
Proof.
  intros [He Hd]. destruct c; simpl; try by split.
  unfold InternalTerminalShellExecution.read,
    InternalTerminalShellExecution._createDataStream.
  rewrite Hd, He. by split.
Qed.

Lemma calls_cons c cs st : calls (c :: cs) st = calls cs (call c st).
Proof. reflexivity. Qed.

Lemma calls_app cs1 cs2 st : calls (cs1 ++ cs2) st = calls cs2 (calls cs1 st).
Proof. unfold calls. apply foldl_app. Qed.

Lemma calls_torn_down cs : forall e rt,
  torn_down e -> torn_down (calls cs (e, rt)).1.
Proof.
  induction cs as [|c cs IH]; intros e rt H; [done|].
  rewrite calls_cons.
  destruct (call c (e, rt)) as [e' rt'] eqn:E.
  apply IH. change e' with (e', rt').1. rewrite <- E. by apply call_torn_down.
Qed.

(** C7: once [endExecution] has run on an execution, whatever is called
    on it afterwards, [read()] returns the static empty iterable and
    leaves the execution as it is; that iterable holds no chunk and its
    first [next()] reports the end of the sequence. *)
Theorem read_after_endExecution_is_empty
    (e : InternalTerminalShellExecution.t) (rt : Runtime)
    (commandLine : option TerminalShellExecutionCommandLine)
    (later : list ExecutionCall) :
  let st := calls later (InternalTerminalShellExecution.endExecution commandLine e rt) in
  InternalTerminalShellExecution.read st.1 st.2 = (StaticEmpty, st.1, st.2)
  /\ deref st.2 StaticEmpty = Some AsyncIterableObject_EMPTY
  /\ _results AsyncIterableObject_EMPTY = []
  /\ iterator_next AsyncIterableObject_EMPTY 0 = Done.
Proof.
  intros st. split; [|done].
  destruct (InternalTerminalShellExecution.endExecution commandLine e rt) as [e0 rt0] eqn:E0.
  assert (torn_down st.1) as [He Hd].
  { subst st. apply calls_torn_down. change e0 with (e0, rt0).1. rewrite <- E0.
    apply endExecution_torn_down. }
  unfold InternalTerminalShellExecution.read,
    InternalTerminalShellExecution._createDataStream.
  by rewrite Hd, He.
Qed.

(** ** One execution and the runtime it alone uses *)

Lemma heap_inv_new commandLine cwd :
  heap_inv [InternalTerminalShellExecution.new commandLine cwd] Runtime_init.
Proof. apply (heap_inv_alloc [] _ commandLine cwd heap_inv_init). Qed.

Lemma heap_inv_call c e rt :
  heap_inv [e] rt -> heap_inv [(call c (e, rt)).1] (call c (e, rt)).2.
Proof.
  intros Hinv. destruct c as [|data|cl| |k|it]; simpl.
  - pose proof (heap_inv_read [e] rt 0 e Hinv eq_refl) as H.
    by destruct (InternalTerminalShellExecution.read e rt) as [[r e'] rt'].
  - by apply heap_inv_emitData.
  - apply (heap_inv_endExecution [e] rt 0 e cl Hinv eq_refl).
  - done.
  - by apply heap_inv_run_executor.
  - by apply heap_inv_iterate.
Qed.

Lemma heap_inv_calls cs : forall e rt,
  heap_inv [e] rt -> heap_inv [(calls cs (e, rt)).1] (calls cs (e, rt)).2.
Proof.
  induction cs as [|c cs IH]; intros e rt H; [done|].
  rewrite calls_cons. pose proof (heap_inv_call c e rt H) as H'.
  destruct (call c (e, rt)) as [e' rt']. by apply IH.
Qed.

Lemma produced_app it cs1 : forall cs2 st,
  produced it (cs1 ++ cs2) st = produced it cs1 st ++ produced it cs2 (calls cs1 st).
Proof.
  induction cs1 as [|c cs1 IH]; intros cs2 st; [done|].
  simpl. rewrite IH. by rewrite <- app_assoc.
Qed.

(** ** What the consumer of an iterable is given *)

Lemma reader_at_received rt it results p st :
  reader_at rt it results p st -> received_by rt it = Some results.
Proof. intros [H _]. unfold received_by, deref. by rewrite H. Qed.

Lemma reader_at_unread rt it results p st :
  reader_at rt it results p st -> unread rt it = drop p results.
Proof. intros [H _]. unfold unread. by rewrite H. Qed.

(** One [next()] of the consumer of [it]. *)
Lemma iterate_reader rt it results p st :
  reader_at rt it results p st ->
  match results !! p with
  | Some chunk =>
      (iterate it rt).1 = Yield chunk /\ reader_at (iterate it rt).2 it results (S p) st
  | None =>
      (iterate it rt).1 = match st with DoneOK => Done | Initial => Suspended end
      /\ (iterate it rt).2 = rt
  end.
Proof.
  intros [H Hp]. unfold iterate, iterator_next. rewrite H. simpl.
  destruct (results !! p) as [chunk|] eqn:Hc; simpl.
  - split; [done|]. split.
    + simpl. by rewrite list_lookup_insert_eq by (by eapply lookup_lt_Some).
    + apply lookup_lt_Some in Hc. lia.
  - by destruct st.
Qed.

Lemma iterate_other rt it it' results p st :
  it' ≠ it -> reader_at rt it results p st ->
  reader_at (iterate it' rt).2 it results p st.
Proof.
  intros Hne [H Hp]. split; [|done]. unfold iterate.
  destruct (iterables rt !! it') as [r|]; [|done].
  destruct (iterator_next _ _); try done. simpl. by rewrite list_lookup_insert_ne.
Qed.

(** What [next()] gives the consumer of [it], and where it leaves it. *)
Lemma next_reader e rt it it' results p st :
  reader_at rt it results p st ->
  exists p',
    reader_at (iterate it' rt).2 it results p' st
    /\ take p results ++ produced it [CallNext it'] (e, rt) = take p' results.
Proof.
  intros Hr. simpl. rewrite app_nil_r. destruct (decide (it' = it)) as [->|Hne].
  - pose proof (iterate_reader rt it results p st Hr) as H.
    destruct (results !! p) as [chunk|] eqn:Hc.
    + destruct H as [-> H]. exists (S p). split; [done|].
      by rewrite (take_S_r _ _ _ Hc).
    + destruct H as [-> ->]. exists p. split; [done|].
      destruct st; by rewrite app_nil_r.
  - exists p. split; [by apply iterate_other|]. by rewrite app_nil_r.
Qed.

(** Driving the iterator until it gives no chunk. *)
Lemma consume_reader n : forall rt it results p st,
  reader_at rt it results p st -> n = length (drop p results) ->
  consume (S n) it rt
  = (Yield <$> drop p results) ++ [match st with DoneOK => Done | Initial => Suspended end].
Proof.
  induction n as [|n IH]; intros rt it results p st Hr Hn.
  - pose proof (iterate_reader rt it results p st Hr) as H.
    rewrite length_drop in Hn.
    assert (results !! p = None) as Hnone by (apply lookup_ge_None_2; lia).
    rewrite Hnone in H. destruct H as [H1 H2]. simpl. rewrite H1.
    rewrite drop_ge by lia. done.
  - pose proof (iterate_reader rt it results p st Hr) as H.
    rewrite length_drop in Hn.
    assert (is_Some (results !! p)) as [chunk Hc] by (apply lookup_lt_is_Some; lia).
    rewrite Hc in H. destruct H as [H1 H2].
    change (consume (S (S n)) it rt)
      with ((iterate it rt).1 :: consume (S n) it (iterate it rt).2).
    rewrite H1. rewrite (IH _ _ _ _ _ H2) by (rewrite length_drop; lia).
    by rewrite (drop_S _ _ _ Hc).
Qed.

(** *** What the calls do to the iterables *)

Lemma createIterable_shape stream rt :
  (ShellExecutionDataStream.createIterable stream rt).1 = length (iterables rt)
  /\ iterables (ShellExecutionDataStream.createIterable stream rt).2
     = iterables rt ++ [{| iterable := {| _results := []; _state := Initial |};
                           position := 0 |}]
  /\ exists b,
       microtasks (ShellExecutionDataStream.createIterable stream rt).2
       = microtasks rt ++ [ExecutorStart stream (length (iterables rt)) b].
Proof.
  unfold ShellExecutionDataStream.createIterable.
  destruct (streams rt !! stream ≫= _barrier) as [b|]; simpl; by eauto.
Qed.

Lemma executor_iterables stream it b rt :
  iterables (ShellExecutionDataStream.executor stream it b rt) = iterables rt.
Proof.
  unfold ShellExecutionDataStream.executor, Barrier_await. simpl.
  destruct (barriers rt !! b) as [x|]; [|done]. by destruct (_isOpen x).
Qed.

(** A microtask leaves an iterable as it is, or terminates it when it is
    the resumption of its executor. *)
Lemma run_executor_reader k rt it results p st :
  reader_at rt it results p st ->
  exists st',
    reader_at (run_executor k rt) it results p st'
    /\ (st' = st \/ microtasks rt !! k = Some (ExecutorResume it)).
Proof.
  intros [H Hp]. unfold run_executor.
  destruct (microtasks rt !! k) as [[stream it' b|it'|awaited e exitCode]|] eqn:Hk.
  - exists st. split; [|by left]. split; [|done]. by rewrite executor_iterables.
  - destruct (decide (it' = it)) as [->|Hne].
    + exists DoneOK. split; [|by right]. split; [|done].
      unfold update_iterable. simpl. by rewrite list_lookup_alter_eq, H.
    + exists st. split; [|by left]. split; [|done].
      unfold update_iterable. simpl. by rewrite list_lookup_alter_ne.
  - exists st. by split; [|left].
  - exists st. by split; [|left].
Qed.

Lemma endExecution_iterables stream rt :
  iterables (ShellExecutionDataStream.endExecution stream rt) = iterables rt.
Proof.
  unfold ShellExecutionDataStream.endExecution, Barrier_open.
  destruct (streams rt !! stream ≫= _barrier) as [b|]; [|done]. simpl.
  by destruct (barriers rt !! b).
Qed.

(** *** After the end of the execution *)

Lemma frozen_call c e rt it results p st :
  torn_down e -> reader_at rt it results p st ->
  exists p' st',
    reader_at (call c (e, rt)).2 it results p' st'
    /\ take p results ++ produced it [c] (e, rt) = take p' results.
Proof.
  intros [He Hd] Hr. destruct c as [|data|cl| |k|it'].
  - simpl. unfold InternalTerminalShellExecution.read,
      InternalTerminalShellExecution._createDataStream. rewrite Hd, He. simpl.
    exists p, st. by rewrite app_nil_r.
  - simpl. unfold InternalTerminalShellExecution.emitData. rewrite Hd.
    exists p, st. by rewrite app_nil_r.
  - simpl. rewrite Hd. exists p, st. by rewrite app_nil_r.
  - simpl. exists p, st. by rewrite app_nil_r.
  - destruct (run_executor_reader k rt it results p st Hr) as (st' & Hr' & _).
    simpl. exists p, st'. by rewrite app_nil_r.
  - destruct (next_reader e rt it it' results p st Hr) as (p' & Hr' & Hp').
    by exists p', st.
Qed.

Lemma frozen_calls it results cs : forall e rt p st,
  torn_down e -> reader_at rt it results p st ->
  exists p' st',
    reader_at (calls cs (e, rt)).2 it results p' st'
    /\ take p results ++ produced it cs (e, rt) = take p' results.
Proof.
  induction cs as [|c cs IH]; intros e rt p st Ht Hr.
  - exists p, st. by rewrite app_nil_r.
  - destruct (frozen_call c e rt it results p st Ht Hr) as (p1 & st1 & Hr1 & Hp1).
    pose proof (call_torn_down c e rt Ht) as Ht1.
    rewrite calls_cons. change (c :: cs) with ([c] ++ cs). rewrite produced_app.
    change (calls [c] (e, rt)) with (call c (e, rt)).
    destruct (call c (e, rt)) as [e1 rt1]. simpl in Ht1, Hr1.
    destruct (IH e1 rt1 p1 st1 Ht1 Hr1) as (p2 & st2 & Hr2 & Hp2).
    exists p2, st2. split; [done|]. by rewrite app_assoc, Hp1.
Qed.

(** *** While the reader is registered *)

Lemma Barrier_await_frame b it rt :
  iterables (Barrier_await b it rt) = iterables rt
  /\ streams (Barrier_await b it rt) = streams rt.
Proof.
  unfold Barrier_await. destruct (barriers rt !! b) as [x|]; [|done].
  by destruct (_isOpen x).
Qed.

(** A microtask leaves the iterables of a stream as they are, and
    removes no emitter. *)
Lemma run_executor_streams k rt stream s :
  streams rt !! stream = Some s ->
  exists s',
    streams (run_executor k rt) !! stream = Some s'
    /\ _iterables s' = _iterables s
    /\ (forall x, x ∈ _emitters s -> x ∈ _emitters s').
Proof.
  intros Hs. unfold run_executor.
  destruct (microtasks rt !! k) as [[stream0 it b|it|awaited e exitCode]|] eqn:Hk;
    try by (exists s).
  unfold ShellExecutionDataStream.executor.
  destruct (Barrier_await_frame b it
              (update_stream (ShellExecutionDataStream.push_emitter it) stream0 (dequeue k rt)))
    as [_ ->].
  simpl. destruct (decide (stream0 = stream)) as [->|Hne].
  - rewrite list_lookup_alter_eq, Hs. simpl. eexists. split; [done|]. split; [done|].
    simpl. intros x Hx. apply elem_of_app. by left.
  - rewrite list_lookup_alter_ne by done. by exists s.
Qed.

Lemma registered_call c e rt it results p :
  heap_inv [e] rt -> registered_with e rt it -> reader_at rt it results p Initial ->
  exists p',
    reader_at (call c (e, rt)).2 it (results ++ pushed [c]) p' Initial
    /\ take p results ++ produced it [c] (e, rt) = take p' (results ++ pushed [c])
    /\ match c with
       | CallEndExecution _ => True
       | _ => registered_with (call c (e, rt)).1 (call c (e, rt)).2 it
       end.
Proof.
  intros H (stream & s & Hds & Hs & Hit) Hr.
  pose proof H as H0. open_inv H0.
  assert (stream_of [e] 0 = Some stream) as Hso by (unfold stream_of; simpl; done).
  destruct (Hlive 0%nat stream Hso) as (s' & b & Hs' & Hb).
  rewrite Hs in Hs'. injection Hs' as <-.
  pose proof Hr as [Hlk Hp].
  assert (it < length (iterables rt))%nat as Hlt by (by eapply lookup_lt_Some).
  destruct c as [|data|cl| |k|it'].
  - exists p. simpl. unfold InternalTerminalShellExecution.read,
      InternalTerminalShellExecution._createDataStream. rewrite Hds.
    rewrite (createIterable_live rt stream s b Hs Hb). simpl.
    rewrite !app_nil_r. split; [|split; [done|]].
    + split; [|done]. simpl. by rewrite lookup_app_l.
    + exists stream, (ShellExecutionDataStream.push_iterable (length (iterables rt)) s).
      split; [done|]. split; [|done]. simpl. by rewrite list_lookup_alter_eq, Hs.
  - exists p. simpl. unfold InternalTerminalShellExecution.emitData. rewrite Hds.
    destruct (emitData_frame data stream rt) as (_ & Hst & _).
    rewrite app_nil_r. split; [|split].
    + split; [|rewrite length_app; lia].
      rewrite emitData_lookup by (rewrite Hs; simpl; apply (Hemit stream s Hs)).
      rewrite Hs. simpl. rewrite decide_True by done. by rewrite Hlk.
    + by rewrite take_app_le.
    + exists stream, s. by rewrite Hst.
  - exists p. simpl. rewrite Hds.
    rewrite (endExecution_live rt stream s b _ Hs Hb (Hbar stream s b Hs Hb)). simpl.
    by rewrite !app_nil_r.
  - exists p. simpl. rewrite !app_nil_r. split; [done|]. split; [done|].
    by exists stream, s.
  - destruct (run_executor_reader k rt it results p Initial Hr) as (st' & Hr' & [->|Hk]).
    + exists p. simpl. rewrite !app_nil_r. split; [done|]. split; [done|].
      destruct (run_executor_streams k rt stream s Hs) as (s' & Hs' & _ & Hem).
      exists stream, s'. auto.
    + destruct (Hread stream s b it Hs Hb Hit) as [_ Hno].
      destruct Hno. by eapply list_elem_of_lookup_2.
  - destruct (next_reader e rt it it' results p Initial Hr) as (p' & Hr' & Hp').
    exists p'. simpl pushed. rewrite app_nil_r. split; [done|]. split; [done|].
    destruct (iterate_frame it' rt) as (_ & Hst & _).
    exists stream, s. simpl. by rewrite Hst.
Qed.

Lemma pushed_cons c cs :
  (forall cl, c ≠ CallEndExecution cl) -> pushed (c :: cs) = pushed [c] ++ pushed cs.
Proof. intros Hc. destruct c; try done. by destruct (Hc commandLine). Qed.

Lemma reader_calls it cs : forall e rt results p,
  heap_inv [e] rt -> registered_with e rt it -> reader_at rt it results p Initial ->
  exists p' st',
    reader_at (calls cs (e, rt)).2 it (results ++ pushed cs) p' st'
    /\ take p results ++ produced it cs (e, rt) = take p' (results ++ pushed cs).
Proof.
  induction cs as [|c cs IH]; intros e rt results p H Hreg Hr.
  - exists p, Initial. simpl. by rewrite !app_nil_r.
  - destruct (registered_call c e rt it results p H Hreg Hr) as (p1 & Hr1 & Hp1 & Hreg1).
    pose proof (heap_inv_call c e rt H) as H1.
    rewrite calls_cons. change (c :: cs) with ([c] ++ cs) at 2. rewrite produced_app.
    change (calls [c] (e, rt)) with (call c (e, rt)).
    assert ((exists cl, c = CallEndExecution cl) \/ forall cl, c ≠ CallEndExecution cl)
      as [[cl ->]|Hc'] by (destruct c; eauto).
    + pose proof (endExecution_torn_down cl e rt) as Ht.
      change (pushed (CallEndExecution cl :: cs)) with (@nil JSString).
      change (pushed [CallEndExecution cl]) with (@nil JSString) in Hr1, Hp1.
      simpl call in *.
      destruct (InternalTerminalShellExecution.endExecution cl e rt) as [e1 rt1].
      simpl in Ht, Hr1.
      destruct (frozen_calls it (results ++ []) cs e1 rt1 p1 Initial Ht Hr1)
        as (p2 & st2 & Hr2 & Hp2).
      exists p2, st2. split; [done|]. by rewrite app_assoc, Hp1.
    + rewrite (pushed_cons c cs Hc').
      assert (registered_with (call c (e, rt)).1 (call c (e, rt)).2 it) as Hreg1'.
      { destruct c; try done. by destruct (Hc' commandLine). }
      destruct (call c (e, rt)) as [e1 rt1]. simpl in H1, Hr1, Hreg1'.
      destruct (IH e1 rt1 (results ++ pushed [c]) p1 H1 Hreg1' Hr1)
        as (p2 & st2 & Hr2 & Hp2).
      exists p2, st2. rewrite !app_assoc in *. split; [done|]. by rewrite Hp1.
Qed.

(** *** Between [read()] and the start of the executor *)

Lemma starting_queue rt q :
  starting (set_microtasks q rt)
  = omap (fun m => match m with ExecutorStart _ it _ => Some it | _ => None end) q.
Proof. done. Qed.

Lemma omap_resumes (q : list Microtask) w :
  omap (fun m => match m with ExecutorStart _ it _ => Some it | _ => None end)
       (q ++ (ExecutorResume <$> w))
  = omap (fun m => match m with ExecutorStart _ it _ => Some it | _ => None end) q.
Proof.
  rewrite omap_app.
  assert (omap (fun m => match m with ExecutorStart _ it _ => Some it | _ => None end)
               (ExecutorResume <$> w) = []) as ->
    by (induction w as [|x w IH]; [done|by simpl]).
  by rewrite app_nil_r.
Qed.

Lemma endExecution_starting stream rt :
  starting (ShellExecutionDataStream.endExecution stream rt) = starting rt.
Proof.
  unfold ShellExecutionDataStream.endExecution, Barrier_open.
  destruct (streams rt !! stream ≫= _barrier) as [b|]; [|done].
  destruct (barriers rt !! b) as [x|]; [|done].
  unfold starting. simpl. apply omap_resumes.
Qed.

Lemma Barrier_await_starting b it rt :
  starting (Barrier_await b it rt) = starting rt.
Proof.
  unfold Barrier_await. destruct (barriers rt !! b) as [x|]; [|done].
  destruct (_isOpen x); [|done].
  unfold starting. simpl. apply (omap_resumes _ [it]).
Qed.

Lemma run_executor_starting k rt it :
  it ∈ starting (run_executor k rt) -> it ∈ starting rt.
Proof.
  assert (it ∈ starting (dequeue k rt) -> it ∈ starting rt) as Hdel.
  { unfold starting. simpl. rewrite !list_elem_of_omap.
    intros (m & Hm & Hf). exists m. split; [|done]. by eapply list_elem_of_delete_inv. }
  unfold run_executor.
  destruct (microtasks rt !! k) as [[stream0 it0 b|it0|awaited e exitCode]|] eqn:Hk; try done.
  unfold ShellExecutionDataStream.executor. by rewrite Barrier_await_starting.
Qed.

Lemma run_executor_length k rt :
  length (iterables (run_executor k rt)) = length (iterables rt).
Proof.
  unfold run_executor.
  destruct (microtasks rt !! k) as [[stream0 it0 b|it0|awaited e exitCode]|] eqn:Hk; try done.
  - by rewrite executor_iterables.
  - unfold update_iterable. simpl. by rewrite length_alter.
Qed.

Lemma createIterable_starting stream rt :
  starting (ShellExecutionDataStream.createIterable stream rt).2
  = starting rt ++ [length (iterables rt)].
Proof.
  destruct (createIterable_shape stream rt) as (_ & _ & b & Hq).
  unfold starting. rewrite Hq, omap_app.
  unfold ShellExecutionDataStream.createIterable.
  by destruct (streams rt !! stream ≫= _barrier).
Qed.

Lemma read_frame e rt it :
  (it < length (iterables rt))%nat ->
  iterables (InternalTerminalShellExecution.read e rt).2 !! it = iterables rt !! it
  /\ (it ∈ starting (InternalTerminalShellExecution.read e rt).2 -> it ∈ starting rt)
  /\ InternalTerminalShellExecution._ended (InternalTerminalShellExecution.read e rt).1.2
     = InternalTerminalShellExecution._ended e.
Proof.
  intros Hlt. unfold InternalTerminalShellExecution.read,
    InternalTerminalShellExecution._createDataStream.
  assert (forall stream rt0,
    iterables rt0 = iterables rt -> starting rt0 = starting rt ->
    iterables (ShellExecutionDataStream.createIterable stream rt0).2 !! it = iterables rt !! it
    /\ (it ∈ starting (ShellExecutionDataStream.createIterable stream rt0).2
        -> it ∈ starting rt)) as Hc.
  { intros stream rt0 Hi Hq. rewrite createIterable_starting, Hi, Hq.
    destruct (createIterable_shape stream rt0) as (_ & Hi' & _). rewrite Hi', Hi.
    split; [by rewrite lookup_app_l|].
    rewrite elem_of_app, list_elem_of_singleton. intros [Hx|Hx]; [done|lia]. }
  destruct (InternalTerminalShellExecution._dataStream e) as [stream|].
  - destruct (Hc stream rt eq_refl eq_refl) as [H1 H2].
    destruct (ShellExecutionDataStream.createIterable stream rt) as [id rt']. by simpl in *.
  - destruct (InternalTerminalShellExecution._ended e) eqn:He; [by simpl|].
    destruct (Hc (length (streams rt))
                 (set_streams (streams rt ++ [ShellExecutionDataStream.new]) rt)
                 eq_refl eq_refl) as [H1 H2].
    destruct (ShellExecutionDataStream.createIterable _ _) as [id rt']. by simpl in *.
Qed.

(** An iterable of the store whose executor is not queued to start never
    has it queued again. *)
Lemma starting_gone c e rt it :
  (it < length (iterables rt))%nat -> it ∉ starting rt ->
  (it ∉ starting (call c (e, rt)).2)
  /\ (it < length (iterables (call c (e, rt)).2))%nat.
Proof.
  intros Hlt Hno. destruct c as [|data|cl| |k|it']; simpl.
  - destruct (read_frame e rt it Hlt) as (Hi & Hq & _).
    destruct (InternalTerminalShellExecution.read e rt) as [[r e'] rt']. simpl in *.
    split; [tauto|]. apply lookup_lt_is_Some. rewrite Hi. by apply lookup_lt_is_Some.
  - unfold InternalTerminalShellExecution.emitData.
    destruct (InternalTerminalShellExecution._dataStream e) as [stream|]; [|done].
    destruct (emitData_frame data stream rt) as (_ & _ & Hq & Hl & _).
    unfold starting. rewrite Hq, Hl. done.
  - destruct (InternalTerminalShellExecution._dataStream e) as [stream|]; [|done].
    by rewrite endExecution_starting, endExecution_iterables.
  - done.
  - rewrite run_executor_length. split; [|done].
    intros Hin. by apply Hno, (run_executor_starting k).
  - destruct (iterate_frame it' rt) as (_ & _ & Hq & Hl & _).
    unfold starting. rewrite Hq, Hl. done.
Qed.

Lemma starting_gone_calls it cs : forall e rt,
  (it < length (iterables rt))%nat -> it ∉ starting rt ->
  it ∉ starting (calls cs (e, rt)).2.
Proof.
  induction cs as [|c cs IH]; intros e rt Hlt Hno; [done|].
  rewrite calls_cons. destruct (starting_gone c e rt it Hlt Hno) as [H1 H2].
  destruct (call c (e, rt)) as [e1 rt1]. by apply IH.
Qed.

(** While the executor of [it] is queued to start, the iterable stays
    empty, its consumer is given nothing, and it stays attached to the
    stream of a running execution. *)
Lemma pending_call c e rt it :
  heap_inv [e] rt -> it ∈ starting rt -> reader_at rt it [] 0 Initial ->
  (InternalTerminalShellExecution._ended e = false -> attached_to e rt it) ->
  reader_at (call c (e, rt)).2 it [] 0 Initial
  /\ produced it [c] (e, rt) = []
  /\ (InternalTerminalShellExecution._ended (call c (e, rt)).1 = false ->
      attached_to (call c (e, rt)).1 (call c (e, rt)).2 it).
Proof.
  intros H Hq Hr Hatt0. pose proof H as H0. open_inv H0.
  apply elem_of_starting in Hq as (stream0 & b0 & Hq).
  destruct (Hstart stream0 it b0 Hq) as (s0 & Hs0 & Hit0 & Hno0 & _ & Hres0 & _).
  pose proof Hr as [Hlk _].
  assert (it < length (iterables rt))%nat as Hlt by (by eapply lookup_lt_Some).
  destruct c as [|data|cl| |k|it'].
  - destruct (read_frame e rt it Hlt) as (Hi & _ & He).
    simpl. unfold reader_at. split; [|split; [done|]].
    + destruct (InternalTerminalShellExecution.read e rt) as [[r e'] rt']. simpl in *.
      by rewrite Hi.
    + intros He'.
      assert (InternalTerminalShellExecution._ended e = false) as Hne.
      { destruct (InternalTerminalShellExecution.read e rt) as [[r e'] rt']. simpl in *.
        congruence. }
      destruct (Hatt0 Hne) as (stream & s & Hds & Hs & Hit).
      assert (stream_of [e] 0 = Some stream) as Hso by (unfold stream_of; simpl; done).
      destruct (Hlive 0%nat stream Hso) as (s' & b & Hs' & Hb).
      rewrite Hs in Hs'. injection Hs' as <-.
      unfold InternalTerminalShellExecution.read,
        InternalTerminalShellExecution._createDataStream. rewrite Hds.
      rewrite (createIterable_live rt stream s b Hs Hb). simpl.
      exists stream, (ShellExecutionDataStream.push_iterable (length (iterables rt)) s).
      split; [done|]. split; [by simpl; rewrite list_lookup_alter_eq, Hs|].
      simpl. apply elem_of_app. by left.
  - simpl. unfold InternalTerminalShellExecution.emitData.
    destruct (InternalTerminalShellExecution._dataStream e) as [stream|] eqn:Hds; [|done].
    destruct (emitData_frame data stream rt) as (_ & Hst & _).
    split; [|split; [done|]].
    + split; [|done].
      assert (stream_of [e] 0 = Some stream) as Hso by (unfold stream_of; simpl; done).
      destruct (Hlive 0%nat stream Hso) as (s & b & Hs & Hb).
      rewrite emitData_lookup by (rewrite Hs; simpl; apply (Hemit stream s Hs)).
      rewrite Hs. simpl. rewrite decide_False; [done|].
      intros Hin. destruct (Hemit stream s Hs) as [_ Hsub].
      pose proof (Hdisj stream0 stream s0 s it Hs0 Hs Hit0 (Hsub it Hin)) as ->.
      rewrite Hs in Hs0. injection Hs0 as ->. done.
    + intros He. destruct (Hatt0 He) as (stream' & s & Hds' & Hs & Hit).
      exists stream', s. by rewrite Hst.
  - simpl. split; [|split; [done|done]].
    destruct (InternalTerminalShellExecution._dataStream e) as [stream|]; [|done].
    split; [|done]. by rewrite endExecution_iterables.
  - simpl. done.
  - destruct (run_executor_reader k rt it [] 0%nat Initial Hr) as (st' & Hr' & [->|Hk]).
    + simpl. split; [done|]. split; [done|].
      intros He. destruct (Hatt0 He) as (stream & s & Hds & Hs & Hit).
      destruct (run_executor_streams k rt stream s Hs) as (s' & Hs' & Hi' & _).
      exists stream, s'. by rewrite Hi'.
    + destruct Hres0. by eapply list_elem_of_lookup_2.
  - assert (iterables (iterate it' rt).2 !! it = iterables rt !! it
            /\ produced it [CallNext it'] (e, rt) = []) as [Hi Hp].
    { destruct (decide (it' = it)) as [->|Hne].
      - pose proof (iterate_reader rt it [] 0%nat Initial Hr) as Hn. simpl in Hn.
        destruct Hn as [Hn1 Hn2]. rewrite Hn2. split; [done|].
        simpl. rewrite decide_True by done. by rewrite Hn1.
      - destruct (iterate_other rt it it' [] 0%nat Initial Hne Hr) as [Hi _].
        split; [by rewrite Hi|]. simpl. by rewrite decide_False. }
    simpl call. simpl fst. simpl snd. split; [|split; [done|]].
    + split; [by rewrite Hi|done].
    + intros He. destruct (Hatt0 He) as (stream & s & Hds & Hs & Hit).
      destruct (iterate_frame it' rt) as (_ & Hst & _).
      exists stream, s. by rewrite Hst.
Qed.

Lemma pending_calls it cs : forall e rt,
  heap_inv [e] rt -> it ∈ starting rt -> reader_at rt it [] 0 Initial ->
  (InternalTerminalShellExecution._ended e = false -> attached_to e rt it) ->
  it ∈ starting (calls cs (e, rt)).2 ->
  reader_at (calls cs (e, rt)).2 it [] 0 Initial
  /\ produced it cs (e, rt) = []
  /\ (InternalTerminalShellExecution._ended (calls cs (e, rt)).1 = false ->
      attached_to (calls cs (e, rt)).1 (calls cs (e, rt)).2 it).
Proof.
  induction cs as [|c cs IH]; intros e rt H Hq Hr Hatt Hfin; [done|].
  destruct (pending_call c e rt it H Hq Hr Hatt) as (Hr1 & Hp1 & Hatt1).
  pose proof (heap_inv_call c e rt H) as H1.
  rewrite calls_cons in *. change (c :: cs) with ([c] ++ cs). rewrite produced_app, Hp1.
  change (calls [c] (e, rt)) with (call c (e, rt)).
  destruct (call c (e, rt)) as [e1 rt1]. simpl in *.
  destruct (decide (it ∈ starting rt1)) as [Hq1|Hq1].
  - by apply IH.
  - destruct (starting_gone_calls it cs e1 rt1); [|done|done].
    destruct Hr1 as [Hlk _]. by eapply lookup_lt_Some.
Qed.

(** *** The start of the executor registers the reader *)

Lemma start_registers e rt k stream it b results p st :
  heap_inv [e] rt -> microtasks rt !! k = Some (ExecutorStart stream it b) ->
  reader_at rt it results p st ->
  (InternalTerminalShellExecution._ended e = false -> attached_to e rt it) ->
  reader_at (run_executor k rt) it results p st
  /\ (InternalTerminalShellExecution._ended e = false ->
      registered_with e (run_executor k rt) it).
Proof.
  intros H Hk [Hlk Hp] Hatt0. pose proof H as H0. open_inv H0.
  destruct (Hstart stream it b (list_elem_of_lookup_2 _ _ _ Hk))
    as (s & Hs & Hit & _).
  assert (iterables (run_executor k rt) = iterables rt
          /\ streams (run_executor k rt)
             = alter (ShellExecutionDataStream.push_emitter it) stream (streams rt))
    as [Hi Hst].
  { rewrite (executor_start rt k stream it b s Hk Hs).
    destruct (barriers rt !! b) as [x|]; [|done]. by destruct (_isOpen x). }
  split; [split; [by rewrite Hi|done]|].
  intros He. destruct (Hatt0 He) as (stream' & s' & Hds & Hs' & Hit').
  pose proof (Hdisj stream stream' s s' it Hs Hs' Hit Hit') as <-.
  exists stream, (ShellExecutionDataStream.push_emitter it s).
  split; [done|]. split; [by rewrite Hst, list_lookup_alter_eq, Hs|].
  simpl. apply elem_of_app. right. by apply list_elem_of_singleton.
Qed.

(** [read()] on an execution that has not ended hands out a new, empty
    iterable, attaches it to the stream, and queues its executor. *)
Lemma read_attaches e rt it :
  heap_inv [e] rt -> (InternalTerminalShellExecution.read e rt).1.1 = Ref it ->
  it = length (iterables rt)
  /\ reader_at (InternalTerminalShellExecution.read e rt).2 it [] 0 Initial
  /\ it ∈ starting (InternalTerminalShellExecution.read e rt).2
  /\ attached_to (InternalTerminalShellExecution.read e rt).1.2
                 (InternalTerminalShellExecution.read e rt).2 it.
Proof.
  intros H. pose proof H as H0. open_inv H0.
  unfold InternalTerminalShellExecution.read,
    InternalTerminalShellExecution._createDataStream.
  destruct (InternalTerminalShellExecution._dataStream e) as [stream|] eqn:Hds.
  - assert (stream_of [e] 0 = Some stream) as Hso by (unfold stream_of; simpl; done).
    destruct (Hlive 0%nat stream Hso) as (s & b & Hs & Hb).
    rewrite (createIterable_live rt stream s b Hs Hb). simpl.
    intros [= <-]. split; [done|]. split; [|split].
    + split; [|done]. simpl. by rewrite list_lookup_middle.
    + unfold starting. simpl. rewrite omap_app. apply elem_of_app. right.
      by apply list_elem_of_singleton.
    + exists stream, (ShellExecutionDataStream.push_iterable (length (iterables rt)) s).
      split; [done|]. split; [by simpl; rewrite list_lookup_alter_eq, Hs|].
      simpl. apply elem_of_app. right. by apply list_elem_of_singleton.
  - destruct (InternalTerminalShellExecution._ended e); [done|].
    rewrite createIterable_new.
    erewrite createIterable_live;
      [|by simpl; apply list_lookup_middle|done].
    simpl. intros [= <-]. split; [done|]. split; [|split].
    + split; [|done]. simpl. by rewrite list_lookup_middle.
    + unfold starting. simpl. rewrite omap_app. apply elem_of_app. right.
      by apply list_elem_of_singleton.
    + eexists _, _. split; [done|]. split.
      * simpl. rewrite list_lookup_alter_eq. by rewrite list_lookup_middle.
      * simpl. by apply list_elem_of_singleton.
Qed.

Lemma drained_reader rt it results p st :
  reader_at rt it results p st ->
  (if drained rt it then Done else Suspended)
  = match st with DoneOK => Done | Initial => Suspended end.
Proof. intros [H _]. unfold drained. rewrite H. by destruct st. Qed.

(** C6 (as amended): a reader attached by read() belongs to the stream
    from the microtask on in which the executor of its iterable starts.
    Whatever the calls before read() (earlier), between read() and that
    microtask (waiting) and after it (later): the iterable does not exist
    before read(); it holds nothing when the executor starts, whatever was
    emitted until then; afterwards it holds exactly the chunks that the
    later calls push while the execution runs, in call order, and nothing
    when the execution had ended before the executor started; what its
    consumer is given during the calls, followed by what it has not been
    given yet, is that same sequence; and a consumer that goes on asking
    is given the rest in order, after which the iterable reports that it
    is suspended or, once its executor has returned, done. *)
Theorem reader_receives_chunks_in_order
    (commandLine : TerminalShellExecutionCommandLine) (cwd : option URI)
    (earlier waiting later : list ExecutionCall) (it k stream barrier : nat) :
  let st := calls earlier (InternalTerminalShellExecution.new commandLine cwd, Runtime_init) in
  let res := InternalTerminalShellExecution.read st.1 st.2 in
  let st1 := calls waiting (res.1.2, res.2) in
  let final := calls (CallMicrotask k :: later) st1 in
  let expected :=
    if InternalTerminalShellExecution._ended st1.1 then [] else pushed later in
  res.1.1 = Ref it ->
  microtasks st1.2 !! k = Some (ExecutorStart stream it barrier) ->
  received_by st.2 it = None
  /\ received_by st1.2 it = Some []
  /\ received_by final.2 it = Some expected
  /\ produced it (waiting ++ CallMicrotask k :: later) (res.1.2, res.2)
     ++ unread final.2 it = expected
  /\ consume (S (length (unread final.2 it))) it final.2
     = (Yield <$> unread final.2 it)
       ++ [if drained final.2 it then Done else Suspended].
Proof.
  intros st res st1 final expected Hres Hk.
  assert (heap_inv [st.1] st.2) as Hst
    by (apply heap_inv_calls, heap_inv_new).
  destruct (read_attaches st.1 st.2 it Hst Hres) as (Hit & Hr0 & Hq0 & Hatt0).
  pose proof (heap_inv_read [st.1] st.2 0%nat st.1 Hst eq_refl) as Hread.
  change (heap_inv [res.1.2] res.2) in Hread.
  assert (it ∈ starting st1.2) as Hq1.
  { apply elem_of_starting. exists stream, barrier. by eapply list_elem_of_lookup_2. }
  destruct (pending_calls it waiting res.1.2 res.2 Hread Hq0 Hr0 (fun _ => Hatt0) Hq1)
    as (Hr1 & Hp1 & Hatt1).
  fold st1 in Hr1, Hatt1.
  pose proof (heap_inv_calls waiting res.1.2 res.2 Hread) as Hinv1. fold st1 in Hinv1.
  assert (exists p st',
            reader_at final.2 it expected p st'
            /\ produced it (CallMicrotask k :: later) st1 = take p expected)
    as (p & st' & Hrf & Hpf).
  { subst final. rewrite calls_cons.
    change (produced it (CallMicrotask k :: later) st1)
      with ([] ++ produced it later (call (CallMicrotask k) st1)).
    destruct st1 as [e1 rt1]. simpl in *.
    destruct (start_registers e1 rt1 k stream it barrier [] 0%nat Initial Hinv1 Hk Hr1 Hatt1)
      as [Hr2 Hreg2].
    pose proof (heap_inv_run_executor [e1] rt1 k Hinv1) as Hinv2.
    subst expected. simpl.
    destruct (InternalTerminalShellExecution._ended e1) eqn:He1.
    - assert (torn_down e1) as Ht.
      { split; [done|]. by apply (hi_running _ _ Hinv1 0%nat e1). }
      destruct (frozen_calls it [] later e1 (run_executor k rt1) 0%nat Initial Ht Hr2)
        as (p2 & st2 & Hr3 & Hp3).
      exists p2, st2. by split.
    - destruct (reader_calls it later e1 (run_executor k rt1) [] 0%nat Hinv2
                  (Hreg2 eq_refl) Hr2) as (p2 & st2 & Hr3 & Hp3).
      exists p2, st2. by split. }
  split; [|split; [|split; [|split]]].
  - unfold received_by. simpl. rewrite Hit. by rewrite lookup_ge_None_2.
  - by eapply reader_at_received.
  - by eapply reader_at_received.
  - rewrite produced_app. fold st1. rewrite Hp1, Hpf. simpl.
    rewrite (reader_at_unread _ _ _ _ _ Hrf). apply take_drop.
  - rewrite (drained_reader _ _ _ _ _ Hrf), (reader_at_unread _ _ _ _ _ Hrf).
    by eapply consume_reader.
Qed.

Lemma reader_receives_chunks_in_order_witness :
  let earlier := [CallEmitData (str "z")] in
  let waiting := [CallEmitData (str "a")] in
  let later := [CallEmitData (str "b"); CallNext 0; CallEmitData (str "c")] in
  let st := calls earlier (InternalTerminalShellExecution.new a_commandLine None, Runtime_init) in
  let res := InternalTerminalShellExecution.read st.1 st.2 in
  let final := calls (waiting ++ CallMicrotask 0 :: later) (res.1.2, res.2) in
  received_by final.2 0 = Some [str "b"; str "c"]
  /\ produced 0 (waiting ++ CallMicrotask 0 :: later) (res.1.2, res.2) = [str "b"]
  /\ unread final.2 0 = [str "c"]
  /\ consume 2 0 final.2 = [Yield (str "c"); Suspended].
Proof.
  pose proof (reader_receives_chunks_in_order a_commandLine None
                [CallEmitData (str "z")] [CallEmitData (str "a")]
                [CallEmitData (str "b"); CallNext 0; CallEmitData (str "c")]
                0%nat 0%nat 0%nat 0%nat eq_refl eq_refl) as H.
  cbv zeta in H. destruct H as (_ & _ & H3 & H4 & H5).
  cbv zeta. split; [exact H3|]. split; [by vm_compute|]. split; [by vm_compute|].
  exact H5.
Defined.

(** C6 fails as stated: a chunk emitted after read() has returned and
    before the executor of the new iterable has started is not delivered
    to that reader; its consumer is given nothing and stays suspended. *)
Lemma chunk_before_registration_is_lost :
  let e := InternalTerminalShellExecution.new a_commandLine None in
  let res := InternalTerminalShellExecution.read e Runtime_init in
  let after := [CallEmitData (str "a"); CallMicrotask 0; CallNext 0] in
  let final := calls after (res.1.2, res.2) in
  res.1.1 = Ref 0
  /\ pushed after = [str "a"]
  /\ received_by final.2 0 = Some []
  /\ produced 0 after (res.1.2, res.2) = []
  /\ consume 1 0 final.2 = [Suspended]
  /\ ~ (received_by final.2 0 = Some (pushed after)).
Proof. by vm_compute. Qed.

(** ** Command lines of [executeCommand] *)

Lemma is_quote_char_spec c :
  is_quote_char c = true <-> c = 34 \/ c = 39 \/ c = 96.
Proof.
  unfold is_quote_char. rewrite !orb_true_iff, !N.eqb_eq. tauto.
Qed.

Lemma wrapInQuotes_spec arg :
  wrapInQuotes arg = true <->
  (exists c, c ∈ arg /\ is_whitespace c = true)
  /\ (forall c, c ∈ arg -> c ≠ 34 /\ c ≠ 39 /\ c ≠ 96).
Proof.
  unfold wrapInQuotes, matches.
  rewrite andb_true_iff, negb_true_iff, existsb_exists.
  split.
  - intros [Hq [c [Hin Hws]]]. split.
    + exists c. split; [by apply list_elem_of_In | done].
    + intros d Hd.
      assert (is_quote_char d = false) as Hd'.
      { destruct (is_quote_char d) eqn:E; [|done].
        assert (existsb is_quote_char arg = true) as Hex.
        { apply existsb_exists. exists d. split; [by apply list_elem_of_In | done]. }
        congruence. }
      apply not_true_iff_false in Hd'. rewrite is_quote_char_spec in Hd'. tauto.
  - intros [[c [Hin Hws]] Hq]. split.
    + apply not_true_iff_false. intros Hex.
      apply existsb_exists in Hex as [d [Hd Hd']].
      apply list_elem_of_In in Hd. apply Hq in Hd.
      apply is_quote_char_spec in Hd'. tauto.
    + exists c. split; [by apply list_elem_of_In | done].
Qed.

Lemma foldl_appendArg args : forall commandLineValue,
  foldl appendArg commandLineValue args = rendered_commandLine commandLineValue args.
Proof.
  unfold rendered_commandLine.
  induction args as [|arg args IH]; intros v; simpl.
  - by rewrite app_nil_r.
  - rewrite IH. unfold appendArg, rendered_arg.
    destruct (wrapInQuotes arg); simpl; rewrite <- !app_assoc; simpl;
      rewrite <- ?app_assoc; reflexivity.
Qed.

(** C10: [executeCommand(executable, args)] sends to the transport, and
    stores in the execution it appends to the pending queue, the
    executable followed by each argument after a single space; an
    argument is wrapped in double quotes exactly when it contains a
    whitespace character and none of the double quote, the single quote
    and the backtick, and is appended verbatim otherwise.  The stored
    command line has confidence [High] and is trusted. *)
Theorem executeCommand_quotes_and_registers
    (s : InternalTerminalShellIntegration.t) (executable : JSString)
    (args : list JSString) (instanceId : nat) :
  let commandLine :=
    {| cl_value := rendered_commandLine executable args;
       cl_confidence := High; cl_isTrusted := true |} in
  let execution := length (InternalTerminalShellIntegration.executions s) in
  (forall arg, wrapInQuotes arg = true <->
     (exists c, c ∈ arg /\ is_whitespace c = true)
     /\ (forall c, c ∈ arg -> c ≠ 34 /\ c ≠ 39 /\ c ≠ 96))
  /\ InternalTerminalShellIntegration.executeCommand executable (Some args) s =
     (execution,
      InternalTerminalShellIntegration.set_activeExecutions
        (InternalTerminalShellIntegration._activeExecutions s ++ [execution])
        (InternalTerminalShellIntegration.set_executions
           (InternalTerminalShellIntegration.executions s
            ++ [InternalTerminalShellExecution.new commandLine
                  (InternalTerminalShellIntegration._cwd s)]) s),
      [InternalTerminalShellIntegration.DidRequestShellExecution (cl_value commandLine);
       InternalTerminalShellIntegration.DidRequestNewExecution (cl_value commandLine)])
  /\ (forall terminal,
        ExtHostTerminalShellIntegration.deliver instanceId
          {| ExtHostTerminalShellIntegration.integration := s;
             ExtHostTerminalShellIntegration.store := all_listeners;
             ExtHostTerminalShellIntegration._terminal := terminal |}
          (InternalTerminalShellIntegration.DidRequestShellExecution (cl_value commandLine))
        = [ExtHostTerminalShellIntegration.Proxy_executeCommand instanceId
             (rendered_commandLine executable args)]).
Proof.
  intros commandLine execution. split; [apply wrapInQuotes_spec|]. split.
  - unfold InternalTerminalShellIntegration.executeCommand,
      InternalTerminalShellIntegration.requestNewShellExecution,
      executeCommand_commandLineValue.
    rewrite foldl_appendArg.
    destruct (InternalTerminalShellIntegration._cwd s); reflexivity.
  - intros terminal. reflexivity.
Qed.

(** ** Environment and working directory *)

Lemma setCwd_differs cwd s :
  InternalTerminalShellIntegration.setCwd cwd s =
  if decide (cwd_differs (InternalTerminalShellIntegration._cwd s) cwd)
  then (InternalTerminalShellIntegration.set_cwd cwd s,
        [InternalTerminalShellIntegration.DidRequestChangeShellIntegration])
  else (s, []).
Proof.
  unfold InternalTerminalShellIntegration.setCwd, cwd_differs.
  destruct (InternalTerminalShellIntegration._cwd s) as [a|], cwd as [b|]; simpl.
  - unfold bool_decide. destruct (decide (URI_toString a ≠ URI_toString b)) as [H|H];
      destruct (decide_rel _ _ _); try reflexivity; contradiction.
  - reflexivity.
  - reflexivity.
  - reflexivity.
Qed.

Lemma cwd_differs_irrefl_after cwd s :
  ¬ cwd_differs
      (InternalTerminalShellIntegration._cwd (InternalTerminalShellIntegration.setCwd cwd s).1)
      cwd.
Proof.
  rewrite setCwd_differs.
  destruct (decide (cwd_differs (InternalTerminalShellIntegration._cwd s) cwd)) as [H|H]; simpl.
  - destruct cwd; simpl; [intros Hne; by apply Hne | tauto].
  - done.
Qed.

Lemma setEnv_env_prefix keys values n k :
  (n <= length keys)%nat ->
  (k ∉ take n keys \/ k = proto_key ->
   foldl (setEnv_step keys values) ∅ (seq 0 n) !! k = None)
  /\ (forall before after,
        take n keys = before ++ k :: after -> k ∉ after -> k ≠ proto_key ->
        foldl (setEnv_step keys values) ∅ (seq 0 n) !! k = Some (values !! length before)).
Proof.
  induction n as [|n IH]; intros Hn.
  - simpl. split; [intros _; apply lookup_empty|].
    intros before after H. by destruct before.
  - destruct IH as [IH1 IH2]; [lia|].
    assert (is_Some (keys !! n)) as [kn Hkn] by (apply lookup_lt_is_Some; lia).
    rewrite seq_S, foldl_app. simpl. unfold setEnv_step at 1 3. rewrite Hkn.
    rewrite (take_S_r _ _ _ Hkn).
    destruct (decide (kn = proto_key)) as [Hproto|Hproto]; split.
    + intros [Hnotin| ->]; [|by apply IH1; right].
      rewrite not_elem_of_app in Hnotin. apply IH1. left. apply Hnotin.
    + intros before after Heq Hafter Hk.
      destruct after as [|a after _] using rev_ind.
      * apply app_inj_tail in Heq as [Hb <-]. done.
      * rewrite app_comm_cons, app_assoc in Heq.
        apply app_inj_tail in Heq as [Hb <-].
        rewrite not_elem_of_app in Hafter. destruct Hafter as [H1 H2].
        by apply (IH2 before after).
    + intros Hk. rewrite lookup_insert_ne.
      * apply IH1. destruct Hk as [Hk|Hk]; [|by right].
        rewrite not_elem_of_app in Hk. left. apply Hk.
      * intros ->. destruct Hk as [Hk|Hk]; [|done].
        rewrite not_elem_of_app in Hk. destruct Hk as [_ Hk]. apply Hk. by left.
    + intros before after Heq Hafter Hk.
      destruct after as [|a after _] using rev_ind.
      * apply app_inj_tail in Heq as [Hb <-].
        rewrite lookup_insert_eq. f_equal. f_equal.
        rewrite <- Hb, length_take. lia.
      * rewrite app_comm_cons, app_assoc in Heq.
        apply app_inj_tail in Heq as [Hb <-].
        rewrite not_elem_of_app in Hafter. destruct Hafter as [H1 H2].
        rewrite lookup_insert_ne; [by apply (IH2 before after)|].
        intros ->. apply H2. by left.
Qed.

(** The environment that [setEnv] stores maps a key other than
    [__proto__] to the value at the last index where the key stands in
    [keys], and holds no other key. *)
Lemma setEnv_env_lookup keys values k :
  (k ∉ keys \/ k = proto_key -> setEnv_env keys values !! k = None)
  /\ (forall before after,
        keys = before ++ k :: after -> k ∉ after -> k ≠ proto_key ->
        setEnv_env keys values !! k = Some (values !! length before)).
Proof.
  pose proof (setEnv_env_prefix keys values (length keys) k (Nat.le_refl _)) as H.
  rewrite firstn_all in H. exact H.
Qed.

(** C8: a [shellEnvChange] replaces the stored environment, whatever was
    stored, by a new one: it holds the trust flag of the signal, maps
    every key of the signal other than [__proto__] to the value at the
    last index where the key stands, and holds no other key; the rest of
    the state is as it was.  It fires exactly one change event, also when
    the same keys and values are set again, and the directory passes the
    event on as one outward change event for the terminal of the
    integration, which then stores that environment.  A [cwdChange] fires
    a change event, and stores the value, only when the new value differs
    from the stored one, by the string of the URI when a URI is stored
    and by identity otherwise; setting the same working directory again
    fires nothing, and the environment is never touched by it. *)
Theorem setEnv_always_fires_setCwd_only_on_change
    (s : InternalTerminalShellIntegration.t) (keys values : list JSString)
    (isTrusted : bool) (cwd : option URI) :
  let env := {| env_value := setEnv_env keys values; env_isTrusted := isTrusted |} in
  let s1 := (InternalTerminalShellIntegration.setEnv keys values isTrusted s).1 in
  let s2 := (InternalTerminalShellIntegration.setCwd cwd s).1 in
  InternalTerminalShellIntegration.setEnv keys values isTrusted s =
    (InternalTerminalShellIntegration.set_env (Some env) s,
     [InternalTerminalShellIntegration.DidRequestChangeShellIntegration])
  /\ InternalTerminalShellIntegration.setEnv keys values isTrusted s1 =
     (s1, [InternalTerminalShellIntegration.DidRequestChangeShellIntegration])
  /\ InternalTerminalShellIntegration.setCwd cwd s =
     (if decide (cwd_differs (InternalTerminalShellIntegration._cwd s) cwd)
      then (InternalTerminalShellIntegration.set_cwd cwd s,
            [InternalTerminalShellIntegration.DidRequestChangeShellIntegration])
      else (s, []))
  /\ InternalTerminalShellIntegration.setCwd cwd s2 = (s2, [])
  /\ (forall k,
        (k ∉ keys \/ k = proto_key -> env_value env !! k = None)
        /\ (forall before after,
              keys = before ++ k :: after -> k ∉ after -> k ≠ proto_key ->
              env_value env !! k = Some (values !! length before)))
  /\ (forall h instanceId i,
        ExtHostTerminalShellIntegration._activeShellIntegrations h !! instanceId = Some i ->
        ExtHostTerminalShellIntegration.OnDidRequestChangeShellIntegration
          ∈ ExtHostTerminalShellIntegration.store i ->
        let h' := ExtHostTerminalShellIntegration.handle instanceId
                    (ExtHostTerminalShellIntegration.ShellEnvChange keys values isTrusted) h in
        ExtHostTerminalShellIntegration.emitted h'
        = ExtHostTerminalShellIntegration.emitted h
          ++ [ExtHostTerminalShellIntegration.OnDidChangeTerminalShellIntegration
                (ExtHostTerminalShellIntegration._terminal i)]
        /\ (fun i' => InternalTerminalShellIntegration._env
                        (ExtHostTerminalShellIntegration.integration i'))
           <$> ExtHostTerminalShellIntegration._activeShellIntegrations h' !! instanceId
           = Some (Some env))
  /\ InternalTerminalShellIntegration._env s1 = Some env
  /\ InternalTerminalShellIntegration._env s2 = InternalTerminalShellIntegration._env s
  /\ InternalTerminalShellIntegration._cwd s1 = InternalTerminalShellIntegration._cwd s
  /\ InternalTerminalShellIntegration._activeExecutions s1
     = InternalTerminalShellIntegration._activeExecutions s
  /\ InternalTerminalShellIntegration._currentExecution s1
     = InternalTerminalShellIntegration._currentExecution s
  /\ InternalTerminalShellIntegration._hasRichCommandDetection s1
     = InternalTerminalShellIntegration._hasRichCommandDetection s
  /\ InternalTerminalShellIntegration.executions s1
     = InternalTerminalShellIntegration.executions s
  /\ InternalTerminalShellIntegration.runtime s1
     = InternalTerminalShellIntegration.runtime s
  /\ (cwd_differs (InternalTerminalShellIntegration._cwd s) cwd ->
      InternalTerminalShellIntegration._cwd s2 = cwd
      /\ (InternalTerminalShellIntegration.setCwd cwd s).2
         = [InternalTerminalShellIntegration.DidRequestChangeShellIntegration])
  /\ (~ cwd_differs (InternalTerminalShellIntegration._cwd s) cwd ->
      InternalTerminalShellIntegration._cwd s2 = InternalTerminalShellIntegration._cwd s
      /\ (InternalTerminalShellIntegration.setCwd cwd s).2 = [])
  /\ (forall u v : URI,
        cwd_differs (Some u) (Some v) <-> URI_toString u ≠ URI_toString v)
  /\ (forall v : option URI, cwd_differs None v <-> v ≠ None).
Proof.
  intros env s1 s2.
  split; [reflexivity|]. split; [reflexivity|]. split; [apply setCwd_differs|].
  split; [|split; [|split]].
  - rewrite setCwd_differs.
    destruct (decide _) as [H|H]; [|reflexivity].
    exfalso. by apply (cwd_differs_irrefl_after cwd s).
  - intros k. apply setEnv_env_lookup.
  - intros h instanceId i Hi Hl. simpl.
    unfold ExtHostTerminalShellIntegration.shellEnvChange,
      ExtHostTerminalShellIntegration.with_integration.
    rewrite Hi. simpl. rewrite bool_decide_eq_true_2 by done.
    split; [reflexivity|]. by rewrite lookup_insert_eq.
  - subst s1 s2. rewrite setCwd_differs.
    repeat (split; [reflexivity|]).
    split; [by destruct (decide _)|].
    repeat (split; [reflexivity|]).
    split; [|split; [|split]].
    + intros H. by rewrite decide_True.
    + intros H. by rewrite decide_False.
    + done.
    + intros [v|]; simpl; [split; done|split; [done|]]. intros H. by apply H.
Qed.

(** A key [__proto__] among the keys of a [shellEnvChange] stores
    nothing, and the other keys are stored as usual. *)
Example setEnv_skips_proto :
  let s := (InternalTerminalShellIntegration.setEnv
              [str "__proto__"; str "PATH"] [str "x"; str "/bin"] true
              InternalTerminalShellIntegration.new).1 in
  (fun env => (env_value env !! str "__proto__", env_value env !! str "PATH"))
    <$> InternalTerminalShellIntegration._env s
  = Some (None, Some (Some (str "/bin"))).
Proof. by vm_compute. Qed.

(** ** Flushing after the end of an execution *)

Lemma flush_after_endExecution cl e rt rt' :
  InternalTerminalShellExecution.flush
    (InternalTerminalShellExecution.endExecution cl e rt).1 rt' = None.
Proof. reflexivity. Qed.

(** C2 (the code at a failing input): an execution with one registered
    reader that has received a chunk.  Before [endExecution], [flush()]
    would wait for that reader; after it, the stream reference is gone,
    [flush()] waits for nothing and its promise counts as resolved
    although the reader has not terminated.  The same holds after
    [endExecution] on any execution. *)
Theorem flush_after_endExecution_awaits_nothing :
  let ls := {| cl_value := str "ls"; cl_confidence := High; cl_isTrusted := true |} in
  let st := calls [CallRead; CallMicrotask 0; CallEmitData (str "a")]
                  (InternalTerminalShellExecution.new ls None, Runtime_init) in
  let st' := InternalTerminalShellExecution.endExecution None st.1 st.2 in
  InternalTerminalShellExecution.flush st.1 st.2 = Some [0%nat]
  /\ InternalTerminalShellExecution.flush st'.1 st'.2 = None
  /\ resolved st'.2 (InternalTerminalShellExecution.flush st'.1 st'.2) = true
  /\ drained st'.2 0 = false
  /\ received_by st'.2 0 = Some [str "a"]
  /\ (forall cl e rt,
        InternalTerminalShellExecution.flush
          (InternalTerminalShellExecution.endExecution cl e rt).1
          (InternalTerminalShellExecution.endExecution cl e rt).2 = None).
Proof.
  repeat split.
Qed.

(** ** The correlation of a shell-reported start *)

Lemma findIndex_Some {A : Type} (p : A -> bool) (l : list A) (i : nat) :
  findIndex p l = Some i ->
  exists before x after,
    l = before ++ x :: after /\ length before = i /\ p x = true
    /\ (forall y, y ∈ before -> p y = false).
Proof.
  revert i. induction l as [|a l IH]; intros i H; simpl in H; [discriminate|].
  destruct (p a) eqn:Ea.
  - injection H as <-. exists [], a, l. split; [done|]. split; [done|]. split; [done|].
    intros y Hy. by apply elem_of_nil in Hy.
  - destruct (findIndex p l) as [j|] eqn:Ej; simpl in H; [|discriminate].
    injection H as <-.
    destruct (IH j eq_refl) as (before & x & after & -> & <- & Hx & Hb).
    exists (a :: before), x, after. split; [done|]. split; [done|]. split; [done|].
    intros y Hy. apply elem_of_cons in Hy as [->|Hy]; [done|by apply Hb].
Qed.

Lemma findIndex_None {A : Type} (p : A -> bool) (l : list A) :
  findIndex p l = None -> forall y, y ∈ l -> p y = false.
Proof.
  induction l as [|a l IH]; intros H y Hy; simpl in H.
  - by apply elem_of_nil in Hy.
  - destruct (p a) eqn:Ea; [discriminate|].
    destruct (findIndex p l) eqn:Ej; simpl in H; [discriminate|].
    apply elem_of_cons in Hy as [->|Hy]; [done|by apply IH].
Qed.

Lemma call_execution_shape method id s :
  InternalTerminalShellIntegration._activeExecutions
    (InternalTerminalShellIntegration.call_execution method id s)
  = InternalTerminalShellIntegration._activeExecutions s
  /\ InternalTerminalShellIntegration._currentExecution
       (InternalTerminalShellIntegration.call_execution method id s)
     = InternalTerminalShellIntegration._currentExecution s
  /\ length (InternalTerminalShellIntegration.executions
               (InternalTerminalShellIntegration.call_execution method id s))
     = length (InternalTerminalShellIntegration.executions s)
  /\ InternalTerminalShellIntegration._cwd
       (InternalTerminalShellIntegration.call_execution method id s)
     = InternalTerminalShellIntegration._cwd s
  /\ InternalTerminalShellIntegration._hasRichCommandDetection
       (InternalTerminalShellIntegration.call_execution method id s)
     = InternalTerminalShellIntegration._hasRichCommandDetection s
  /\ InternalTerminalShellIntegration._env
       (InternalTerminalShellIntegration.call_execution method id s)
     = InternalTerminalShellIntegration._env s.
Proof.
  unfold InternalTerminalShellIntegration.call_execution.
  destruct (InternalTerminalShellIntegration.executions s !! id) as [e|]; [|done].
  destruct (method e (InternalTerminalShellIntegration.runtime s)) as [e' rt'].
  simpl. by rewrite length_insert.
Qed.

Lemma force_end_shape s :
  InternalTerminalShellIntegration._activeExecutions (force_end s).1
  = InternalTerminalShellIntegration._activeExecutions s
  /\ InternalTerminalShellIntegration._currentExecution (force_end s).1
     = InternalTerminalShellIntegration._currentExecution s
  /\ length (InternalTerminalShellIntegration.executions (force_end s).1)
     = length (InternalTerminalShellIntegration.executions s)
  /\ InternalTerminalShellIntegration._cwd (force_end s).1
     = InternalTerminalShellIntegration._cwd s.
Proof.
  unfold force_end.
  destruct (InternalTerminalShellIntegration._currentExecution s) as [c|] eqn:E; simpl.
  - pose proof (call_execution_shape (InternalTerminalShellExecution.endExecution None) c s)
      as (H1 & H2 & H3 & H4 & _).
    by rewrite H1, H2, H3, H4.
  - by rewrite E.
Qed.

Lemma force_end_commandLine_value s id :
  InternalTerminalShellIntegration.commandLine_value (force_end s).1 id
  = InternalTerminalShellIntegration.commandLine_value s id.
Proof.
  unfold force_end.
  destruct (InternalTerminalShellIntegration._currentExecution s) as [c|]; [|done].
  simpl. unfold InternalTerminalShellIntegration.call_execution,
    InternalTerminalShellIntegration.commandLine_value.
  destruct (InternalTerminalShellIntegration.executions s !! c) as [e|] eqn:E; [|done].
  simpl. destruct (decide (id = c)) as [->|Hne].
  - rewrite list_lookup_insert_eq by (by eapply lookup_lt_Some). by rewrite E.
  - by rewrite list_lookup_insert_ne.
Qed.

Lemma startShellExecution_correlates commandLine cwd s :
  exists picked rest,
    correlates (InternalTerminalShellIntegration.commandLine_value s)
               (InternalTerminalShellIntegration._activeExecutions s)
               commandLine picked rest
    /\ InternalTerminalShellIntegration.startShellExecution commandLine cwd s =
       let s2 := InternalTerminalShellIntegration.set_activeExecutions rest (force_end s).1 in
       match picked with
       | Some e =>
           (e, InternalTerminalShellIntegration.set_currentExecution (Some e) s2,
            (force_end s).2 ++ [InternalTerminalShellIntegration.DidStartTerminalShellExecution e])
       | None =>
           let n := length (InternalTerminalShellIntegration.executions s) in
           (n,
            InternalTerminalShellIntegration.set_currentExecution (Some n)
              (InternalTerminalShellIntegration.set_executions
                 (InternalTerminalShellIntegration.executions s2
                  ++ [InternalTerminalShellExecution.new commandLine
                        (nullish cwd (InternalTerminalShellIntegration._cwd s))]) s2),
            (force_end s).2 ++ [InternalTerminalShellIntegration.DidStartTerminalShellExecution n])
       end.
Proof.
  unfold InternalTerminalShellIntegration.startShellExecution. fold (force_end s).
  pose proof (force_end_shape s) as (Ha & _ & Hl & Hc).
  pose proof (force_end_commandLine_value s) as Ht.
  destruct (force_end s) as [s1 fired1]. simpl in *.
  destruct (cl_confidence commandLine) eqn:Ec.
  - (* Low *)
    destruct (InternalTerminalShellIntegration._activeExecutions s1) as [|e rest] eqn:Ep.
    + exists None, []. split.
      * apply correlates_empty; [by rewrite Ec | done].
      * simpl. by rewrite Hl, Hc.
    + exists (Some e), rest. split.
      * apply correlates_head; [by rewrite Ec | done].
      * reflexivity.
  - (* Medium *)
    destruct (InternalTerminalShellIntegration._activeExecutions s1) as [|e rest] eqn:Ep.
    + exists None, []. split.
      * apply correlates_empty; [by rewrite Ec | done].
      * simpl. by rewrite Hl, Hc.
    + exists (Some e), rest. split.
      * apply correlates_head; [by rewrite Ec | done].
      * reflexivity.
  - (* High *)
    destruct (findIndex _ (InternalTerminalShellIntegration._activeExecutions s1)) as [i|] eqn:Ei.
    + apply findIndex_Some in Ei as (before & e & after & Hp & <- & He & Hb).
      exists (Some e), (before ++ after). split.
      * rewrite <- Ha, Hp. apply correlates_first_exact_match; [done|done| |].
        -- apply bool_decide_eq_true in He. by rewrite <- Ht.
        -- intros x Hx. apply Hb in Hx. apply bool_decide_eq_false in Hx.
           by rewrite <- Ht.
      * rewrite Hp. rewrite list_lookup_middle by done. by rewrite delete_middle.
    + exists None, (InternalTerminalShellIntegration._activeExecutions s). split.
      * apply correlates_no_match; [done|].
        intros x Hx. rewrite <- Ha in Hx.
        pose proof (findIndex_None _ _ Ei x Hx) as H. simpl in H.
        apply bool_decide_eq_false in H. by rewrite <- Ht.
      * simpl. by rewrite Ha, Hl, Hc.
Qed.

(** C4: the execution that a shell-reported start makes current follows
    the correlation policy, where the text of a pending execution is the
    value of the command line of that execution object.  With confidence
    [High] the first pending execution whose text equals the reported
    text is taken out of the queue, wherever it stands; with [Low] or
    [Medium] the head of the queue is taken whatever its text; when
    neither gives an execution, the queue stays as it is and a new
    execution object is created: it has the reported command line, the
    reported working directory when one is reported and the one stored in
    the integration otherwise, no data stream, and has not ended. *)
Theorem startShellExecution_follows_policy
    (s : InternalTerminalShellIntegration.t)
    (commandLine : TerminalShellExecutionCommandLine) (cwd : option URI) :
  let started := InternalTerminalShellIntegration.startShellExecution commandLine cwd s in
  let current := started.1.1 in
  let s' := started.1.2 in
  let text := fun e =>
    (fun x => cl_value (InternalTerminalShellExecution._commandLine x))
      <$> InternalTerminalShellIntegration.executions s !! e in
  exists picked rest,
    correlates text (InternalTerminalShellIntegration._activeExecutions s)
               commandLine picked rest
    /\ InternalTerminalShellIntegration._currentExecution s' = Some current
    /\ InternalTerminalShellIntegration._activeExecutions s' = rest
    /\ match picked with
       | Some e =>
           current = e
           /\ length (InternalTerminalShellIntegration.executions s')
              = length (InternalTerminalShellIntegration.executions s)
       | None =>
           current = length (InternalTerminalShellIntegration.executions s)
           /\ InternalTerminalShellIntegration.executions s' !! current
              = Some {| InternalTerminalShellExecution._commandLine := commandLine;
                        InternalTerminalShellExecution.cwd :=
                          match cwd with
                          | Some reported => Some reported
                          | None => InternalTerminalShellIntegration._cwd s
                          end;
                        InternalTerminalShellExecution._dataStream := None;
                        InternalTerminalShellExecution._ended := false |}
           /\ length (InternalTerminalShellIntegration.executions s')
              = S (length (InternalTerminalShellIntegration.executions s))
       end.
Proof.
  intros started current s' text.
  destruct (startShellExecution_correlates commandLine cwd s) as (picked & rest & Hc & Hs).
  exists picked, rest. split; [done|].
  pose proof (force_end_shape s) as (_ & _ & Hl & _).
  subst s' current started. rewrite Hs. clear Hs.
  destruct picked as [e|]; simpl.
  - by rewrite Hl.
  - split; [done|]. split; [done|]. split; [done|]. split.
    + rewrite lookup_app_r by lia. rewrite Hl, Nat.sub_diag. by destruct cwd.
    + rewrite length_app, Hl. simpl. lia.
Qed.

(** ** What holds of every state of an integration *)

Lemma correlates_permutation text pending commandLine picked rest :
  correlates text pending commandLine picked rest ->
  match picked with
  | Some e => pending ≡ₚ e :: rest
  | None => rest = pending
  end.
Proof.
  intros [before e after _ -> _ _ | _ _ | e rest' _ -> | _ ->]; try done.
  symmetry. apply Permutation_middle.
Qed.

Lemma end_events_app e seen1 seen2 :
  end_events e (seen1 ++ seen2) = (end_events e seen1 + end_events e seen2)%nat.
Proof. unfold end_events. by rewrite List.filter_app, length_app. Qed.

Lemma force_end_end_events s e :
  end_events e (Event <$> (force_end s).2) =
  if decide (InternalTerminalShellIntegration._currentExecution s = Some e)
  then 1%nat else 0%nat.
Proof.
  unfold force_end.
  destruct (InternalTerminalShellIntegration._currentExecution s) as [c|]; simpl.
  - destruct (InternalTerminalShellIntegration._hasRichCommandDetection s); simpl;
      unfold end_events; simpl; unfold bool_decide;
      destruct (decide_rel eq c e) as [->|Hne]; simpl;
      destruct (decide (Some _ = Some e)) as [H|H]; try done; try congruence.
  - destruct (decide (None = Some e)); done.
Qed.

(** A step that leaves the queue, the current execution and the size of
    the store alone and shows no end event. *)
Ltac quiet := apply transition_quiet; simpl; done.

Lemma step_transition a s : transition s (step a s).1 (step a s).2.
Proof.
  destruct a as [exe args | cl cwd | cl exitCode | data | keys values tr | cwd | value
                | execution | it | k]; simpl.
  - (* executeCommand *)
    unfold InternalTerminalShellIntegration.executeCommand,
      InternalTerminalShellIntegration.requestNewShellExecution. simpl.
    apply transition_register; simpl; try done.
    by rewrite length_app, Nat.add_comm.
  - (* startShellExecution *)
    destruct (startShellExecution_correlates cl cwd s) as (picked & rest & Hc & Hs).
    rewrite Hs. clear Hs.
    apply correlates_permutation in Hc.
    pose proof (force_end_shape s) as (Ha & _ & Hl & _).
    destruct picked as [e|]; simpl.
    + apply (transition_start _ _ (Some e) rest e); simpl; try done.
      intros e0. rewrite fmap_app, end_events_app, force_end_end_events.
      unfold end_events. simpl. lia.
    + apply (transition_start _ _ None rest
               (length (InternalTerminalShellIntegration.executions s))); simpl; try done.
      * split; [done|]. split; [done|]. by rewrite length_app, Hl, Nat.add_comm.
      * intros e0. rewrite fmap_app, end_events_app, force_end_end_events.
        unfold end_events. simpl. lia.
  - (* endShellExecution *)
    unfold InternalTerminalShellIntegration.endShellExecution.
    destruct (InternalTerminalShellIntegration._currentExecution s) as [c|] eqn:Ec; simpl.
    + pose proof (call_execution_shape (InternalTerminalShellExecution.endExecution cl) c s)
        as (H1 & H2 & H3 & _).
      quiet.
    + quiet.
  - (* emitData *)
    unfold InternalTerminalShellIntegration.emitData.
    destruct (InternalTerminalShellIntegration._currentExecution s) as [c|] eqn:Ec;
      [destruct (InternalTerminalShellIntegration.executions s !! c)|];
      quiet.
  - (* setEnv *)
    quiet.
  - (* setCwd *)
    unfold InternalTerminalShellIntegration.setCwd.
    match goal with |- context [if ?b then _ else _] => destruct b end;
      quiet.
  - (* setHasRichCommandDetection *)
    unfold InternalTerminalShellIntegration.setHasRichCommandDetection.
    match goal with |- context [if ?b then _ else _] => destruct b end;
      quiet.
  - (* read *)
    unfold InternalTerminalShellIntegration.read.
    destruct (InternalTerminalShellIntegration.executions s !! execution) as [e|]; simpl.
    + destruct (InternalTerminalShellExecution.read e _) as [[r e'] rt']. simpl.
      apply transition_quiet; simpl; try done. by rewrite length_insert.
    + quiet.
  - (* next *)
    destruct (iterate it _) as [[chunk| |] rt']; simpl;
      quiet.
  - (* a microtask *)
    unfold InternalTerminalShellIntegration.runMicrotask.
    destruct (microtasks _ !! k) as [[stream it b|it|awaited e exitCode]|]; simpl.
    + quiet.
    + quiet.
    + destruct (resolved _ awaited); simpl; [|quiet].
      destruct (bool_decide _) eqn:Eb; simpl.
      * apply bool_decide_eq_true in Eb. simpl in Eb.
        apply transition_end; simpl; done.
      * quiet.
    + quiet.
Qed.

Lemma transition_inv s s' seen shown :
  transition s s' shown -> inv s seen -> inv s' (seen ++ shown).
Proof.
  intros Ht ([Hb Hnd Hcur] & Hgone & Honce).
  destruct Ht as [shown Ha Hc Hl Hno | shown Ha Hc Hl Hno
                 | picked rest current shown Hp Ha Hc Hcount | e exitCode Hc Hc' Ha Hl].
  - (* nothing changes *)
    split; [|split].
    + split; rewrite ?Ha, ?Hc, ?Hl; done.
    + intros e He. rewrite end_events_app, Hno, Nat.add_0_r in He.
      rewrite Ha, Hc, Hl. by apply Hgone.
    + intros e. rewrite end_events_app, Hno, Nat.add_0_r. apply Honce.
  - (* a pending execution is added *)
    split; [|split].
    + split; rewrite ?Ha, ?Hc, ?Hl.
      * apply Forall_app. split.
        -- eapply Forall_impl; [exact Hb|]. simpl. lia.
        -- apply Forall_singleton. lia.
      * apply NoDup_app. split; [done|]. split; [|apply NoDup_singleton].
        intros x Hx Hx'. apply list_elem_of_singleton in Hx'. subst x.
        rewrite Forall_forall in Hb. apply Hb in Hx. lia.
      * intros e He. destruct (Hcur e He) as [H1 H2]. split; [lia|].
        intros Hin. apply elem_of_app in Hin as [Hin|Hin]; [done|].
        apply list_elem_of_singleton in Hin. lia.
    + intros e He. rewrite end_events_app, Hno, Nat.add_0_r in He.
      destruct (Hgone e He) as (H1 & H2 & H3).
      rewrite Ha, Hc, Hl. split; [lia|]. split; [done|].
      intros Hin. apply elem_of_app in Hin as [Hin|Hin]; [done|].
      apply list_elem_of_singleton in Hin. lia.
    + intros e. rewrite end_events_app, Hno, Nat.add_0_r. apply Honce.
  - (* a start *)
    assert (rest ⊆ InternalTerminalShellIntegration._activeExecutions s) as Hsub.
    { destruct picked as [e|].
      - destruct Hp as (Hp & _). intros x Hx. rewrite Hp. by right.
      - destruct Hp as (-> & _). done. }
    assert ((length (InternalTerminalShellIntegration.executions s)
             <= length (InternalTerminalShellIntegration.executions s'))%nat) as Hle.
    { destruct picked; destruct Hp as (_ & _ & ->); lia. }
    assert (NoDup rest /\ (current ∉ rest)
            /\ (current < length (InternalTerminalShellIntegration.executions s'))%nat
            /\ (current ∈ InternalTerminalShellIntegration._activeExecutions s
                \/ current = length (InternalTerminalShellIntegration.executions s)))
      as (Hnd' & Hfresh & Hlt & Horigin).
    { destruct picked as [e|].
      - destruct Hp as (Hp & -> & Hl). rewrite Hp in Hnd.
        apply NoDup_cons in Hnd as [H1 H2]. split; [done|]. split; [done|]. split.
        + rewrite Hl. rewrite Forall_forall in Hb. apply Hb. rewrite Hp. by left.
        + left. rewrite Hp. by left.
      - destruct Hp as (-> & -> & Hl). split; [done|]. split; [|split; [lia|by right]].
        intros Hin. rewrite Forall_forall in Hb. apply Hb in Hin. lia. }
    split; [|split].
    + split; rewrite ?Ha, ?Hc.
      * rewrite Forall_forall. intros x Hx. apply Hsub in Hx.
        rewrite Forall_forall in Hb. apply Hb in Hx. lia.
      * done.
      * intros e He. injection He as <-. done.
    + intros e He. rewrite end_events_app, Hcount in He.
      assert ((e < length (InternalTerminalShellIntegration.executions s))%nat
              /\ e ∉ InternalTerminalShellIntegration._activeExecutions s) as [H1 H2].
      { destruct (decide (InternalTerminalShellIntegration._currentExecution s = Some e))
          as [Hce|Hce].
        - by apply Hcur.
        - rewrite Nat.add_0_r in He. destruct (Hgone e He) as (? & ? & ?). done. }
      rewrite Ha, Hc. split; [lia|]. split.
      * intros Heq. injection Heq as ->. destruct Horigin as [Hin|Heq]; [done|lia].
      * intros Hin. by apply Hsub in Hin.
    + intros e. rewrite end_events_app, Hcount.
      destruct (decide (InternalTerminalShellIntegration._currentExecution s = Some e))
        as [Hce|Hce].
      * assert (end_events e seen = 0%nat) as ->; [|lia].
        destruct (end_events e seen) as [|n] eqn:En; [done|].
        assert (0 < end_events e seen)%nat as Hpos by lia.
        destruct (Hgone e Hpos) as (_ & Hne & _). done.
      * rewrite Nat.add_0_r. apply Honce.
  - (* the end event of the current execution *)
    destruct (Hcur e Hc) as [Hlt Hnotin].
    assert (end_events e seen = 0%nat) as Hzero.
    { destruct (end_events e seen) as [|n] eqn:En; [done|].
      assert (0 < end_events e seen)%nat as Hpos by lia.
      destruct (Hgone e Hpos) as (_ & Hne & _). done. }
    assert (forall e0, end_events e0
              [Event (InternalTerminalShellIntegration.DidRequestEndExecution e exitCode)]
            = if decide (e = e0) then 1%nat else 0%nat) as Hone.
    { intros e0. unfold end_events. simpl. unfold bool_decide.
      destruct (decide_rel eq e e0), (decide (e = e0)); done. }
    split; [|split].
    + split; rewrite ?Ha, ?Hc', ?Hl; [done|done|]. intros e0 He0. discriminate.
    + intros e0 He0. rewrite end_events_app, Hone in He0.
      rewrite Ha, Hc', Hl. destruct (decide (e = e0)) as [<-|Hne].
      * done.
      * rewrite Nat.add_0_r in He0. destruct (Hgone e0 He0) as (? & ? & ?). done.
    + intros e0. rewrite end_events_app, Hone.
      destruct (decide (e = e0)) as [<-|Hne]; [lia|].
      rewrite Nat.add_0_r. apply Honce.
Qed.

Lemma run_cons a trace s :
  run (a :: trace) s = ((run trace (step a s).1).1, (step a s).2 ++ (run trace (step a s).1).2).
Proof.
  simpl. destruct (step a s) as [s1 seen1]. simpl.
  by destruct (run trace s1) as [s2 seen2].
Qed.

Lemma run_inv trace : forall s seen,
  inv s seen -> inv (run trace s).1 (seen ++ (run trace s).2).
Proof.
  induction trace as [|a trace IH]; intros s seen H.
  - simpl. by rewrite app_nil_r.
  - rewrite run_cons. simpl. rewrite app_assoc. apply IH.
    eapply transition_inv; [apply step_transition | done].
Qed.

Lemma inv_new : inv InternalTerminalShellIntegration.new [].
Proof.
  split; [|split].
  - split; simpl; [apply Forall_nil_2 | apply NoDup_nil_2 | discriminate].
  - intros e He. unfold end_events in He. simpl in He. lia.
  - intros e. unfold end_events. simpl. lia.
Qed.

Lemma reachable_inv trace :
  inv (run trace InternalTerminalShellIntegration.new).1
      (run trace InternalTerminalShellIntegration.new).2.
Proof. apply (run_inv trace _ [] inv_new). Qed.

(** ** Starting while an execution is current *)

Lemma force_end_current s prior :
  InternalTerminalShellIntegration._currentExecution s = Some prior ->
  (prior < length (InternalTerminalShellIntegration.executions s))%nat ->
  (force_end s).2 =
    (if InternalTerminalShellIntegration._hasRichCommandDetection s
     then [InternalTerminalShellIntegration.ConsoleWarn] else [])
    ++ [InternalTerminalShellIntegration.DidRequestEndExecution prior None]
  /\ exists e,
       InternalTerminalShellIntegration.executions (force_end s).1 !! prior = Some e
       /\ InternalTerminalShellExecution._ended e = true
       /\ InternalTerminalShellExecution._dataStream e = None.
Proof.
  intros Hc Hlt. unfold force_end. rewrite Hc. simpl. split; [done|].
  unfold InternalTerminalShellIntegration.call_execution.
  apply lookup_lt_is_Some_2 in Hlt as [e0 He0]. rewrite He0.
  destruct (InternalTerminalShellExecution.endExecution None e0 _) as [e' rt'] eqn:E.
  simpl. exists e'. rewrite list_lookup_insert_eq by (by eapply lookup_lt_Some).
  split; [done|].
  unfold InternalTerminalShellExecution.endExecution in E. injection E as <- _. done.
Qed.

Lemma start_while_current s commandLine cwd prior :
  wf s ->
  InternalTerminalShellIntegration._currentExecution s = Some prior ->
  let started := InternalTerminalShellIntegration.startShellExecution commandLine cwd s in
  started.2 =
    (if InternalTerminalShellIntegration._hasRichCommandDetection s
     then [InternalTerminalShellIntegration.ConsoleWarn] else [])
    ++ [InternalTerminalShellIntegration.DidRequestEndExecution prior None;
        InternalTerminalShellIntegration.DidStartTerminalShellExecution started.1.1]
  /\ InternalTerminalShellIntegration._currentExecution started.1.2 = Some started.1.1
  /\ started.1.1 ≠ prior
  /\ exists e,
       InternalTerminalShellIntegration.executions started.1.2 !! prior = Some e
       /\ InternalTerminalShellExecution._ended e = true
       /\ InternalTerminalShellExecution._dataStream e = None.
Proof.
  intros [Hb Hnd Hcur] Hc started.
  destruct (Hcur prior Hc) as [Hlt Hnotin].
  destruct (force_end_current s prior Hc Hlt) as (Hfired & e & He & Hended & Hstream).
  pose proof (force_end_shape s) as (_ & _ & Hl & _).
  destruct (startShellExecution_correlates commandLine cwd s) as (picked & rest & Hcor & Hs).
  apply correlates_permutation in Hcor.
  subst started. rewrite Hs. clear Hs.
  destruct picked as [p|]; simpl.
  - rewrite Hfired, <- app_assoc. split; [done|]. split; [done|]. split.
    + intros ->. apply Hnotin. rewrite Hcor. by left.
    + by exists e.
  - rewrite Hfired, <- app_assoc. split; [done|]. split; [done|]. split; [lia|].
    exists e. split; [|done]. rewrite lookup_app_l by lia. done.
Qed.

(** C3: the current execution of an integration is one optional field,
    so there is never more than one, and in every state reached from a
    new integration the current execution is not pending as well.  When
    [startShellExecution] runs in such a state while an execution is
    current, that execution is ended (its stream is torn down and it is
    marked ended), an end event without exit code is fired for it, and
    only after that the start event of the execution that becomes
    current, which is another one. *)
Theorem startShellExecution_ends_the_current_execution
    (trace : list Action) (commandLine : TerminalShellExecutionCommandLine)
    (cwd : option URI) (prior : nat) :
  let s := (run trace InternalTerminalShellIntegration.new).1 in
  InternalTerminalShellIntegration._currentExecution s = Some prior ->
  let started := InternalTerminalShellIntegration.startShellExecution commandLine cwd s in
  (prior ∉ InternalTerminalShellIntegration._activeExecutions s)
  /\ started.2 =
     (if InternalTerminalShellIntegration._hasRichCommandDetection s
      then [InternalTerminalShellIntegration.ConsoleWarn] else [])
     ++ [InternalTerminalShellIntegration.DidRequestEndExecution prior None;
         InternalTerminalShellIntegration.DidStartTerminalShellExecution started.1.1]
  /\ InternalTerminalShellIntegration._currentExecution started.1.2 = Some started.1.1
  /\ started.1.1 ≠ prior
  /\ exists e,
       InternalTerminalShellIntegration.executions started.1.2 !! prior = Some e
       /\ InternalTerminalShellExecution._ended e = true
       /\ InternalTerminalShellExecution._dataStream e = None.
Proof.
  intros s Hc started.
  destruct (reachable_inv trace) as (Hwf & _ & _).
  split; [by apply (wf_current _ Hwf)|].
  by apply start_while_current.
Qed.

(** C3 at a concrete state: [ls] is running when the shell reports the
    start of [pwd]. *)
Lemma startShellExecution_ends_the_current_execution_witness :
  let s := (run [StartShellExecution a_commandLine None]
                InternalTerminalShellIntegration.new).1 in
  let started :=
    InternalTerminalShellIntegration.startShellExecution
      {| cl_value := str "pwd"; cl_confidence := Low; cl_isTrusted := false |} None s in
  InternalTerminalShellIntegration._currentExecution s = Some 0%nat
  /\ started.2 =
     [InternalTerminalShellIntegration.DidRequestEndExecution 0 None;
      InternalTerminalShellIntegration.DidStartTerminalShellExecution 1]
  /\ InternalTerminalShellIntegration._currentExecution started.1.2 = Some 1%nat.
Proof.
  split; [reflexivity|].
  pose proof (startShellExecution_ends_the_current_execution
                [StartShellExecution a_commandLine None]
                {| cl_value := str "pwd"; cl_confidence := Low; cl_isTrusted := false |}
                None 0%nat eq_refl) as (_ & H1 & H2 & _).
  split; [exact H1 | exact H2].
Defined.

(** ** At most one end event *)

Lemma endExecution_microtasks cl e rt :
  exists ms,
    microtasks (InternalTerminalShellExecution.endExecution cl e rt).2 = microtasks rt ++ ms.
Proof.
  unfold InternalTerminalShellExecution.endExecution. simpl.
  destruct (InternalTerminalShellExecution._dataStream e) as [stream|]; simpl.
  - unfold ShellExecutionDataStream.endExecution, Barrier_open.
    destruct (streams rt !! stream ≫= _barrier) as [b|]; simpl.
    + destruct (barriers rt !! b) as [x|]; simpl.
      * by eexists.
      * exists []. by rewrite app_nil_r.
    + exists []. by rewrite app_nil_r.
  - exists []. by rewrite app_nil_r.
Qed.

Lemma call_endExecution_microtasks cl id s :
  exists ms,
    microtasks (InternalTerminalShellIntegration.runtime
                  (InternalTerminalShellIntegration.call_execution
                     (InternalTerminalShellExecution.endExecution cl) id s))
    = microtasks (InternalTerminalShellIntegration.runtime s) ++ ms.
Proof.
  unfold InternalTerminalShellIntegration.call_execution.
  destruct (InternalTerminalShellIntegration.executions s !! id) as [e|].
  - destruct (endExecution_microtasks cl e (InternalTerminalShellIntegration.runtime s))
      as [ms Hms].
    destruct (InternalTerminalShellExecution.endExecution cl e _) as [e' rt'].
    simpl in *. by exists ms.
  - exists []. by rewrite app_nil_r.
Qed.

Lemma runMicrotask_stale k s awaited e exitCode :
  microtasks (InternalTerminalShellIntegration.runtime s) !! k
    = Some (EndContinuation awaited e exitCode) ->
  InternalTerminalShellIntegration._currentExecution s ≠ Some e ->
  (InternalTerminalShellIntegration.runMicrotask k s).2 = []
  /\ InternalTerminalShellIntegration._currentExecution
       (InternalTerminalShellIntegration.runMicrotask k s).1
     = InternalTerminalShellIntegration._currentExecution s.
Proof.
  intros Hk Hne. unfold InternalTerminalShellIntegration.runMicrotask. rewrite Hk.
  destruct (resolved _ awaited); [|done]. simpl.
  rewrite bool_decide_eq_false_2 by done. done.
Qed.

Lemma force_end_microtasks s :
  exists ms,
    microtasks (InternalTerminalShellIntegration.runtime (force_end s).1)
    = microtasks (InternalTerminalShellIntegration.runtime s) ++ ms.
Proof.
  unfold force_end.
  destruct (InternalTerminalShellIntegration._currentExecution s) as [c|]; simpl.
  - apply call_endExecution_microtasks.
  - exists []. by rewrite app_nil_r.
Qed.

Lemma startShellExecution_runtime commandLine cwd s :
  InternalTerminalShellIntegration.runtime
    (InternalTerminalShellIntegration.startShellExecution commandLine cwd s).1.2
  = InternalTerminalShellIntegration.runtime (force_end s).1.
Proof.
  destruct (startShellExecution_correlates commandLine cwd s) as (picked & rest & _ & Hs).
  rewrite Hs. by destruct picked.
Qed.

Lemma endShellExecution_current cl exitCode s e :
  InternalTerminalShellIntegration._currentExecution s = Some e ->
  InternalTerminalShellIntegration._currentExecution
    (InternalTerminalShellIntegration.endShellExecution cl exitCode s) = Some e
  /\ exists ms awaited,
       microtasks (InternalTerminalShellIntegration.runtime
                     (InternalTerminalShellIntegration.endShellExecution cl exitCode s))
       = microtasks (InternalTerminalShellIntegration.runtime s) ++ ms
         ++ [EndContinuation awaited e exitCode].
Proof.
  intros Hc. unfold InternalTerminalShellIntegration.endShellExecution. rewrite Hc.
  pose proof (call_execution_shape (InternalTerminalShellExecution.endExecution cl) e s)
    as (_ & H2 & _).
  destruct (call_endExecution_microtasks cl e s) as [ms Hms].
  simpl. split; [by rewrite H2|].
  eexists ms, _. rewrite Hms. by rewrite <- app_assoc.
Qed.

(** C5: in every trace of an integration, at most one end event is seen
    for each execution.  The callback behind [flush()] fires nothing and
    leaves the current execution as it is when the execution it captured
    is no longer the current one; in particular, when an execution is
    current and [endShellExecution] is followed by [startShellExecution]
    before the callback runs, the start fires the end event (without
    exit code) and the callback, still in the queue, then fires none. *)
Theorem at_most_one_end_event (trace : list Action) (e : nat) :
  (end_events e (run trace InternalTerminalShellIntegration.new).2 <= 1)%nat
  /\ (forall s k awaited exitCode,
        microtasks (InternalTerminalShellIntegration.runtime s) !! k
          = Some (EndContinuation awaited e exitCode) ->
        InternalTerminalShellIntegration._currentExecution s ≠ Some e ->
        (InternalTerminalShellIntegration.runMicrotask k s).2 = []
        /\ InternalTerminalShellIntegration._currentExecution
             (InternalTerminalShellIntegration.runMicrotask k s).1
           = InternalTerminalShellIntegration._currentExecution s)
  /\ (forall reported exitCode commandLine cwd,
        let s := (run trace InternalTerminalShellIntegration.new).1 in
        InternalTerminalShellIntegration._currentExecution s = Some e ->
        let s1 := InternalTerminalShellIntegration.endShellExecution reported exitCode s in
        let started := InternalTerminalShellIntegration.startShellExecution commandLine cwd s1 in
        In (InternalTerminalShellIntegration.DidRequestEndExecution e None) started.2
        /\ InternalTerminalShellIntegration._currentExecution started.1.2 ≠ Some e
        /\ exists k awaited,
             microtasks (InternalTerminalShellIntegration.runtime started.1.2) !! k
               = Some (EndContinuation awaited e exitCode)
             /\ (InternalTerminalShellIntegration.runMicrotask k started.1.2).2 = []).
Proof.
  destruct (reachable_inv trace) as (Hwf & Hgone & Honce).
  split; [apply Honce|]. split.
  - intros s k awaited exitCode. apply runMicrotask_stale.
  - intros reported exitCode commandLine cwd s Hc s1 started.
    destruct (endShellExecution_current reported exitCode s e Hc)
      as (Hc1 & ms & awaited & Hms). fold s1 in Hc1, Hms.
    assert (wf s1) as Hwf1.
    { pose proof (step_transition (EndShellExecution reported exitCode) s) as Ht.
      simpl in Ht. fold s1 in Ht.
      pose proof (transition_inv _ _ _ _ Ht (conj Hwf (conj Hgone Honce))) as (H & _).
      exact H. }
    destruct (start_while_current s1 commandLine cwd e Hwf1 Hc1)
      as (Hfired & Hcur & Hne & _). fold started in Hfired, Hcur, Hne.
    assert (InternalTerminalShellIntegration._currentExecution started.1.2 ≠ Some e)
      as Hne'.
    { rewrite Hcur. intros Heq. by injection Heq. }
    split; [|split; [exact Hne'|]].
    + rewrite Hfired. apply in_or_app. right. by left.
    + destruct (force_end_microtasks s1) as [ms' Hms'].
      exists (length (microtasks (InternalTerminalShellIntegration.runtime s) ++ ms)), awaited.
      assert (microtasks (InternalTerminalShellIntegration.runtime started.1.2)
                !! length (microtasks (InternalTerminalShellIntegration.runtime s) ++ ms)
              = Some (EndContinuation awaited e exitCode)) as Hk.
      { subst started. rewrite startShellExecution_runtime, Hms', Hms.
        rewrite (app_assoc _ ms), <- (app_assoc _ [_] ms').
        by apply (list_lookup_middle _ ms'). }
      split; [exact Hk|].
      by apply (runMicrotask_stale _ _ awaited e exitCode).
Qed.

(** ** The end event and the readers *)

(** C1 (the code at a failing input): [ls] runs, a consumer reads its
    output, the executor of its iterable starts, the reader receives a
    chunk, and the shell reports the end.
    [endShellExecution] leaves the callback of the end event in the
    queue waiting for nothing, because [endExecution] has already torn
    the stream down; with the queue run in order the end event is seen
    while the reader has not finished, and the reader finishes only
    afterwards.  With two chunks emitted before the end, a chunk reaches
    the reader after the end event. *)
Theorem end_event_before_reader_finishes :
  let a := str "a" in
  let b := str "b" in
  let ended :=
    [StartShellExecution a_commandLine None; Read 0; RunMicrotask 0; EmitData a; Next 0;
     EndShellExecution (Some a_commandLine) (Some 0%Z)] in
  let trace := ended ++ [RunMicrotask 0; RunMicrotask 0] in
  let end_event :=
    Event (InternalTerminalShellIntegration.DidRequestEndExecution 0 (Some 0%Z)) in
  microtasks (InternalTerminalShellIntegration.runtime
                (run ended InternalTerminalShellIntegration.new).1)
    = [ExecutorResume 0; EndContinuation None 0 (Some 0%Z)]
  /\ (run trace InternalTerminalShellIntegration.new).2
     = [Event (InternalTerminalShellIntegration.DidStartTerminalShellExecution 0);
        Attached 0 (Ref 0); Yielded 0 a; end_event]
  /\ (run (trace ++ [Next 0]) InternalTerminalShellIntegration.new).2
     = [Event (InternalTerminalShellIntegration.DidStartTerminalShellExecution 0);
        Attached 0 (Ref 0); Yielded 0 a; end_event; Finished 0]
  /\ ¬ drain_before_end (run trace InternalTerminalShellIntegration.new).2
  /\ (run [StartShellExecution a_commandLine None; Read 0; RunMicrotask 0;
           EmitData a; EmitData b;
           EndShellExecution (Some a_commandLine) (Some 0%Z); Next 0;
           RunMicrotask 0; RunMicrotask 0; Next 0; Next 0]
          InternalTerminalShellIntegration.new).2
     = [Event (InternalTerminalShellIntegration.DidStartTerminalShellExecution 0);
        Attached 0 (Ref 0); Yielded 0 a; end_event; Yielded 0 b; Finished 0].
Proof.
  intros a b ended trace end_event.
  split; [reflexivity|]. split; [reflexivity|]. split; [reflexivity|].
  split; [|reflexivity].
  intros Hdrain.
  specialize (Hdrain
    [Event (InternalTerminalShellIntegration.DidStartTerminalShellExecution 0);
     Attached 0 (Ref 0); Yielded 0 a]
    0%nat (Some 0%Z) [] 0%nat eq_refl).
  assert (Attached 0 (Ref 0)
          ∈ [Event (InternalTerminalShellIntegration.DidStartTerminalShellExecution 0);
             Attached 0 (Ref 0); Yielded 0 a]) as Hatt.
  { apply elem_of_cons. right. apply elem_of_cons. by left. }
  apply Hdrain in Hatt.
  repeat (apply elem_of_cons in Hatt as [Hatt|Hatt]; [discriminate|]).
  by apply elem_of_nil in Hatt.
Qed.

(** ** Signals for a terminal that has no integration *)

Ltac unfold_handlers :=
  unfold ExtHostTerminalShellIntegration.shellExecutionStart,
    ExtHostTerminalShellIntegration.shellIntegrationChange,
    ExtHostTerminalShellIntegration.shellExecutionEnd,
    ExtHostTerminalShellIntegration.shellExecutionData,
    ExtHostTerminalShellIntegration.shellEnvChange,
    ExtHostTerminalShellIntegration.cwdChange,
    ExtHostTerminalShellIntegration.closeTerminal,
    ExtHostTerminalShellIntegration.setHasRichCommandDetection,
    ExtHostTerminalShellIntegration.with_integration.

(** C9, as amended: for a terminal handle that has no integration yet, a
    signal on a handle that resolves to no terminal changes nothing at
    all; on a handle of a live terminal, [$shellIntegrationChange] and
    [$shellExecutionStart] create the integration, with its three event
    listeners and the disposal hook in its store, assign it to the
    terminal, fire the change event, and the start is then applied to
    the new integration; every other signal changes nothing, also for a
    live terminal. *)
Theorem signal_without_integration
    (h : ExtHostTerminalShellIntegration.t) (instanceId : nat)
    (sig : ExtHostTerminalShellIntegration.Signal) :
  ExtHostTerminalShellIntegration._activeShellIntegrations h !! instanceId = None ->
  match ExtHostTerminalShellIntegration.getTerminalById instanceId h with
  | None => ExtHostTerminalShellIntegration.handle instanceId sig h = h
  | Some terminal =>
      let hooked :=
        {| ExtHostTerminalShellIntegration.shellIntegration := true;
           ExtHostTerminalShellIntegration.onWillDispose :=
             S (ExtHostTerminalShellIntegration.onWillDispose terminal) |} in
      let created s' fired :=
        {| ExtHostTerminalShellIntegration._extHostTerminalService :=
             <[instanceId := hooked]>
               (ExtHostTerminalShellIntegration._extHostTerminalService h);
           ExtHostTerminalShellIntegration._activeShellIntegrations :=
             <[instanceId := {| ExtHostTerminalShellIntegration.integration := s';
                                ExtHostTerminalShellIntegration.store := all_listeners;
                                ExtHostTerminalShellIntegration._terminal := instanceId |}]>
               (ExtHostTerminalShellIntegration._activeShellIntegrations h);
           ExtHostTerminalShellIntegration.emitted :=
             ExtHostTerminalShellIntegration.emitted h
             ++ ExtHostTerminalShellIntegration.OnDidChangeTerminalShellIntegration instanceId
                :: fired |} in
      match sig with
      | ExtHostTerminalShellIntegration.ShellIntegrationChange =>
          ExtHostTerminalShellIntegration.handle instanceId sig h
          = created InternalTerminalShellIntegration.new []
      | ExtHostTerminalShellIntegration.ShellExecutionStart v c tr cwd =>
          let commandLine := {| cl_value := v; cl_confidence := c; cl_isTrusted := tr |} in
          ExtHostTerminalShellIntegration.handle instanceId sig h
          = created
              (InternalTerminalShellIntegration.startShellExecution commandLine cwd
                 InternalTerminalShellIntegration.new).1.2
              [ExtHostTerminalShellIntegration.OnDidStartTerminalShellExecution instanceId 0]
      | _ => ExtHostTerminalShellIntegration.handle instanceId sig h = h
      end
  end.
Proof.
  intros Hnone.
  destruct (ExtHostTerminalShellIntegration.getTerminalById instanceId h)
    as [terminal|] eqn:Et.
  - destruct sig as [|v c tr cwd|v c tr exitCode|data|keys values tr|cwd| |value]; simpl;
      unfold_handlers;
      rewrite ?Hnone, ?Et; simpl; rewrite ?Hnone; try reflexivity.
    + rewrite lookup_insert_eq.
      destruct c; simpl; rewrite insert_insert_eq, <- app_assoc; reflexivity.
    + rewrite delete_id by done. by destruct h.
  - destruct sig as [|v c tr cwd|v c tr exitCode|data|keys values tr|cwd| |value]; simpl;
      unfold_handlers;
      rewrite ?Hnone, ?Et; simpl; rewrite ?Hnone; try reflexivity.
    rewrite delete_id by done. by destruct h.
Qed.

(** C9 at a concrete state: terminal 1 is live and has no integration;
    the start of [ls] creates it and is applied to it, and a start on
    the unknown handle 2 changes nothing. *)
Lemma signal_without_integration_witness :
  ExtHostTerminalShellIntegration.emitted
    (ExtHostTerminalShellIntegration.handle 1
       (ExtHostTerminalShellIntegration.ShellExecutionStart (str "ls") High true None)
       a_host)
  = [ExtHostTerminalShellIntegration.OnDidChangeTerminalShellIntegration 1;
     ExtHostTerminalShellIntegration.OnDidStartTerminalShellExecution 1 0]
  /\ ExtHostTerminalShellIntegration.handle 2
       (ExtHostTerminalShellIntegration.ShellExecutionStart (str "ls") High true None)
       a_host
     = a_host.
Proof.
  split.
  - pose proof (signal_without_integration a_host 1
                  (ExtHostTerminalShellIntegration.ShellExecutionStart (str "ls") High true None)
                  eq_refl) as H.
    change (ExtHostTerminalShellIntegration.getTerminalById 1 a_host)
      with (Some {| ExtHostTerminalShellIntegration.shellIntegration := false;
                    ExtHostTerminalShellIntegration.onWillDispose := 0 |}) in H.
    cbv zeta in H. rewrite H. reflexivity.
  - exact (signal_without_integration a_host 2
             (ExtHostTerminalShellIntegration.ShellExecutionStart (str "ls") High true None)
             eq_refl).
Defined.

(** C9 as stated fails: terminal 1 is live and has no integration, and
    an environment change for it creates none and emits nothing. *)
Lemma envChange_creates_no_integration :
  let h := ExtHostTerminalShellIntegration.handle 1
             (ExtHostTerminalShellIntegration.ShellEnvChange [str "PATH"] [str "/bin"] true)
             a_host in
  ExtHostTerminalShellIntegration.getTerminalById 1 a_host
    = Some {| ExtHostTerminalShellIntegration.shellIntegration := false;
              ExtHostTerminalShellIntegration.onWillDispose := 0 |}
  /\ ExtHostTerminalShellIntegration._activeShellIntegrations a_host !! 1%nat = None
  /\ ExtHostTerminalShellIntegration._activeShellIntegrations h !! 1%nat = None
  /\ ExtHostTerminalShellIntegration.emitted h = [].
Proof. repeat split. Qed.

(** ** The examples of the specification *)

(** High-confidence exact match: with [ls] and [pwd] pending, a start of
    [pwd] selects the second and leaves the first pending. *)
Example high_confidence_exact_match :
  let started :=
    InternalTerminalShellIntegration.startShellExecution
      {| cl_value := str "pwd"; cl_confidence := High; cl_isTrusted := true |} None
      pending_ls_pwd in
  InternalTerminalShellIntegration._activeExecutions pending_ls_pwd = [0; 1]%nat
  /\ started.1.1 = 1%nat
  /\ InternalTerminalShellIntegration._activeExecutions started.1.2 = [0%nat].
Proof. repeat split. Qed.

(** Low-confidence FIFO fallback: a start with another text selects the
    head of the queue. *)
Example low_confidence_takes_the_head :
  let started :=
    InternalTerminalShellIntegration.startShellExecution
      {| cl_value := str "???"; cl_confidence := Low; cl_isTrusted := true |} None
      pending_ls_pwd in
  started.1.1 = 0%nat
  /\ InternalTerminalShellIntegration._activeExecutions started.1.2 = [1%nat].
Proof. repeat split. Qed.

(** Unregistered execution synthesis: with nothing pending, a start
    creates an execution with the reported working directory. *)
Example unregistered_execution_is_created :
  let top := {| cl_value := str "top"; cl_confidence := High; cl_isTrusted := true |} in
  let started :=
    InternalTerminalShellIntegration.startShellExecution top (Some a_uri)
      InternalTerminalShellIntegration.new in
  InternalTerminalShellIntegration._currentExecution started.1.2 = Some 0%nat
  /\ InternalTerminalShellIntegration.executions started.1.2
     = [InternalTerminalShellExecution.new top (Some a_uri)].
Proof. repeat split. Qed.

(** An argument with a space is quoted, one with a quote character is
    not. *)
Example executeCommand_quoting :
  executeCommand_commandLineValue (str "echo") (Some [str "a b"; str "c"; str "d 'e"])
  = str "echo " ++ [34] ++ str "a b" ++ [34] ++ str " c d 'e".
Proof. reflexivity. Qed.

(** A non-breaking space counts as whitespace. *)
Example executeCommand_quotes_nbsp :
  executeCommand_commandLineValue (str "echo") (Some [[97; 160; 98]])
  = str "echo " ++ [34; 97; 160; 98; 34].
Proof. reflexivity. Qed.

(** A superseded execution gets one end event: the start fires it and
    the callback of the earlier end fires nothing. *)
Example superseded_end_is_suppressed :
  (run [StartShellExecution a_commandLine None;
        EndShellExecution (Some a_commandLine) (Some 0%Z);
        StartShellExecution a_commandLine None;
        RunMicrotask 0]
       InternalTerminalShellIntegration.new).2
  = [Event (InternalTerminalShellIntegration.DidStartTerminalShellExecution 0);
     Event (InternalTerminalShellIntegration.DidRequestEndExecution 0 None);
     Event (InternalTerminalShellIntegration.DidStartTerminalShellExecution 1)].
Proof. reflexivity. Qed.

(** * Further properties *)

(** ** The order of start and end events *)

Lemma step_moves a s : moves s (step a s).1 (step a s).2.
Proof.
  destruct a as [exe args | cl cwd | cl exitCode | data | keys values tr | cwd | value
                | execution | it | k]; simpl.
  - unfold InternalTerminalShellIntegration.executeCommand,
      InternalTerminalShellIntegration.requestNewShellExecution. simpl.
    apply moves_register; simpl; try done; [|by repeat constructor].
    by rewrite length_app, Nat.add_comm.
  - destruct (startShellExecution_correlates cl cwd s) as (picked & rest & Hc & Hs).
    rewrite Hs. clear Hs.
    apply correlates_permutation in Hc.
    pose proof (force_end_shape s) as (Ha & _ & Hl & _).
    destruct picked as [e|]; simpl; rewrite fmap_app.
    + by apply (moves_start _ _ (Some e) rest e).
    + apply (moves_start _ _ None rest); simpl; try done.
      split; [done|]. split; [done|]. by rewrite length_app, Hl, Nat.add_comm.
  - unfold InternalTerminalShellIntegration.endShellExecution.
    destruct (InternalTerminalShellIntegration._currentExecution s) as [c|] eqn:Ec; simpl.
    + pose proof (call_execution_shape (InternalTerminalShellExecution.endExecution cl) c s)
        as (H1 & H2 & H3 & _).
      apply moves_quiet; simpl; done.
    + still.
  - unfold InternalTerminalShellIntegration.emitData.
    destruct (InternalTerminalShellIntegration._currentExecution s) as [c|] eqn:Ec;
      [destruct (InternalTerminalShellIntegration.executions s !! c)|]; still.
  - still.
  - unfold InternalTerminalShellIntegration.setCwd.
    match goal with |- context [if ?b then _ else _] => destruct b end; still.
  - unfold InternalTerminalShellIntegration.setHasRichCommandDetection.
    match goal with |- context [if ?b then _ else _] => destruct b end; still.
  - unfold InternalTerminalShellIntegration.read.
    destruct (InternalTerminalShellIntegration.executions s !! execution) as [e|]; simpl.
    + destruct (InternalTerminalShellExecution.read e _) as [[r e'] rt']. simpl.
      apply moves_quiet; simpl; try done; try (by rewrite length_insert); by repeat constructor.
    + still.
  - destruct (iterate it _) as [[chunk| |] rt']; still.
  - unfold InternalTerminalShellIntegration.runMicrotask.
    destruct (microtasks _ !! k) as [[stream it b|it|awaited e exitCode]|]; simpl.
    + still.
    + still.
    + destruct (resolved _ awaited); simpl; [|still].
      destruct (bool_decide _) eqn:Eb; simpl.
      * apply bool_decide_eq_true in Eb. simpl in Eb. by apply moves_end.
      * still.
    + still.
Qed.

Lemma running_after_app seen1 : forall running seen2,
  running_after running (seen1 ++ seen2)
  = running_after running seen1 ≫= fun r => running_after r seen2.
Proof.
  induction seen1 as [|o seen1 IH]; intros running seen2; [done|].
  destruct o as [[e|e c| | | |]| | |]; simpl; try apply IH.
  - destruct running; [done|apply IH].
  - destruct (bool_decide _); [apply IH|done].
Qed.

Lemma running_after_no_lifecycle seen : forall running,
  Forall no_lifecycle seen -> running_after running seen = Some running.
Proof.
  induction seen as [|o seen IH]; intros running H; [done|].
  apply Forall_cons in H as [Ho H].
  destruct o as [[e|e c| | | |]| | |]; simpl in *; try done; by apply IH.
Qed.

Lemma running_after_force_end s :
  running_after (InternalTerminalShellIntegration._currentExecution s)
                (Event <$> (force_end s).2) = Some None.
Proof.
  unfold force_end.
  destruct (InternalTerminalShellIntegration._currentExecution s) as [c|]; [|done].
  destruct (InternalTerminalShellIntegration._hasRichCommandDetection s); simpl;
    by rewrite bool_decide_eq_true_2.
Qed.

Lemma moves_running s s' shown :
  moves s s' shown ->
  running_after (InternalTerminalShellIntegration._currentExecution s) shown
  = Some (InternalTerminalShellIntegration._currentExecution s').
Proof.
  intros [shown' _ Hc _ Hq | shown' _ Hc _ Hq | picked rest current _ _ Hc | e c Hc Hc' _ _].
  - rewrite Hc. by apply running_after_no_lifecycle.
  - rewrite Hc. by apply running_after_no_lifecycle.
  - rewrite running_after_app, running_after_force_end. simpl. by rewrite Hc.
  - rewrite Hc, Hc'. simpl. by rewrite bool_decide_eq_true_2.
Qed.

Lemma run_running trace : forall s,
  running_after (InternalTerminalShellIntegration._currentExecution s) (run trace s).2
  = Some (InternalTerminalShellIntegration._currentExecution (run trace s).1).
Proof.
  induction trace as [|a trace IH]; intros s; [done|].
  rewrite run_cons. simpl. rewrite running_after_app.
  rewrite (moves_running _ _ _ (step_moves a s)). simpl. apply IH.
Qed.

Lemma running_after_started seen : forall running e,
  running_after running seen = Some (Some e) ->
  running = Some e
  \/ Event (InternalTerminalShellIntegration.DidStartTerminalShellExecution e) ∈ seen.
Proof.
  induction seen as [|o seen IH]; intros running e H; simpl in H.
  - left. by injection H.
  - assert (forall r, running_after r seen = Some (Some e) ->
              r = running ->
              running = Some e
              \/ Event (InternalTerminalShellIntegration.DidStartTerminalShellExecution e)
                 ∈ o :: seen) as Hskip.
    { intros r Hr ->. destruct (IH _ _ Hr) as [?|?]; [by left|right; by right]. }
    destruct o as [[e'|e' c| | | |]| | |]; simpl in H; try (by apply (Hskip running)).
    + destruct running; [discriminate|].
      destruct (IH _ _ H) as [Heq|Hin]; right; [injection Heq as ->; by left | by right].
    + destruct (bool_decide _); [|discriminate].
      destruct (IH _ _ H) as [Heq|Hin]; [discriminate | right; by right].
Qed.

Lemma running_after_prefix seen1 seen2 running r :
  running_after running (seen1 ++ seen2) = Some r ->
  exists r1, running_after running seen1 = Some r1 /\ running_after r1 seen2 = Some r.
Proof.
  rewrite running_after_app.
  destruct (running_after running seen1) as [r1|]; [|discriminate].
  simpl. intros H. by exists r1.
Qed.

Lemma alternation_start_before_end seen r :
  running_after None seen = Some r -> start_before_end seen.
Proof.
  intros H before e exitCode after ->.
  apply running_after_prefix in H as (r1 & H1 & H2).
  simpl in H2. destruct (bool_decide (r1 = Some e)) eqn:Eb; [|discriminate].
  apply bool_decide_eq_true in Eb. subst r1.
  destruct (running_after_started _ _ _ H1) as [?|?]; [discriminate|done].
Qed.

(** X1: the start and end events that an observer of an integration sees
    alternate.  After every sequence of calls, consumer reads and
    microtasks, a start event has been fired only while no execution was
    running and an end event only for the execution that was running, and
    the execution that the events seen leave running is the current
    execution of the integration; so every end event of an execution
    stands after the start event of that execution. *)
Theorem lifecycle_events_alternate (trace : list Action) :
  let seen := (run trace InternalTerminalShellIntegration.new).2 in
  running_after None seen
  = Some (InternalTerminalShellIntegration._currentExecution
            (run trace InternalTerminalShellIntegration.new).1)
  /\ start_before_end seen.
Proof.
  intros seen.
  pose proof (run_running trace InternalTerminalShellIntegration.new) as H.
  split; [exact H|]. by eapply alternation_start_before_end.
Qed.

Lemma start_events_app e seen1 seen2 :
  start_events e (seen1 ++ seen2) = (start_events e seen1 + start_events e seen2)%nat.
Proof. unfold start_events. by rewrite List.filter_app, length_app. Qed.

Lemma start_events_no_lifecycle e seen :
  Forall no_lifecycle seen -> start_events e seen = 0%nat.
Proof.
  unfold start_events. induction seen as [|o seen IH]; intros H; [done|].
  apply Forall_cons in H as [Ho H].
  destruct o as [[e'|e' c| | | |]| | |]; simpl in *; try done; by apply IH.
Qed.

Lemma start_events_force_end e s :
  start_events e (Event <$> (force_end s).2) = 0%nat.
Proof.
  unfold force_end.
  destruct (InternalTerminalShellIntegration._currentExecution s) as [c|]; [|done].
  by destruct (InternalTerminalShellIntegration._hasRichCommandDetection s).
Qed.

Lemma start_events_one e current :
  start_events e
    [Event (InternalTerminalShellIntegration.DidStartTerminalShellExecution current)]
  = if decide (current = e) then 1%nat else 0%nat.
Proof.
  unfold start_events. simpl. unfold bool_decide.
  destruct (decide_rel eq current e), (decide (current = e)); done.
Qed.

Lemma moves_started s s' seen shown :
  moves s s' shown -> wf s ->
  started_are_not_pending s seen /\ (forall e, (start_events e seen <= 1)%nat) ->
  started_are_not_pending s' (seen ++ shown)
  /\ (forall e, (start_events e (seen ++ shown) <= 1)%nat).
Proof.
  intros Hm [Hb Hnd Hcur] [Hgone Honce].
  destruct Hm as [shown Ha Hc Hl Hq | shown Ha Hc Hl Hq
                 | picked rest current Hp Ha Hc | e0 c Hc Hc' Ha Hl].
  - split.
    + intros e He. rewrite start_events_app, (start_events_no_lifecycle _ _ Hq),
        Nat.add_0_r in He. rewrite Ha, Hl. by apply Hgone.
    + intros e. rewrite start_events_app, (start_events_no_lifecycle _ _ Hq), Nat.add_0_r.
      apply Honce.
  - split.
    + intros e He. rewrite start_events_app, (start_events_no_lifecycle _ _ Hq),
        Nat.add_0_r in He. destruct (Hgone e He) as [H1 H2].
      rewrite Ha, Hl. split; [lia|].
      intros Hin. apply elem_of_app in Hin as [Hin|Hin]; [done|].
      apply list_elem_of_singleton in Hin. lia.
    + intros e. rewrite start_events_app, (start_events_no_lifecycle _ _ Hq), Nat.add_0_r.
      apply Honce.
  - assert (forall e, start_events e
              (seen ++ (Event <$> (force_end s).2)
               ++ [Event (InternalTerminalShellIntegration.DidStartTerminalShellExecution
                            current)])
            = (start_events e seen + if decide (current = e) then 1 else 0)%nat) as Hcount.
    { intros e. by rewrite !start_events_app, start_events_force_end, start_events_one. }
    assert (start_events current seen = 0%nat) as Hnew.
    { destruct (start_events current seen) as [|n] eqn:En; [done|].
      assert (0 < start_events current seen)%nat as Hpos by lia.
      destruct (Hgone current Hpos) as [H1 H2].
      destruct picked as [e|].
      - destruct Hp as (Hp & -> & _). exfalso. apply H2. rewrite Hp. by left.
      - destruct Hp as (_ & -> & _). lia. }
    assert (rest ⊆ InternalTerminalShellIntegration._activeExecutions s) as Hsub.
    { destruct picked as [e|].
      - destruct Hp as (Hp & _). intros x Hx. rewrite Hp. by right.
      - destruct Hp as (-> & _). done. }
    assert ((length (InternalTerminalShellIntegration.executions s)
             <= length (InternalTerminalShellIntegration.executions s'))%nat) as Hle.
    { destruct picked; destruct Hp as (_ & _ & ->); lia. }
    assert ((current ∉ rest)
            /\ (current < length (InternalTerminalShellIntegration.executions s'))%nat)
      as [Hfresh Hlt].
    { destruct picked as [e|].
      - destruct Hp as (Hp & -> & Hl). rewrite Hp in Hnd.
        apply NoDup_cons in Hnd as [H1 H2]. split; [done|].
        rewrite Hl. rewrite Forall_forall in Hb. apply Hb. rewrite Hp. by left.
      - destruct Hp as (-> & -> & Hl). split; [|lia].
        intros Hin. rewrite Forall_forall in Hb. apply Hb in Hin. lia. }
    split.
    + intros e He. rewrite Hcount in He. rewrite Ha.
      destruct (decide (current = e)) as [<-|Hne]; [done|].
      rewrite Nat.add_0_r in He. destruct (Hgone e He) as [H1 H2].
      split; [lia|]. intros Hin. by apply Hsub in Hin.
    + intros e. rewrite Hcount. destruct (decide (current = e)) as [<-|Hne].
      * rewrite Hnew. lia.
      * rewrite Nat.add_0_r. apply Honce.
  - split.
    + intros e He. rewrite start_events_app in He. simpl in He.
      change (start_events e [Event (InternalTerminalShellIntegration.DidRequestEndExecution e0 c)])
        with 0%nat in He.
      rewrite Nat.add_0_r in He. rewrite Ha, Hl. by apply Hgone.
    + intros e. rewrite start_events_app.
      change (start_events e [Event (InternalTerminalShellIntegration.DidRequestEndExecution e0 c)])
        with 0%nat.
      rewrite Nat.add_0_r. apply Honce.
Qed.

Lemma run_started trace : forall s seenE seen,
  inv s seenE ->
  started_are_not_pending s seen /\ (forall e, (start_events e seen <= 1)%nat) ->
  started_are_not_pending (run trace s).1 (seen ++ (run trace s).2)
  /\ (forall e, (start_events e (seen ++ (run trace s).2) <= 1)%nat).
Proof.
  induction trace as [|a trace IH]; intros s seenE seen Hinv H.
  - simpl. by rewrite app_nil_r.
  - rewrite run_cons. simpl. rewrite app_assoc.
    apply (IH _ (seenE ++ (step a s).2)).
    + eapply transition_inv; [apply step_transition | done].
    + destruct Hinv as (Hwf & _).
      by apply (moves_started s _ seen _ (step_moves a s)).
Qed.

(** X2: an execution is started at most once: whatever happens to an
    integration, at most one start event is fired for any execution
    object. *)
Theorem at_most_one_start_event (trace : list Action) (e : nat) :
  (start_events e (run trace InternalTerminalShellIntegration.new).2 <= 1)%nat.
Proof.
  assert (started_are_not_pending InternalTerminalShellIntegration.new []
          /\ (forall e, (start_events e [] <= 1)%nat)) as H0.
  { split; [intros e0 He0; unfold start_events in He0; simpl in He0; lia|].
    intros e0. unfold start_events. simpl. lia. }
  apply (run_started trace _ [] [] inv_new H0).
Qed.

(** ** The readers of the executions *)

Lemma call_endExecution_inv cl c s :
  session_inv s ->
  session_inv (InternalTerminalShellIntegration.call_execution
                 (InternalTerminalShellExecution.endExecution cl) c s).
Proof.
  unfold session_inv, InternalTerminalShellIntegration.call_execution. intros H.
  destruct (InternalTerminalShellIntegration.executions s !! c) as [x|] eqn:Hx; [|done].
  pose proof (heap_inv_endExecution _ _ c x cl H Hx) as H'.
  by destruct (InternalTerminalShellExecution.endExecution cl x _) as [x' rt'].
Qed.

Lemma force_end_inv s : session_inv s -> session_inv (force_end s).1.
Proof.
  intros H. unfold force_end.
  destruct (InternalTerminalShellIntegration._currentExecution s) as [c|]; [|done].
  by apply call_endExecution_inv.
Qed.

Lemma call_endExecution_flush cl c s :
  let s1 := InternalTerminalShellIntegration.call_execution
              (InternalTerminalShellExecution.endExecution cl) c s in
  InternalTerminalShellIntegration.executions s1 !! c
  ≫= (fun e => InternalTerminalShellExecution.flush
                 e (InternalTerminalShellIntegration.runtime s1)) = None.
Proof.
  unfold InternalTerminalShellIntegration.call_execution.
  destruct (InternalTerminalShellIntegration.executions s !! c) as [x|] eqn:Hx.
  - destruct (InternalTerminalShellExecution.endExecution cl x _) as [x' rt'] eqn:E.
    simpl. rewrite list_lookup_insert_eq by (by eapply lookup_lt_Some). simpl.
    unfold InternalTerminalShellExecution.endExecution in E. by injection E as <- _.
  - simpl. by rewrite Hx.
Qed.

Lemma step_session_inv a s : session_inv s -> session_inv (step a s).1.
Proof.
  intros H.
  destruct a as [exe args | cl cwd | cl exitCode | data | keys values tr | cwd | value
                | execution | it | k]; simpl.
  - unfold InternalTerminalShellIntegration.executeCommand,
      InternalTerminalShellIntegration.requestNewShellExecution. simpl.
    by apply heap_inv_alloc.
  - destruct (startShellExecution_correlates cl cwd s) as (picked & rest & _ & Hs).
    rewrite Hs. pose proof (force_end_inv s H) as H1.
    destruct picked as [e|]; simpl; [done|]. by apply heap_inv_alloc.
  - unfold InternalTerminalShellIntegration.endShellExecution.
    destruct (InternalTerminalShellIntegration._currentExecution s) as [c|]; [|done].
    pose proof (call_endExecution_inv cl c s H) as H1.
    pose proof (call_endExecution_flush cl c s) as Hf. cbv zeta in Hf. rewrite Hf.
    unfold session_inv. simpl. by apply heap_inv_queue_end.
  - unfold InternalTerminalShellIntegration.emitData.
    destruct (InternalTerminalShellIntegration._currentExecution s) as [c|]; [|done].
    destruct (InternalTerminalShellIntegration.executions s !! c) as [x|]; [|done].
    by apply heap_inv_emitData.
  - done.
  - unfold InternalTerminalShellIntegration.setCwd.
    by match goal with |- context [if ?b then _ else _] => destruct b end.
  - unfold InternalTerminalShellIntegration.setHasRichCommandDetection.
    by match goal with |- context [if ?b then _ else _] => destruct b end.
  - unfold InternalTerminalShellIntegration.read.
    destruct (InternalTerminalShellIntegration.executions s !! execution) as [x|] eqn:Hx;
      [|done].
    pose proof (heap_inv_read _ _ execution x H Hx) as H'.
    by destruct (InternalTerminalShellExecution.read x _) as [[r x'] rt'].
  - pose proof (heap_inv_iterate _ _ it H) as H'.
    by destruct (iterate it _) as [[chunk| |] rt'].
  - unfold InternalTerminalShellIntegration.runMicrotask.
    pose proof (heap_inv_run_executor _ _ k H) as Hrun.
    destruct (microtasks _ !! k) as [[stream it b|it|awaited e exitCode]|] eqn:Hk;
      simpl; [done|done| |done].
    destruct (resolved _ awaited); simpl; [|done].
    assert (heap_inv (InternalTerminalShellIntegration.executions s)
                     (dequeue k (InternalTerminalShellIntegration.runtime s))) as H'
      by (by eapply heap_inv_dequeue).
    by destruct (bool_decide _).
Qed.

Lemma run_session_inv trace : forall s, session_inv s -> session_inv (run trace s).1.
Proof.
  induction trace as [|a trace IH]; intros s H; [done|].
  rewrite run_cons. simpl. by apply IH, step_session_inv.
Qed.

Lemma reachable_session_inv trace :
  session_inv (run trace InternalTerminalShellIntegration.new).1.
Proof. apply run_session_inv, heap_inv_init. Qed.

Lemma received_by_state rt it :
  state_of rt it = Some Initial ->
  exists r, iterables rt !! it = Some r /\ _state (iterable r) = Initial.
Proof.
  unfold state_of. destruct (iterables rt !! it) as [r|]; [|discriminate].
  simpl. intros H. injection H as H. by exists r.
Qed.

Lemma readers_of_spec h rt e it :
  it ∈ readers_of h rt e <->
  exists stream s,
    stream_of h e = Some stream /\ streams rt !! stream = Some s /\ it ∈ _emitters s.
Proof.
  unfold readers_of. split.
  - destruct (stream_of h e) as [stream|]; simpl; [|by intros ?%elem_of_nil].
    destruct (streams rt !! stream) as [s|] eqn:Hs; simpl; [|by intros ?%elem_of_nil].
    intros Hin. by exists stream, s.
  - intros (stream & s & Hso & Hs & Hin). rewrite Hso. simpl. rewrite Hs. exact Hin.
Qed.

Lemma attachments_of_spec h rt e it :
  it ∈ attachments_of h rt e <->
  exists stream s,
    stream_of h e = Some stream /\ streams rt !! stream = Some s /\ it ∈ _iterables s.
Proof.
  unfold attachments_of. split.
  - destruct (stream_of h e) as [stream|]; simpl; [|by intros ?%elem_of_nil].
    destruct (streams rt !! stream) as [s|] eqn:Hs; simpl; [|by intros ?%elem_of_nil].
    intros Hin. by exists stream, s.
  - intros (stream & s & Hso & Hs & Hin). rewrite Hso. simpl. rewrite Hs. exact Hin.
Qed.

(** An iterable that [read()] has handed out for a running execution is
    registered with its stream exactly when its executor is no longer
    queued to start. *)
Lemma registered_iff_started h rt e it :
  heap_inv h rt -> it ∈ attachments_of h rt e ->
  (it ∈ readers_of h rt e <-> it ∉ starting rt).
Proof.
  intros H Hatt0. pose proof H as H0. open_inv H0.
  apply attachments_of_spec in Hatt0 as (stream & s & Hso & Hs & Hit).
  rewrite readers_of_spec, elem_of_starting. split.
  - intros (stream' & s' & Hso' & Hs' & Hin) (stream0 & b & Hq).
    rewrite Hso in Hso'. injection Hso' as <-. rewrite Hs in Hs'. injection Hs' as <-.
    destruct (Hstart stream0 it b Hq) as (s0 & Hs0 & Hit0 & Hno0 & _).
    pose proof (Hdisj stream0 stream s0 s it Hs0 Hs Hit0 Hit) as ->.
    rewrite Hs in Hs0. by injection Hs0 as <-.
  - intros Hno. exists stream, s. split; [done|]. split; [done|].
    destruct (decide (it ∈ _emitters s)) as [Hin|Hin]; [done|].
    destruct (Hatt stream s it Hs Hit Hin) as [b Hq]. destruct Hno. by exists stream, b.
Qed.

(** X3: data reported by the shell goes to the readers registered with
    the current execution, that is, to the iterables of its stream whose
    executor has started, and to nobody else.  In every state an
    integration reaches, [emitData] appends the chunk to what each
    registered reader of the current execution has received, each such
    reader being an iterable of the store, and leaves what every other
    iterable has received as it is, also an iterable that [read()] has
    handed out for the current execution and whose executor is still
    queued to start; and no iterable is registered with two
    executions. *)
Theorem data_reaches_the_current_readers_only
    (trace : list Action) (data : JSString) (it : nat) :
  let s := (run trace InternalTerminalShellIntegration.new).1 in
  let s' := InternalTerminalShellIntegration.emitData data s in
  let h := InternalTerminalShellIntegration.executions s in
  let rt := InternalTerminalShellIntegration.runtime s in
  received_by (InternalTerminalShellIntegration.runtime s') it
  = (if decide (it ∈ current_readers s)
     then (fun chunks => chunks ++ [data]) <$> received_by rt it
     else received_by rt it)
  /\ (it ∈ current_readers s -> is_Some (received_by rt it))
  /\ (forall e e', e ≠ e' -> it ∈ readers_of h rt e -> it ∉ readers_of h rt e')
  /\ (forall c,
        InternalTerminalShellIntegration._currentExecution s = Some c ->
        it ∈ attachments_of h rt c ->
        (it ∈ current_readers s <-> it ∉ starting rt)).
Proof.
  intros s s' h rt. pose proof (reachable_session_inv trace) as Hinv.
  fold s in Hinv. unfold session_inv in Hinv. fold h rt in Hinv.
  pose proof Hinv as H0. open_inv H0.
  assert (forall c, it ∈ readers_of h rt c -> is_Some (received_by rt it)) as Hsome.
  { intros c (stream & x & Hso & Hx & Hin)%readers_of_spec.
    destruct (Hlive c stream Hso) as (x' & b & Hx' & Hb).
    rewrite Hx in Hx'. injection Hx' as <-.
    destruct (Hread stream x b it Hx Hb Hin) as [Hst _].
    apply received_by_state in Hst as (r & Hr & _).
    unfold received_by, deref. rewrite Hr. by eexists. }
  split; [|split; [|split]].
  - subst s'. unfold InternalTerminalShellIntegration.emitData, current_readers.
    fold h rt.
    destruct (InternalTerminalShellIntegration._currentExecution s) as [c|] eqn:Hc;
      [|destruct (decide (it ∈ [])) as [Hn|]; [by apply elem_of_nil in Hn | done]].
    unfold readers_of, stream_of.
    destruct (h !! c) as [x|] eqn:Hx; simpl;
      [|destruct (decide (it ∈ [])) as [Hn|]; [by apply elem_of_nil in Hn | done]].
    unfold InternalTerminalShellExecution.emitData.
    destruct (InternalTerminalShellExecution._dataStream x) as [stream|] eqn:Hds; simpl;
      [|destruct (decide (it ∈ [])) as [Hn|]; [by apply elem_of_nil in Hn | done]].
    assert (stream_of h c = Some stream) as Hso by (unfold stream_of; by rewrite Hx).
    destruct (Hlive c stream Hso) as (ds & b & Hs & Hb).
    unfold received_by, deref.
    rewrite emitData_lookup by (rewrite Hs; simpl; apply (Hemit stream ds Hs)).
    rewrite Hs. simpl.
    destruct (decide (it ∈ _emitters ds)) as [Hin|Hin]; [|done].
    destruct (Hread stream ds b it Hs Hb Hin) as [Hst _].
    apply received_by_state in Hst as (r & Hr & Hst). rewrite Hr. simpl.
    unfold emitOne. by rewrite Hst.
  - unfold current_readers. fold h rt.
    destruct (InternalTerminalShellIntegration._currentExecution s) as [c|];
      [|intros H; by apply elem_of_nil in H].
    apply Hsome.
  - intros e e' Hne (stream & x & Hso & Hx & Hin)%readers_of_spec
      (stream' & x' & Hso' & Hx' & Hin')%readers_of_spec.
    destruct (Hemit stream x Hx) as [_ Hsub]. destruct (Hemit stream' x' Hx') as [_ Hsub'].
    pose proof (Hdisj stream stream' x x' it Hx Hx' (Hsub it Hin) (Hsub' it Hin')) as <-.
    by apply Hne, (Hown e e' stream).
  - intros c Hc Hatt0. unfold current_readers. fold h rt. rewrite Hc.
    by apply registered_iff_started.
Qed.

(** ** The queue after an end signal *)

Lemma callbacks_none tasks : callbacks None tasks = ([], None).
Proof.
  induction tasks as [|[stream it b|it|a e c] tasks IH]; simpl; try done.
Qed.

Lemma callbacks_answer e tasks :
  (exists awaited exitCode, EndContinuation awaited e exitCode ∈ tasks) ->
  end_events e (Event <$> (callbacks (Some e) tasks).1) = 1%nat
  /\ (callbacks (Some e) tasks).2 = None.
Proof.
  induction tasks as [|[stream it b|it|a e' c] tasks IH]; intros (aw & code & Hin).
  - by apply elem_of_nil in Hin.
  - simpl. apply IH. apply elem_of_cons in Hin as [?|?]; [discriminate|eauto].
  - simpl. apply IH. apply elem_of_cons in Hin as [?|?]; [discriminate|eauto].
  - simpl. destruct (bool_decide (Some e = Some e')) eqn:Eb.
    + apply bool_decide_eq_true in Eb. injection Eb as <-.
      rewrite callbacks_none. simpl. unfold end_events. simpl.
      by rewrite bool_decide_eq_true_2.
    + apply bool_decide_eq_false in Eb. apply IH.
      apply elem_of_cons in Hin as [Heq|?]; [|eauto].
      injection Heq as _ <- _. done.
Qed.

Lemma callbacks_first e exitCode tasks :
  (forall awaited c, EndContinuation awaited e c ∉ tasks) ->
  forall awaited later,
  In (InternalTerminalShellIntegration.DidRequestEndExecution e exitCode)
     (callbacks (Some e) (tasks ++ EndContinuation awaited e exitCode :: later)).1.
Proof.
  induction tasks as [|[stream it b|it|a e' c] tasks IH]; intros Hno awaited later; simpl.
  - rewrite bool_decide_eq_true_2 by done. by left.
  - apply IH. intros a c Hin. apply (Hno a c). by right.
  - apply IH. intros a c Hin. apply (Hno a c). by right.
  - rewrite bool_decide_eq_false_2.
    + apply IH. intros a0 c0 Hin. apply (Hno a0 c0). by right.
    + intros Heq. injection Heq as ->. apply (Hno a c). by left.
Qed.

Lemma callbacks_resume tasks it : forall current,
  callbacks current (tasks ++ [ExecutorResume it]) = callbacks current tasks.
Proof.
  induction tasks as [|[stream it' b|it'|a e c] tasks IH]; intros current; simpl; try done.
  destruct (bool_decide (current = Some e)); [|done]. by rewrite IH.
Qed.

Lemma terminating_app rt q1 q2 :
  terminating rt (q1 ++ q2) = terminating rt q1 ++ terminating rt q2.
Proof. apply omap_app. Qed.

Lemma terminating_ext rt rt' q :
  (forall b, is_open rt' b = is_open rt b) -> terminating rt' q = terminating rt q.
Proof.
  intros H. induction q as [|[stream it b|it|a e c] q IH]; simpl; try done.
  - rewrite H. destruct (is_open rt b); by rewrite IH.
  - by rewrite IH.
Qed.

Lemma run_idle n : forall s,
  microtasks (InternalTerminalShellIntegration.runtime s) = [] ->
  run (replicate n (RunMicrotask 0)) s = (s, []).
Proof.
  induction n as [|n IH]; intros s Hq; [done|].
  change (replicate (S n) (RunMicrotask 0))
    with (RunMicrotask 0 :: replicate n (RunMicrotask 0)).
  rewrite run_cons. simpl.
  unfold InternalTerminalShellIntegration.runMicrotask. rewrite Hq. simpl.
  by rewrite IH.
Qed.

Lemma is_open_update_barrier_waiting rt b0 f b :
  (forall x, _isOpen (f x) = _isOpen x) ->
  is_open (update_barrier f b0 rt) b = is_open rt b.
Proof.
  intros Hf. unfold is_open, update_barrier. simpl.
  destruct (decide (b0 = b)) as [->|Hne].
  - rewrite list_lookup_alter_eq. destruct (barriers rt !! b); simpl; [apply Hf|done].
  - by rewrite list_lookup_alter_ne.
Qed.

(** Running the queue in order until it is empty. *)
Lemma run_queue n : forall s,
  session_inv s ->
  (length (microtasks (InternalTerminalShellIntegration.runtime s))
   + length (starting (InternalTerminalShellIntegration.runtime s)) <= n)%nat ->
  let rt := InternalTerminalShellIntegration.runtime s in
  let r := run (replicate n (RunMicrotask 0)) s in
  microtasks (InternalTerminalShellIntegration.runtime r.1) = []
  /\ (forall it,
        state_of (InternalTerminalShellIntegration.runtime r.1) it
        = if decide (it ∈ terminating rt (microtasks rt))
          then (fun _ => DoneOK) <$> state_of rt it
          else state_of rt it)
  /\ (forall it,
        received_by (InternalTerminalShellIntegration.runtime r.1) it = received_by rt it)
  /\ r.2 = Event <$> (callbacks (InternalTerminalShellIntegration._currentExecution s)
                        (microtasks rt)).1
  /\ InternalTerminalShellIntegration._currentExecution r.1
     = (callbacks (InternalTerminalShellIntegration._currentExecution s) (microtasks rt)).2.
Proof.
  induction n as [|n IH]; intros s Hinv Hlen rt r.
  - subst r rt. simpl.
    destruct (microtasks (InternalTerminalShellIntegration.runtime s)) eqn:Eq;
      [|simpl in Hlen; lia].
    done.
  - destruct (microtasks (InternalTerminalShellIntegration.runtime s)) as [|t q] eqn:Eq.
    { subst r rt. rewrite run_idle by done. simpl. rewrite Eq. done. }
    subst r. change (replicate (S n) (RunMicrotask 0))
      with (RunMicrotask 0 :: replicate n (RunMicrotask 0)).
    rewrite run_cons.
    pose proof (step_session_inv (RunMicrotask 0) s Hinv) as Hinv'.
    simpl in Hinv' |- *.
    unfold InternalTerminalShellIntegration.runMicrotask in *. fold rt in Hinv' |- *.
    assert (microtasks rt = t :: q) as Eq' by done.
    assert (length (t :: q)
            + length (omap (fun m => match m with ExecutorStart _ it _ => Some it | _ => None end)
                           (t :: q)) <= S n)%nat as Hlen'.
    { unfold starting in Hlen.
      change (InternalTerminalShellIntegration.runtime s) with rt in Hlen.
      rewrite Eq' in Hlen. exact Hlen. }
    clear Hlen.
    rewrite Eq' in *. simpl in Hinv' |- *.
    pose proof Hinv as H0. unfold session_inv in H0. fold rt in H0. open_inv H0.
    destruct t as [stream it0 b|it0|awaited e exitCode].
    + (* the executor of [it0] starts *)
      simpl in Hinv' |- *.
      destruct (Hstart stream it0 b) as (ds & Hds & _); [rewrite Eq'; by left|].
      pose proof (executor_start rt 0 stream it0 b ds) as Hex.
      rewrite Eq' in Hex. specialize (Hex eq_refl Hds). simpl in Hex.
      match type of Hinv' with session_inv ?x => set (s1 := x) in * end.
      assert (iterables (InternalTerminalShellIntegration.runtime s1) = iterables rt
              /\ (forall b', is_open (InternalTerminalShellIntegration.runtime s1) b'
                             = is_open rt b')
              /\ microtasks (InternalTerminalShellIntegration.runtime s1)
                 = q ++ (if is_open rt b then [ExecutorResume it0] else []))
        as (Hi1 & Ho1 & Hq1).
      { unfold s1. simpl. rewrite Hex. unfold is_open.
        destruct (barriers rt !! b) as [x|] eqn:Hb; [|by rewrite app_nil_r].
        destruct (_isOpen x) eqn:Hx; simpl; [done|].
        split; [done|]. split; [|by rewrite app_nil_r].
        intros b'. destruct (decide (b = b')) as [<-|Hne].
        - rewrite list_lookup_alter_eq, Hb. done.
        - by rewrite list_lookup_alter_ne. }
      destruct (IH s1 Hinv') as (H1 & H2 & H3 & H4 & H5).
      { unfold starting. rewrite Hq1. simpl in Hlen'.
        rewrite omap_app, !length_app.
        destruct (is_open rt b); unfold omap in *; simpl; lia. }
      assert (forall it, state_of (InternalTerminalShellIntegration.runtime s1) it
                         = state_of rt it) as Hst
        by (intros it; unfold state_of; by rewrite Hi1).
      split; [done|]. split; [|split; [|split]].
      * intros it. rewrite H2, Hq1, Hst.
        rewrite (terminating_ext rt _ _ Ho1), terminating_app. simpl.
        destruct (is_open rt b); simpl.
        -- destruct (decide (it ∈ terminating rt q ++ [it0])) as [Hin|Hin];
             destruct (decide (it ∈ it0 :: terminating rt q)) as [Hin'|Hin']; try done.
           ++ destruct Hin'. apply elem_of_app in Hin as [?|?%list_elem_of_singleton].
              ** by right.
              ** subst. by left.
           ++ destruct Hin. apply elem_of_app. apply elem_of_cons in Hin' as [->|?].
              ** right. by apply list_elem_of_singleton.
              ** by left.
        -- by rewrite app_nil_r.
      * intros it. rewrite H3. unfold received_by, deref. by rewrite Hi1.
      * rewrite H4, Hq1. unfold s1. simpl.
        destruct (is_open rt b); [by rewrite callbacks_resume|by rewrite app_nil_r].
      * rewrite H5, Hq1. unfold s1. simpl.
        destruct (is_open rt b); [by rewrite callbacks_resume|by rewrite app_nil_r].
    + (* the executor of [it0] resumes and returns *)
      simpl in Hinv' |- *.
      match type of Hinv' with session_inv ?x => set (s1 := x) in * end.
      assert (microtasks (InternalTerminalShellIntegration.runtime s1) = q) as Hq1.
      { unfold s1, run_executor. simpl. rewrite Eq'. simpl. by rewrite Eq'. }
      assert (InternalTerminalShellIntegration.runtime s1
              = update_iterable resolve it0 (dequeue 0 rt)) as Hrt1.
      { unfold s1, run_executor. simpl. by rewrite Eq'. }
      destruct (IH s1 Hinv') as (H1 & H2 & H3 & H4 & H5).
      { unfold starting. rewrite Hq1. simpl in Hlen'. unfold omap in *. lia. }
      assert (forall it, state_of (InternalTerminalShellIntegration.runtime s1) it
                = if decide (it = it0)
                  then (fun _ => DoneOK) <$> state_of rt it
                  else state_of rt it) as Hst.
      { intros it. rewrite Hrt1. unfold state_of, update_iterable. simpl.
        destruct (decide (it = it0)) as [->|Hne].
        - rewrite list_lookup_alter_eq. by destruct (iterables rt !! it0).
        - by rewrite list_lookup_alter_ne. }
      assert (forall b', is_open (InternalTerminalShellIntegration.runtime s1) b'
                         = is_open rt b') as Ho1 by (by rewrite Hrt1).
      split; [done|]. split; [|split; [|split]].
      * intros it. rewrite H2, Hq1, Hst. rewrite (terminating_ext rt _ _ Ho1). simpl.
        destruct (decide (it = it0)) as [->|Hne].
        -- destruct (decide (it0 ∈ it0 :: terminating rt q)) as [_|Hn];
             [|exfalso; apply Hn; by left].
           destruct (decide (it0 ∈ terminating rt q));
             by destruct (state_of rt it0).
        -- destruct (decide (it ∈ terminating rt q)) as [Hin|Hin];
             destruct (decide (it ∈ it0 :: terminating rt q)) as [Hin'|Hin'];
             try done.
           ++ exfalso. apply Hin'. by right.
           ++ apply elem_of_cons in Hin' as [Heq|?]; [congruence|done].
      * intros it. rewrite H3, Hrt1. unfold received_by, deref, update_iterable. simpl.
        destruct (decide (it = it0)) as [->|Hne].
        -- rewrite list_lookup_alter_eq. by destruct (iterables rt !! it0).
        -- by rewrite list_lookup_alter_ne.
      * rewrite H4, Hq1. done.
      * rewrite H5, Hq1. done.
    + assert (awaited = None) as ->.
      { apply (Hflush awaited e exitCode). rewrite Eq'. by left. }
      simpl in Hinv' |- *.
      destruct (bool_decide (InternalTerminalShellIntegration._currentExecution s = Some e))
        eqn:Eb; simpl in Hinv' |- *.
      * match type of Hinv' with session_inv ?x => set (s1 := x) in * end.
        destruct (IH s1 Hinv') as (H1 & H2 & H3 & H4 & H5).
        { unfold s1, starting. simpl. fold rt. rewrite Eq'. simpl in Hlen' |- *.
          unfold omap in *. lia. }
        assert (microtasks (InternalTerminalShellIntegration.runtime s1) = q) as Hq1
          by (unfold s1; simpl; by rewrite Eq').
        split; [done|]. split; [|split; [|split]].
        -- intros it. rewrite H2, Hq1. done.
        -- intros it. by rewrite H3.
        -- rewrite H4, Hq1. done.
        -- rewrite H5, Hq1. done.
      * match type of Hinv' with session_inv ?x => set (s1 := x) in * end.
        destruct (IH s1 Hinv') as (H1 & H2 & H3 & H4 & H5).
        { unfold s1, starting. simpl. fold rt. rewrite Eq'. simpl in Hlen' |- *.
          unfold omap in *. lia. }
        assert (microtasks (InternalTerminalShellIntegration.runtime s1) = q) as Hq1
          by (unfold s1; simpl; by rewrite Eq').
        split; [done|]. split; [|split; [|split]].
        -- intros it. rewrite H2, Hq1. done.
        -- intros it. by rewrite H3.
        -- rewrite H4, Hq1. done.
        -- rewrite H5, Hq1. done.
Qed.

Lemma omap_length_le {A B : Type} (f : A -> option B) (l : list A) :
  (length (omap f l) <= length l)%nat.
Proof.
  induction l as [|x l IH]; simpl; [done|].
  destruct (f x); simpl; unfold omap in *; lia.
Qed.

Lemma endShellExecution_runtime cl exitCode s e :
  session_inv s ->
  InternalTerminalShellIntegration._currentExecution s = Some e ->
  let h := InternalTerminalShellIntegration.executions s in
  let rt := InternalTerminalShellIntegration.runtime s in
  let s1 := InternalTerminalShellIntegration.endShellExecution cl exitCode s in
  let rt1 := InternalTerminalShellIntegration.runtime s1 in
  microtasks rt1
  = microtasks rt ++ (ExecutorResume <$> readers_of h rt e)
    ++ [EndContinuation None e exitCode]
  /\ iterables rt1 = iterables rt
  /\ (forall stream ds b,
        stream_of h e = Some stream -> streams rt !! stream = Some ds ->
        _barrier ds = Some b -> is_open rt1 b = true).
Proof.
  intros Hinv Hc h rt s1 rt1. subst rt1 s1.
  unfold InternalTerminalShellIntegration.endShellExecution. rewrite Hc.
  pose proof (call_endExecution_flush cl e s) as Hf. cbv zeta in Hf. rewrite Hf. clear Hf.
  simpl.
  unfold InternalTerminalShellIntegration.call_execution, readers_of, stream_of.
  fold h rt. pose proof Hinv as H0. unfold session_inv in H0. fold h rt in H0. open_inv H0.
  destruct (h !! e) as [x|] eqn:Hx; [|by simpl].
  unfold InternalTerminalShellExecution.endExecution. simpl.
  destruct (InternalTerminalShellExecution._dataStream x) as [stream|] eqn:Hds; [|by simpl].
  assert (stream_of h e = Some stream) as Hso by (unfold stream_of; by rewrite Hx).
  destruct (Hlive e stream Hso) as (ds & b & Hs & Hb).
  rewrite (endExecution_live rt stream ds b _ Hs Hb (Hbar stream ds b Hs Hb)).
  simpl. rewrite Hs. simpl. split; [by rewrite <- app_assoc|]. split; [done|].
  intros stream' ds' b' [= <-] Hs' Hb'. rewrite Hs in Hs'. injection Hs' as <-.
  rewrite Hb in Hb'. injection Hb' as <-.
  unfold is_open. simpl. rewrite list_lookup_alter_eq.
  by rewrite (Hbar stream ds b Hs Hb).
Qed.

(** X4: an end signal for the current execution is answered.  When the
    shell reports the end of the current execution [e] of a state the
    integration has reached, and the microtask queue then runs in order
    until it is empty (twice as many steps as the queue is long are
    enough, a step on the empty queue doing nothing), then exactly one
    end event of [e] is fired while it runs, no execution is current
    afterwards, and every iterable that [read()] had handed out for [e],
    whether its executor had started or not, has terminated with the
    chunks it had received; unless the callback of an earlier end signal
    for [e] was still pending, the event carries the reported exit
    code. *)
Theorem end_signal_is_answered
    (trace : list Action) (reported : option TerminalShellExecutionCommandLine)
    (exitCode : option Z) (e : nat) :
  let s := (run trace InternalTerminalShellIntegration.new).1 in
  InternalTerminalShellIntegration._currentExecution s = Some e ->
  let s1 := InternalTerminalShellIntegration.endShellExecution reported exitCode s in
  let n := (2 * length (microtasks (InternalTerminalShellIntegration.runtime s1)))%nat in
  let r := run (replicate n (RunMicrotask 0)) s1 in
  microtasks (InternalTerminalShellIntegration.runtime r.1) = []
  /\ end_events e r.2 = 1%nat
  /\ InternalTerminalShellIntegration._currentExecution r.1 = None
  /\ ((forall awaited c,
         EndContinuation awaited e c ∉ microtasks (InternalTerminalShellIntegration.runtime s)) ->
      Event (InternalTerminalShellIntegration.DidRequestEndExecution e exitCode) ∈ r.2)
  /\ (forall it,
        it ∈ attachments_of (InternalTerminalShellIntegration.executions s)
                            (InternalTerminalShellIntegration.runtime s) e ->
        drained (InternalTerminalShellIntegration.runtime r.1) it = true
        /\ received_by (InternalTerminalShellIntegration.runtime r.1) it
           = received_by (InternalTerminalShellIntegration.runtime s) it)
  /\ (forall it,
        it ∈ readers_of (InternalTerminalShellIntegration.executions s)
                        (InternalTerminalShellIntegration.runtime s) e ->
        it ∈ attachments_of (InternalTerminalShellIntegration.executions s)
                            (InternalTerminalShellIntegration.runtime s) e).
Proof.
  intros s Hc s1 n r.
  pose proof (reachable_session_inv trace) as Hinv. fold s in Hinv.
  pose proof (step_session_inv (EndShellExecution reported exitCode) s Hinv) as Hinv1.
  simpl in Hinv1. fold s1 in Hinv1.
  destruct (endShellExecution_runtime reported exitCode s e Hinv Hc) as (Hq & Hit & Hopen).
  fold s1 in Hq, Hit, Hopen.
  assert (InternalTerminalShellIntegration._currentExecution s1 = Some e) as Hc1.
  { by destruct (endShellExecution_current reported exitCode s e Hc) as [? _]. }
  destruct (run_queue n s1 Hinv1) as (H1 & H2 & H3 & H4 & H5).
  { subst n. unfold starting.
    pose proof (omap_length_le
                  (fun m => match m with ExecutorStart _ it _ => Some it | _ => None end)
                  (microtasks (InternalTerminalShellIntegration.runtime s1))).
    lia. }
  fold r in H1, H2, H3, H4, H5.
  rewrite Hc1 in H4, H5.
  assert (exists awaited c, EndContinuation awaited e c
                            ∈ microtasks (InternalTerminalShellIntegration.runtime s1)) as Hpending.
  { exists None, exitCode. rewrite Hq. apply elem_of_app. right.
    apply elem_of_app. right. by left. }
  destruct (callbacks_answer e _ Hpending) as [Hone Hnone].
  pose proof Hinv as H0. unfold session_inv in H0. open_inv H0.
  split; [done|]. split; [by rewrite H4|]. split; [by rewrite H5|].
  split; [|split].
  - intros Hfirst. rewrite H4, Hq, app_assoc.
    apply list_elem_of_In, in_map, callbacks_first.
    intros awaited c Hin. apply elem_of_app in Hin as [Hin|Hin].
    + by apply (Hfirst awaited c).
    + apply list_elem_of_fmap in Hin as (y & Hy & _). discriminate.
  - intros it Hin. split; [|rewrite H3; unfold received_by, deref; by rewrite Hit].
    apply attachments_of_spec in Hin as (stream & ds & Hso & Hs & Hin).
    destruct (Hlive e stream Hso) as (ds' & b & Hs' & Hb).
    rewrite Hs in Hs'. injection Hs' as <-.
    assert (state_of (InternalTerminalShellIntegration.runtime r.1) it = Some DoneOK) as Hd.
    { rewrite H2. rewrite decide_True.
      - pose proof (Hbound stream ds it Hs Hin) as Hlt.
        apply state_of_lt in Hlt as [st Hst].
        unfold state_of in *. rewrite Hit. by rewrite Hst.
      - rewrite Hq. rewrite !terminating_app. apply elem_of_app.
        destruct (decide (it ∈ _emitters ds)) as [Hem|Hem].
        + right. apply elem_of_app. left.
          unfold terminating. apply list_elem_of_omap. exists (ExecutorResume it).
          split; [|done]. apply list_elem_of_fmap. exists it. split; [done|].
          apply readers_of_spec. by exists stream, ds.
        + left. destruct (Hatt stream ds it Hs Hin Hem) as [b' Hq'].
          destruct (Hstart stream it b' Hq') as (ds' & Hs' & _ & _ & _ & _ & Hb').
          rewrite Hs in Hs'. injection Hs' as <-. rewrite Hb in Hb'. subst b'.
          unfold terminating. apply list_elem_of_omap. exists (ExecutorStart stream it b).
          split; [done|]. by rewrite (Hopen stream ds b Hso Hs Hb). }
    unfold drained. unfold state_of in Hd.
    destruct (iterables (InternalTerminalShellIntegration.runtime r.1) !! it) as [x|];
      [|discriminate].
    simpl in Hd. injection Hd as ->. done.
  - intros it (stream & ds & Hso & Hs & Hin)%readers_of_spec.
    apply attachments_of_spec. exists stream, ds. split; [done|]. split; [done|].
    by apply (Hemit stream ds Hs).
Qed.

Lemma end_signal_is_answered_witness :
  let s := (run [StartShellExecution a_commandLine None; Read 0; RunMicrotask 0;
                 EmitData (str "a"); Read 0]
                InternalTerminalShellIntegration.new).1 in
  let s1 := InternalTerminalShellIntegration.endShellExecution None (Some 0%Z) s in
  InternalTerminalShellIntegration._currentExecution s = Some 0%nat
  /\ microtasks (InternalTerminalShellIntegration.runtime s1)
     = [ExecutorStart 0 1 0; ExecutorResume 0; EndContinuation None 0 (Some 0%Z)]
  /\ end_events 0 (run (replicate 6 (RunMicrotask 0)) s1).2 = 1%nat.
Proof.
  split; [reflexivity|]. split; [reflexivity|].
  exact (proj1 (proj2 (end_signal_is_answered
                 [StartShellExecution a_commandLine None; Read 0; RunMicrotask 0;
                  EmitData (str "a"); Read 0]
                 None (Some 0%Z) 0%nat eq_refl))).
Defined.

(** ** Execution objects stay *)

Lemma later_of_refl x : later_of x x.
Proof. by split. Qed.

Lemma later_of_trans x y z : later_of x y -> later_of y z -> later_of x z.
Proof. intros [H1 H2] [H3 H4]. split; [congruence|auto]. Qed.

Lemma later_of_endExecution cl x rt :
  later_of x (InternalTerminalShellExecution.endExecution cl x rt).1.
Proof. split; [done|]. intros _. by split. Qed.

Lemma later_of_read x rt :
  later_of x (InternalTerminalShellExecution.read x rt).1.2.
Proof.
  unfold InternalTerminalShellExecution.read,
    InternalTerminalShellExecution._createDataStream.
  destruct (InternalTerminalShellExecution._dataStream x) as [ds|] eqn:Hds.
  - destruct (ShellExecutionDataStream.createIterable ds rt) as [id rt'].
    apply later_of_refl.
  - destruct (InternalTerminalShellExecution._ended x) eqn:He; [apply later_of_refl|].
    destruct (ShellExecutionDataStream.createIterable _ _) as [id rt']. simpl.
    split; [done|]. intros [H _]. congruence.
Qed.

Lemma lookup_insert_later (h : list InternalTerminalShellExecution.t) c x0 x0' e x :
  h !! c = Some x0 -> later_of x0 x0' -> h !! e = Some x ->
  exists x', <[c := x0']> h !! e = Some x' /\ later_of x x'.
Proof.
  intros Hc Hl He. destruct (decide (e = c)) as [->|Hne].
  - rewrite list_lookup_insert_eq by (by eapply lookup_lt_Some).
    exists x0'. split; [done|]. congruence.
  - rewrite list_lookup_insert_ne by done. exists x. split; [done|apply later_of_refl].
Qed.

Lemma call_endExecution_later cl c s e x :
  InternalTerminalShellIntegration.executions s !! e = Some x ->
  exists x',
    InternalTerminalShellIntegration.executions
      (InternalTerminalShellIntegration.call_execution
         (InternalTerminalShellExecution.endExecution cl) c s) !! e = Some x'
    /\ later_of x x'.
Proof.
  intros He. unfold InternalTerminalShellIntegration.call_execution.
  destruct (InternalTerminalShellIntegration.executions s !! c) as [x0|] eqn:Hc.
  - pose proof (later_of_endExecution cl x0 (InternalTerminalShellIntegration.runtime s)) as Hl.
    destruct (InternalTerminalShellExecution.endExecution cl x0 _) as [x0' rt']. simpl in *.
    by eapply lookup_insert_later.
  - exists x. split; [done|apply later_of_refl].
Qed.

Lemma step_later a s e x :
  InternalTerminalShellIntegration.executions s !! e = Some x ->
  exists x',
    InternalTerminalShellIntegration.executions (step a s).1 !! e = Some x'
    /\ later_of x x'.
Proof.
  intros He.
  assert (exists x', InternalTerminalShellIntegration.executions s !! e = Some x'
                     /\ later_of x x') as Hsame.
  { exists x. split; [done|apply later_of_refl]. }
  destruct a as [exe args | cl cwd | cl exitCode | data | keys values tr | cwd | value
                | execution | it | k]; simpl.
  - unfold InternalTerminalShellIntegration.executeCommand,
      InternalTerminalShellIntegration.requestNewShellExecution. simpl.
    exists x. split; [|apply later_of_refl]. rewrite lookup_app_l; [done|].
    by eapply lookup_lt_Some.
  - destruct (startShellExecution_correlates cl cwd s) as (picked & rest & _ & Hs).
    rewrite Hs.
    assert (exists x', InternalTerminalShellIntegration.executions (force_end s).1 !! e = Some x'
                       /\ later_of x x') as (x' & Hx' & Hl).
    { unfold force_end.
      destruct (InternalTerminalShellIntegration._currentExecution s) as [c|]; [|done].
      by apply call_endExecution_later. }
    exists x'. split; [|done]. destruct picked as [p|]; simpl; [done|].
    rewrite lookup_app_l; [done|]. by eapply lookup_lt_Some.
  - unfold InternalTerminalShellIntegration.endShellExecution.
    destruct (InternalTerminalShellIntegration._currentExecution s) as [c|]; [|done].
    simpl. by apply call_endExecution_later.
  - unfold InternalTerminalShellIntegration.emitData.
    destruct (InternalTerminalShellIntegration._currentExecution s) as [c|]; [|done].
    by destruct (InternalTerminalShellIntegration.executions s !! c).
  - done.
  - unfold InternalTerminalShellIntegration.setCwd.
    by match goal with |- context [if ?b then _ else _] => destruct b end.
  - unfold InternalTerminalShellIntegration.setHasRichCommandDetection.
    by match goal with |- context [if ?b then _ else _] => destruct b end.
  - unfold InternalTerminalShellIntegration.read.
    destruct (InternalTerminalShellIntegration.executions s !! execution) as [x0|] eqn:Hx0;
      [|done].
    pose proof (later_of_read x0 (InternalTerminalShellIntegration.runtime s)) as Hl.
    destruct (InternalTerminalShellExecution.read x0 _) as [[r x0'] rt']. simpl in *.
    by eapply lookup_insert_later.
  - by destruct (iterate it _) as [[chunk| |] rt'].
  - unfold InternalTerminalShellIntegration.runMicrotask.
    destruct (microtasks _ !! k) as [[stream it b|it|awaited e0 exitCode]|]; simpl;
      [done|done| |done].
    destruct (resolved _ awaited); simpl; [|done].
    by destruct (bool_decide _).
Qed.

(** X6: execution objects stay.  Whatever happens to an integration
    afterwards, an execution object of its store remains in the store
    with the working directory it was created with, and an execution
    that has ended stays ended: a [read()] on it gives the static empty
    iterable. *)
Theorem execution_objects_stay
    (trace : list Action) (s : InternalTerminalShellIntegration.t)
    (e : nat) (x : InternalTerminalShellExecution.t) :
  InternalTerminalShellIntegration.executions s !! e = Some x ->
  exists x',
    InternalTerminalShellIntegration.executions (run trace s).1 !! e = Some x'
    /\ InternalTerminalShellExecution.cwd x' = InternalTerminalShellExecution.cwd x
    /\ (InternalTerminalShellExecution._ended x = true ->
        InternalTerminalShellExecution._dataStream x = None ->
        InternalTerminalShellExecution._ended x' = true
        /\ (InternalTerminalShellIntegration.read e (run trace s).1).1 = Some StaticEmpty).
Proof.
  revert s x. induction trace as [|a trace IH]; intros s x He.
  - exists x. split; [done|]. split; [done|]. intros Hen Hds. split; [done|].
    unfold InternalTerminalShellIntegration.read. simpl. rewrite He.
    unfold InternalTerminalShellExecution.read,
      InternalTerminalShellExecution._createDataStream. by rewrite Hds, Hen.
  - rewrite run_cons. simpl.
    destruct (step_later a s e x He) as (x1 & Hx1 & [Hcwd Htd]).
    destruct (IH _ _ Hx1) as (x' & Hx' & Hcwd' & Hend).
    exists x'. split; [done|]. split; [congruence|].
    intros Hen Hds. destruct (Htd (conj Hen Hds)) as [Hen1 Hds1]. by apply Hend.
Qed.

Lemma execution_objects_stay_witness :
  let s := (run [StartShellExecution a_commandLine (Some a_uri);
                 EndShellExecution None None]
                InternalTerminalShellIntegration.new).1 in
  let s' := (run [StartShellExecution a_commandLine None; RunMicrotask 0; Read 0] s).1 in
  exists x',
    InternalTerminalShellIntegration.executions s' !! 0%nat = Some x'
    /\ InternalTerminalShellExecution.cwd x' = Some a_uri.
Proof.
  destruct (execution_objects_stay
              [StartShellExecution a_commandLine None; RunMicrotask 0; Read 0]
              (run [StartShellExecution a_commandLine (Some a_uri);
                    EndShellExecution None None]
                   InternalTerminalShellIntegration.new).1
              0%nat _ eq_refl) as (x' & Hx' & Hcwd & _).
  exists x'. split; [exact Hx' | exact Hcwd].
Defined.

(** ** Output after the end signal *)

(** X5: output that arrives after the end signal is dropped.  After
    [endShellExecution] the execution is still the current one, until
    its callback runs, but [emitData] changes nothing: the stream of the
    execution is gone. *)
Theorem data_after_the_end_signal_is_dropped
    (s : InternalTerminalShellIntegration.t)
    (reported : option TerminalShellExecutionCommandLine) (exitCode : option Z)
    (data : JSString) :
  let s1 := InternalTerminalShellIntegration.endShellExecution reported exitCode s in
  InternalTerminalShellIntegration.emitData data s1 = s1
  /\ (InternalTerminalShellIntegration._currentExecution s1
      = InternalTerminalShellIntegration._currentExecution s).
Proof.
  intros s1. split.
  2: { subst s1. unfold InternalTerminalShellIntegration.endShellExecution.
       destruct (InternalTerminalShellIntegration._currentExecution s) as [c|] eqn:Hc;
         [|done].
       simpl.
       pose proof (call_execution_shape
                     (InternalTerminalShellExecution.endExecution reported) c s)
         as (_ & H2 & _).
       by rewrite H2. }
  subst s1. unfold InternalTerminalShellIntegration.endShellExecution.
  destruct (InternalTerminalShellIntegration._currentExecution s) as [c|] eqn:Hc.
  - unfold InternalTerminalShellIntegration.emitData. simpl.
    pose proof (call_execution_shape (InternalTerminalShellExecution.endExecution reported) c s)
      as (_ & H2 & _).
    rewrite H2, Hc.
    unfold InternalTerminalShellIntegration.call_execution.
    destruct (InternalTerminalShellIntegration.executions s !! c) as [x|] eqn:Hx.
    + destruct (InternalTerminalShellExecution.endExecution reported x _) as [x' rt'] eqn:E.
      simpl. rewrite list_lookup_insert_eq by (by eapply lookup_lt_Some).
      unfold InternalTerminalShellExecution.endExecution in E. injection E as <- <-.
      reflexivity.
    + by rewrite Hx.
  - unfold InternalTerminalShellIntegration.emitData. by rewrite Hc.
Qed.

(** ** From [executeCommand] to the start reported by the shell *)

Lemma setCwd_shape cwd s :
  InternalTerminalShellIntegration._activeExecutions
    (InternalTerminalShellIntegration.setCwd cwd s).1
  = InternalTerminalShellIntegration._activeExecutions s
  /\ InternalTerminalShellIntegration._currentExecution
       (InternalTerminalShellIntegration.setCwd cwd s).1
     = InternalTerminalShellIntegration._currentExecution s
  /\ InternalTerminalShellIntegration.executions
       (InternalTerminalShellIntegration.setCwd cwd s).1
     = InternalTerminalShellIntegration.executions s.
Proof.
  rewrite setCwd_differs. by destruct (decide _).
Qed.

Lemma force_end_other s e x :
  wf s ->
  InternalTerminalShellIntegration.executions s !! e = Some x ->
  InternalTerminalShellIntegration._currentExecution s ≠ Some e ->
  InternalTerminalShellIntegration.executions (force_end s).1 !! e = Some x.
Proof.
  intros Hwf He Hne. unfold force_end.
  destruct (InternalTerminalShellIntegration._currentExecution s) as [c|] eqn:Hc; [|done].
  simpl. unfold InternalTerminalShellIntegration.call_execution.
  destruct (InternalTerminalShellIntegration.executions s !! c) as [x0|]; [|done].
  destruct (InternalTerminalShellExecution.endExecution None x0 _) as [x0' rt']. simpl.
  rewrite list_lookup_insert_ne; [done|]. intros ->. by apply Hne.
Qed.

(** X7: the execution that [executeCommand] returns is the one that the
    start reported by the shell is matched to.  In a state the
    integration has reached, with no pending execution of the same
    command line, after [executeCommand] and a [setCwd], a start
    reported with high confidence and the same text selects the object
    that [executeCommand] returned: the pending queue is as it was
    before [executeCommand], and the object is the one [executeCommand]
    created, with its trusted command line and the working directory the
    integration had then, neither the reported nor the new one. *)
Theorem submitted_command_is_the_one_started
    (trace : list Action) (commandLineOrExecutable : JSString)
    (args : option (list JSString)) (newCwd reportedCwd : option URI) (isTrusted : bool) :
  let s := (run trace InternalTerminalShellIntegration.new).1 in
  let value := executeCommand_commandLineValue commandLineOrExecutable args in
  (forall x, x ∈ InternalTerminalShellIntegration._activeExecutions s ->
             InternalTerminalShellIntegration.commandLine_value s x ≠ Some value) ->
  let submitted :=
    InternalTerminalShellIntegration.executeCommand commandLineOrExecutable args s in
  let moved := (InternalTerminalShellIntegration.setCwd newCwd submitted.1.2).1 in
  let started :=
    InternalTerminalShellIntegration.startShellExecution
      {| cl_value := value; cl_confidence := High; cl_isTrusted := isTrusted |}
      reportedCwd moved in
  started.1.1 = submitted.1.1
  /\ InternalTerminalShellIntegration._activeExecutions started.1.2
     = InternalTerminalShellIntegration._activeExecutions s
  /\ InternalTerminalShellIntegration._currentExecution started.1.2 = Some submitted.1.1
  /\ InternalTerminalShellIntegration.executions started.1.2 !! submitted.1.1
     = Some (InternalTerminalShellExecution.new
               {| cl_value := value; cl_confidence := High; cl_isTrusted := true |}
               (InternalTerminalShellIntegration._cwd s)).
Proof.
  intros s value Hfresh submitted moved started.
  destruct (reachable_inv trace) as [Hwf _]. fold s in Hwf.
  set (id := length (InternalTerminalShellIntegration.executions s)).
  set (obj := InternalTerminalShellExecution.new
                {| cl_value := value; cl_confidence := High; cl_isTrusted := true |}
                (InternalTerminalShellIntegration._cwd s)).
  assert (submitted.1.1 = id) as Hid by done.
  assert (InternalTerminalShellIntegration._activeExecutions moved
          = InternalTerminalShellIntegration._activeExecutions s ++ [id]) as Hact.
  { subst moved. by rewrite (proj1 (setCwd_shape _ _)). }
  assert (InternalTerminalShellIntegration._currentExecution moved
          = InternalTerminalShellIntegration._currentExecution s) as Hcur.
  { subst moved. by rewrite (proj1 (proj2 (setCwd_shape _ _))). }
  assert (InternalTerminalShellIntegration.executions moved
          = InternalTerminalShellIntegration.executions s ++ [obj]) as Hex.
  { subst moved. rewrite (proj2 (proj2 (setCwd_shape _ _))). simpl.
    subst obj. by destruct (InternalTerminalShellIntegration._cwd s). }
  assert (wf moved) as Hwf'.
  { destruct Hwf as [Hb Hn Hc]. split.
    - rewrite Hact, Hex, length_app. simpl. apply Forall_app. split.
      + eapply Forall_impl; [exact Hb|]. simpl. lia.
      + apply Forall_singleton. fold id. lia.
    - rewrite Hact. apply NoDup_app. split; [done|]. split; [|apply NoDup_singleton].
      intros x Hx Hx'. apply list_elem_of_singleton in Hx' as ->.
      rewrite Forall_forall in Hb. apply Hb in Hx. fold id in Hx. lia.
    - intros e He. rewrite Hcur in He. destruct (Hc e He) as [H1 H2].
      rewrite Hex, Hact, length_app. simpl. split; [lia|].
      rewrite not_elem_of_app. split; [done|]. intros Hx.
      apply list_elem_of_singleton in Hx. fold id in H1. lia. }
  assert (InternalTerminalShellIntegration.commandLine_value moved id = Some value) as Htid.
  { unfold InternalTerminalShellIntegration.commandLine_value. rewrite Hex.
    by rewrite (list_lookup_middle _ [] obj id eq_refl). }
  assert (forall x, x ∈ InternalTerminalShellIntegration._activeExecutions s ->
            InternalTerminalShellIntegration.commandLine_value moved x ≠ Some value) as Hold.
  { intros x Hx. specialize (Hfresh x Hx).
    unfold InternalTerminalShellIntegration.commandLine_value in *. rewrite Hex.
    rewrite lookup_app_l; [done|].
    destruct Hwf as [Hb _ _]. rewrite Forall_forall in Hb. by apply Hb. }
  assert (InternalTerminalShellIntegration.executions (force_end moved).1 !! id = Some obj)
    as Hobj.
  { apply force_end_other; [done| |].
    - rewrite Hex. by apply list_lookup_middle.
    - rewrite Hcur. intros Hc. destruct Hwf as [_ _ Hc']. apply Hc' in Hc as [Hlt _].
      fold id in Hlt. lia. }
  destruct (startShellExecution_correlates
              {| cl_value := value; cl_confidence := High; cl_isTrusted := isTrusted |}
              reportedCwd moved) as (picked & rest & Hcor & Hs).
  fold started in Hs. rewrite Hid.
  inversion Hcor as [before e after Hconf Hpend Htext Hbefore
                    | Hconf Hnone | e rest' Hconf | Hconf]; subst; simpl in *;
    try done.
  - rewrite Hact in Hpend.
    destruct after as [|a after _] using rev_ind.
    + apply app_inj_tail in Hpend as [<- <-]. rewrite Hs. simpl.
      rewrite app_nil_r. done.
    + rewrite app_comm_cons, app_assoc in Hpend. apply app_inj_tail in Hpend as [Hp _].
      exfalso. apply (Hold e); [|done]. rewrite Hp. apply elem_of_app. right. by left.
  - exfalso. apply (Hnone id); [|done]. rewrite Hact. apply elem_of_app. right. by left.
Qed.

Lemma submitted_command_is_the_one_started_witness :
  (InternalTerminalShellIntegration.startShellExecution
     {| cl_value := str "ls"; cl_confidence := High; cl_isTrusted := false |}
     None
     (InternalTerminalShellIntegration.setCwd (Some a_uri)
        (InternalTerminalShellIntegration.executeCommand (str "ls") None
           (run [ExecuteCommand (str "pwd") None]
                InternalTerminalShellIntegration.new).1).1.2).1).1.1
  = 1%nat.
Proof.
  refine (proj1 (submitted_command_is_the_one_started
                   [ExecuteCommand (str "pwd") None] (str "ls") None
                   (Some a_uri) None false _)).
  intros x Hx. apply list_elem_of_singleton in Hx as ->. by vm_compute.
Defined.

(** ** The directory of integrations *)

Lemma touches_only_refl i h : touches_only i h h.
Proof.
  split; [done|]. exists []. split; [by rewrite app_nil_r|constructor].
Qed.

Lemma touches_only_trans i h1 h2 h3 :
  touches_only i h1 h2 -> touches_only i h2 h3 -> touches_only i h1 h3.
Proof.
  intros [H1 (n1 & E1 & F1)] [H2 (n2 & E2 & F2)]. split.
  - intros j Hj. destruct (H1 j Hj) as [Ha Hb]. destruct (H2 j Hj) as [Ha' Hb'].
    split; congruence.
  - exists (n1 ++ n2). split; [by rewrite E2, E1, app_assoc|by apply Forall_app].
Qed.

(** What an integration fires leaves the class with the terminal the
    integration was constructed with, or with the handle it is
    registered under. *)
Lemma deliver_for i x f :
  ExtHostTerminalShellIntegration._terminal x = i ->
  Forall (emitted_for i) (ExtHostTerminalShellIntegration.deliver i x f).
Proof.
  intros Hx. destruct f; simpl; try case_bool_decide; by repeat constructor.
Qed.

Lemma with_integration_touches_only i method h :
  keyed h ->
  touches_only i h (ExtHostTerminalShellIntegration.with_integration i method h).
Proof.
  intros Hk. unfold ExtHostTerminalShellIntegration.with_integration.
  destruct (ExtHostTerminalShellIntegration._activeShellIntegrations h !! i) as [x|] eqn:Hx;
    [|apply touches_only_refl].
  destruct (method _) as [s' fired]. split; simpl.
  - intros j Hj. split; [|done]. by rewrite lookup_insert_ne.
  - eexists. split; [done|]. apply Forall_concat, Forall_fmap, Forall_forall.
    intros f _. apply deliver_for. by apply Hk.
Qed.

Lemma shellIntegrationChange_touches_only i h :
  touches_only i h (ExtHostTerminalShellIntegration.shellIntegrationChange i h).
Proof.
  unfold ExtHostTerminalShellIntegration.shellIntegrationChange.
  destruct (ExtHostTerminalShellIntegration.getTerminalById i h) as [t|];
    [|apply touches_only_refl].
  destruct (ExtHostTerminalShellIntegration._activeShellIntegrations h !! i) as [x|];
    (split; simpl; [|eexists; split; [done|by repeat constructor]]).
  - done.
  - intros j Hj. unfold ExtHostTerminalShellIntegration.getTerminalById. simpl.
    by rewrite !lookup_insert_ne.
Qed.

Lemma closeTerminal_touches_only i h :
  keyed h -> touches_only i h (ExtHostTerminalShellIntegration.closeTerminal i h).
Proof.
  intros Hk. split; simpl.
  - intros j Hj. split; [by rewrite lookup_delete_ne|].
    unfold ExtHostTerminalShellIntegration.getTerminalById. simpl.
    destruct (ExtHostTerminalShellIntegration._activeShellIntegrations h !! i) as [x|] eqn:Hx;
      [|done].
    unfold ExtHostTerminalShellIntegration.dispose. rewrite (Hk i x Hx).
    case_bool_decide; [|done]. by rewrite lookup_alter_ne.
  - exists []. split; [by rewrite app_nil_r|constructor].
Qed.

Lemma with_integration_keyed i method h :
  keyed h -> keyed (ExtHostTerminalShellIntegration.with_integration i method h).
Proof.
  intros Hk. unfold ExtHostTerminalShellIntegration.with_integration.
  destruct (ExtHostTerminalShellIntegration._activeShellIntegrations h !! i) as [x|] eqn:Hx;
    [|done].
  destruct (method _) as [s' fired]. intros j y. simpl.
  destruct (decide (j = i)) as [->|Hne].
  - rewrite lookup_insert_eq. intros [= <-]. simpl. by apply Hk.
  - rewrite lookup_insert_ne by done. apply Hk.
Qed.

Lemma shellIntegrationChange_keyed i h :
  keyed h -> keyed (ExtHostTerminalShellIntegration.shellIntegrationChange i h).
Proof.
  intros Hk. unfold ExtHostTerminalShellIntegration.shellIntegrationChange.
  destruct (ExtHostTerminalShellIntegration.getTerminalById i h) as [t|]; [|done].
  destruct (ExtHostTerminalShellIntegration._activeShellIntegrations h !! i) as [x|] eqn:Hx;
    [done|].
  intros j y. simpl. destruct (decide (j = i)) as [->|Hne].
  - rewrite lookup_insert_eq. by intros [= <-].
  - rewrite lookup_insert_ne by done. apply Hk.
Qed.

Lemma hstep_keyed st h : keyed h -> keyed (ExtHostTerminalShellIntegration.hstep st h).
Proof.
  intros Hk. destruct st as [i sig|i a]; simpl.
  - destruct sig; simpl;
      try (by apply with_integration_keyed);
      try (by apply shellIntegrationChange_keyed).
    + unfold ExtHostTerminalShellIntegration.shellExecutionStart.
      apply with_integration_keyed.
      destruct (ExtHostTerminalShellIntegration._activeShellIntegrations h !! i);
        [done|by apply shellIntegrationChange_keyed].
    + intros j y. simpl. destruct (decide (j = i)) as [->|Hne].
      * by rewrite lookup_delete_eq.
      * rewrite lookup_delete_ne by done. apply Hk.
  - by apply with_integration_keyed.
Qed.

Lemma hrun_keyed steps : forall h,
  keyed h -> keyed (ExtHostTerminalShellIntegration.hrun steps h).
Proof.
  induction steps as [|st steps IH]; intros h Hk; [done|].
  simpl. by apply IH, hstep_keyed.
Qed.

Lemma hstep_touches_only st h :
  keyed h -> touches_only (terminal_of st) h (ExtHostTerminalShellIntegration.hstep st h).
Proof.
  intros Hk. destruct st as [i sig|i a]; simpl.
  - destruct sig; simpl;
      try (by apply with_integration_touches_only);
      try apply shellIntegrationChange_touches_only.
    + unfold ExtHostTerminalShellIntegration.shellExecutionStart.
      eapply touches_only_trans; [|apply with_integration_touches_only].
      * destruct (ExtHostTerminalShellIntegration._activeShellIntegrations h !! i);
          [apply touches_only_refl|apply shellIntegrationChange_touches_only].
      * destruct (ExtHostTerminalShellIntegration._activeShellIntegrations h !! i);
          [done|by apply shellIntegrationChange_keyed].
    + by apply closeTerminal_touches_only.
  - by apply with_integration_touches_only.
Qed.

(** X8: a step for one terminal touches no other.  In every state that
    the directory reaches from a state without integrations, by signals
    of the main thread, calls of API consumers and microtasks of the
    integrations, every integration is registered under the handle of
    the terminal it was constructed with; and a further step for a
    terminal, whether a signal, a call or a microtask, leaves the
    integration and the terminal object of every other terminal as
    before, and every outward emission it adds carries the terminal of
    the step, or is the warning on the console. *)
Theorem signals_touch_one_terminal
    (terminals : gmap nat ExtHostTerminalShellIntegration.ExtHostTerminal)
    (steps : list ExtHostTerminalShellIntegration.Step)
    (st : ExtHostTerminalShellIntegration.Step) (j : nat) :
  let h := ExtHostTerminalShellIntegration.hrun steps
             {| ExtHostTerminalShellIntegration._extHostTerminalService := terminals;
                ExtHostTerminalShellIntegration._activeShellIntegrations := ∅;
                ExtHostTerminalShellIntegration.emitted := [] |} in
  let h' := ExtHostTerminalShellIntegration.hstep st h in
  j ≠ terminal_of st ->
  ExtHostTerminalShellIntegration._activeShellIntegrations h' !! j
  = ExtHostTerminalShellIntegration._activeShellIntegrations h !! j
  /\ ExtHostTerminalShellIntegration.getTerminalById j h'
     = ExtHostTerminalShellIntegration.getTerminalById j h
  /\ (exists new,
        ExtHostTerminalShellIntegration.emitted h'
        = ExtHostTerminalShellIntegration.emitted h ++ new
        /\ Forall (emitted_for (terminal_of st)) new)
  /\ (forall i x,
        ExtHostTerminalShellIntegration._activeShellIntegrations h !! i = Some x ->
        ExtHostTerminalShellIntegration._terminal x = i).
Proof.
  intros h h' Hj.
  assert (keyed h) as Hk.
  { apply hrun_keyed. intros i x. simpl. by rewrite lookup_empty. }
  destruct (hstep_touches_only st h Hk) as [H1 H2].
  destruct (H1 j Hj) as [Ha Hb]. done.
Qed.

(** X8 at a concrete run: the terminals 1 and 2 both have an
    integration, [ls] starts and ends in terminal 1, and the microtask
    behind the end signal then emits the end event of terminal 1 and
    leaves the integration of terminal 2 as it is. *)
Lemma signals_touch_one_terminal_witness :
  let steps :=
    [ExtHostTerminalShellIntegration.Handle 2
       ExtHostTerminalShellIntegration.ShellIntegrationChange;
     ExtHostTerminalShellIntegration.Handle 1
       (ExtHostTerminalShellIntegration.ShellExecutionStart (str "ls") High true None);
     ExtHostTerminalShellIntegration.Handle 1
       (ExtHostTerminalShellIntegration.ShellExecutionEnd (str "ls") High true (Some 0%Z))] in
  let h := ExtHostTerminalShellIntegration.hrun steps two_terminals in
  let h' := ExtHostTerminalShellIntegration.hstep
              (ExtHostTerminalShellIntegration.Act 1 (RunMicrotask 0)) h in
  ExtHostTerminalShellIntegration.emitted h'
  = ExtHostTerminalShellIntegration.emitted h
    ++ [ExtHostTerminalShellIntegration.OnDidEndTerminalShellExecution 1 0 (Some 0%Z)]
  /\ ExtHostTerminalShellIntegration._terminal
       <$> ExtHostTerminalShellIntegration._activeShellIntegrations h !! 2%nat
     = Some 2%nat
  /\ ExtHostTerminalShellIntegration._activeShellIntegrations h' !! 2%nat
     = ExtHostTerminalShellIntegration._activeShellIntegrations h !! 2%nat.
Proof.
  cbv zeta. split; [by vm_compute|]. split; [by vm_compute|].
  refine (proj1 (signals_touch_one_terminal
                   (ExtHostTerminalShellIntegration._extHostTerminalService two_terminals)
                   [ExtHostTerminalShellIntegration.Handle 2
                      ExtHostTerminalShellIntegration.ShellIntegrationChange;
                    ExtHostTerminalShellIntegration.Handle 1
                      (ExtHostTerminalShellIntegration.ShellExecutionStart
                         (str "ls") High true None);
                    ExtHostTerminalShellIntegration.Handle 1
                      (ExtHostTerminalShellIntegration.ShellExecutionEnd
                         (str "ls") High true (Some 0%Z))]
                   (ExtHostTerminalShellIntegration.Act 1 (RunMicrotask 0)) 2%nat _)).
  simpl. lia.
Defined.

(** X9: [$closeTerminal] forgets the integration of the terminal and
    emits nothing.  A start reported afterwards, for a terminal that the
    terminal service still resolves, builds a new integration whose only
    execution is the started one, made from the reported command line
    and working directory, and emits a change event and a start
    event.  Closing disposes the integration, which takes its listener
    off [onWillDispose] of the terminal, so that the terminal has one
    listener for the new integration in place of the one for the old. *)
Theorem closeTerminal_forgets_the_integration
    (i : nat) (h : ExtHostTerminalShellIntegration.t)
    (terminal : ExtHostTerminalShellIntegration.ExtHostTerminal)
    (commandLineValue : JSString)
    (commandLineConfidence : TerminalShellExecutionCommandLineConfidence)
    (isTrusted : bool) (cwd : option URI) :
  ExtHostTerminalShellIntegration.getTerminalById i h = Some terminal ->
  let closed := ExtHostTerminalShellIntegration.closeTerminal i h in
  let h' := ExtHostTerminalShellIntegration.shellExecutionStart
              i commandLineValue commandLineConfidence isTrusted cwd closed in
  let commandLine := {| cl_value := commandLineValue;
                        cl_confidence := commandLineConfidence;
                        cl_isTrusted := isTrusted |} in
  ExtHostTerminalShellIntegration._activeShellIntegrations closed !! i = None
  /\ ExtHostTerminalShellIntegration.emitted closed = ExtHostTerminalShellIntegration.emitted h
  /\ ExtHostTerminalShellIntegration.integration
       <$> ExtHostTerminalShellIntegration._activeShellIntegrations h' !! i
     = Some (InternalTerminalShellIntegration.set_currentExecution (Some 0%nat)
               (InternalTerminalShellIntegration.set_executions
                  [InternalTerminalShellExecution.new commandLine cwd]
                  InternalTerminalShellIntegration.new))
  /\ ExtHostTerminalShellIntegration.emitted h'
     = ExtHostTerminalShellIntegration.emitted h
       ++ [ExtHostTerminalShellIntegration.OnDidChangeTerminalShellIntegration i;
           ExtHostTerminalShellIntegration.OnDidStartTerminalShellExecution i 0]
  /\ ExtHostTerminalShellIntegration._terminal
       <$> ExtHostTerminalShellIntegration._activeShellIntegrations h' !! i
     = Some i
  /\ (ExtHostTerminalShellIntegration._activeShellIntegrations h !! i = None ->
      ExtHostTerminalShellIntegration.getTerminalById i closed = Some terminal)
  /\ (forall x,
        ExtHostTerminalShellIntegration._activeShellIntegrations h !! i = Some x ->
        ExtHostTerminalShellIntegration._terminal x = i ->
        ExtHostTerminalShellIntegration.OnWillDispose
          ∈ ExtHostTerminalShellIntegration.store x ->
        ExtHostTerminalShellIntegration.onWillDispose
          <$> ExtHostTerminalShellIntegration.getTerminalById i closed
        = Some (pred (ExtHostTerminalShellIntegration.onWillDispose terminal))
        /\ ExtHostTerminalShellIntegration.onWillDispose
             <$> ExtHostTerminalShellIntegration.getTerminalById i h'
           = Some (S (pred (ExtHostTerminalShellIntegration.onWillDispose terminal)))).
Proof.
  intros Ht closed h' commandLine.
  assert (ExtHostTerminalShellIntegration._activeShellIntegrations closed !! i = None) as Hnone.
  { apply lookup_delete_eq. }
  assert (exists terminal',
            ExtHostTerminalShellIntegration.getTerminalById i closed = Some terminal'
            /\ (ExtHostTerminalShellIntegration._activeShellIntegrations h !! i = None ->
                terminal' = terminal)
            /\ (forall x,
                  ExtHostTerminalShellIntegration._activeShellIntegrations h !! i = Some x ->
                  ExtHostTerminalShellIntegration._terminal x = i ->
                  ExtHostTerminalShellIntegration.OnWillDispose
                    ∈ ExtHostTerminalShellIntegration.store x ->
                  ExtHostTerminalShellIntegration.onWillDispose terminal'
                  = pred (ExtHostTerminalShellIntegration.onWillDispose terminal)))
    as (terminal' & Ht' & Hsame & Hless).
  { unfold ExtHostTerminalShellIntegration.getTerminalById in *. subst closed. simpl.
    destruct (ExtHostTerminalShellIntegration._activeShellIntegrations h !! i) as [x|];
      [|by exists terminal].
    unfold ExtHostTerminalShellIntegration.dispose. case_bool_decide as Hd.
    - destruct (decide (ExtHostTerminalShellIntegration._terminal x = i)) as [Hx|Hx].
      + rewrite Hx, lookup_alter_eq, Ht. simpl. eexists. split; [done|].
        split; [done|]. by intros x' [= <-] _ _.
      + rewrite lookup_alter_ne by done. exists terminal. split; [done|].
        split; [done|]. by intros x' [= <-] Hx'.
    - exists terminal. split; [done|]. split; [done|]. by intros x' [= <-] _ Hin. }
  split; [done|]. split; [done|].
  subst h'. unfold ExtHostTerminalShellIntegration.shellExecutionStart.
  rewrite Hnone. unfold ExtHostTerminalShellIntegration.shellIntegrationChange.
  rewrite Ht', Hnone. unfold ExtHostTerminalShellIntegration.with_integration. simpl.
  rewrite lookup_insert_eq.
  assert (forall (x : ExtHostTerminalShellIntegration.ExtHostTerminal) m,
            ExtHostTerminalShellIntegration.getTerminalById i
              {| ExtHostTerminalShellIntegration._extHostTerminalService :=
                   <[i := x]> (ExtHostTerminalShellIntegration._extHostTerminalService closed);
                 ExtHostTerminalShellIntegration._activeShellIntegrations := m;
                 ExtHostTerminalShellIntegration.emitted := [] |} = Some x) as Hget.
  { intros x m. unfold ExtHostTerminalShellIntegration.getTerminalById. simpl.
    apply lookup_insert_eq. }
  split; [|split; [|split; [|split]]].
  - destruct commandLineConfidence, cwd; simpl; by rewrite lookup_insert_eq.
  - destruct commandLineConfidence, cwd; simpl; by rewrite <- app_assoc.
  - destruct commandLineConfidence, cwd; simpl; by rewrite lookup_insert_eq.
  - intros Hn. f_equal. by apply Hsame.
  - intros x Hx Hkey Hin. simpl. rewrite (Hless x Hx Hkey Hin).
    split; [done|].
    destruct commandLineConfidence, cwd; simpl;
      unfold ExtHostTerminalShellIntegration.getTerminalById; simpl;
      rewrite lookup_insert_eq; simpl; done.
Qed.

Lemma closeTerminal_forgets_the_integration_witness :
  ExtHostTerminalShellIntegration.getTerminalById 1%nat
    (ExtHostTerminalShellIntegration.shellExecutionStart 1%nat (str "ls") High true None
       (ExtHostTerminalShellIntegration.closeTerminal 1%nat
          (ExtHostTerminalShellIntegration.handle 1%nat
             (ExtHostTerminalShellIntegration.ShellExecutionStart (str "ls") High true None)
             a_host)))
  = Some {| ExtHostTerminalShellIntegration.shellIntegration := true;
            ExtHostTerminalShellIntegration.onWillDispose := 1 |}
  /\ ExtHostTerminalShellIntegration.emitted
    (ExtHostTerminalShellIntegration.shellExecutionStart 1%nat (str "ls") High true None
       (ExtHostTerminalShellIntegration.closeTerminal 1%nat
          (ExtHostTerminalShellIntegration.handle 1%nat
             (ExtHostTerminalShellIntegration.ShellExecutionStart (str "ls") High true None)
             a_host)))
  = [ExtHostTerminalShellIntegration.OnDidChangeTerminalShellIntegration 1%nat;
     ExtHostTerminalShellIntegration.OnDidStartTerminalShellExecution 1%nat 0;
     ExtHostTerminalShellIntegration.OnDidChangeTerminalShellIntegration 1%nat;
     ExtHostTerminalShellIntegration.OnDidStartTerminalShellExecution 1%nat 0].
Proof.
  split; [by vm_compute|].
  exact (proj1 (proj2 (proj2 (proj2 (closeTerminal_forgets_the_integration 1%nat
    (ExtHostTerminalShellIntegration.handle 1%nat
       (ExtHostTerminalShellIntegration.ShellExecutionStart (str "ls") High true None)
       a_host) _ (str "ls") High true None eq_refl))))).
Defined.

(** X11: [$setHasRichCommandDetection] is announced on change only.  An
    integration whose change requests are listened to emits one outward
    change event, for the terminal it was constructed with, when the
    signalled value differs from the stored one,
    and nothing when it is the same; afterwards the stored value is the
    signalled one, and the same signal again changes nothing. *)
Theorem rich_command_detection_is_announced_on_change
    (i : nat) (value : bool) (h : ExtHostTerminalShellIntegration.t)
    (x : ExtHostTerminalShellIntegration.Integration) :
  ExtHostTerminalShellIntegration._activeShellIntegrations h !! i = Some x ->
  ExtHostTerminalShellIntegration.OnDidRequestChangeShellIntegration
    ∈ ExtHostTerminalShellIntegration.store x ->
  let h' := ExtHostTerminalShellIntegration.setHasRichCommandDetection i value h in
  ExtHostTerminalShellIntegration.emitted h'
  = ExtHostTerminalShellIntegration.emitted h
    ++ (if bool_decide
             (InternalTerminalShellIntegration._hasRichCommandDetection
                (ExtHostTerminalShellIntegration.integration x) = value)
        then []
        else [ExtHostTerminalShellIntegration.OnDidChangeTerminalShellIntegration
                (ExtHostTerminalShellIntegration._terminal x)])
  /\ (fun y => InternalTerminalShellIntegration._hasRichCommandDetection
                 (ExtHostTerminalShellIntegration.integration y))
       <$> ExtHostTerminalShellIntegration._activeShellIntegrations h' !! i
     = Some value
  /\ ExtHostTerminalShellIntegration.setHasRichCommandDetection i value h' = h'.
Proof.
  intros Hx Hl h'. subst h'.
  unfold ExtHostTerminalShellIntegration.setHasRichCommandDetection,
    ExtHostTerminalShellIntegration.with_integration.
  rewrite Hx. unfold InternalTerminalShellIntegration.setHasRichCommandDetection.
  destruct (decide (InternalTerminalShellIntegration._hasRichCommandDetection
                      (ExtHostTerminalShellIntegration.integration x) = value)) as [He|He].
  - rewrite (bool_decide_eq_false_2 (_ ≠ _)) by (intros Hn; by apply Hn).
    rewrite (bool_decide_eq_true_2 _ He). simpl.
    rewrite lookup_insert_eq. simpl.
    rewrite (bool_decide_eq_false_2 (_ ≠ _)) by (intros Hn; by apply Hn). simpl.
    rewrite insert_insert_eq, !app_nil_r. by rewrite He.
  - rewrite (bool_decide_eq_true_2 (_ ≠ _)) by done.
    rewrite (bool_decide_eq_false_2 _ He). simpl.
    rewrite (bool_decide_eq_true_2 _ Hl). simpl. rewrite lookup_insert_eq. simpl.
    rewrite (bool_decide_eq_false_2 (_ ≠ _)) by (intros Hn; by apply Hn). simpl.
    by rewrite insert_insert_eq, !app_nil_r.
Qed.

Lemma rich_command_detection_is_announced_on_change_witness :
  ExtHostTerminalShellIntegration.emitted
    (ExtHostTerminalShellIntegration.setHasRichCommandDetection 1%nat true
       (ExtHostTerminalShellIntegration.shellIntegrationChange 1%nat a_host))
  = [ExtHostTerminalShellIntegration.OnDidChangeTerminalShellIntegration 1%nat;
     ExtHostTerminalShellIntegration.OnDidChangeTerminalShellIntegration 1%nat].
Proof.
  refine (proj1 (rich_command_detection_is_announced_on_change 1%nat true
                   (ExtHostTerminalShellIntegration.shellIntegrationChange 1%nat a_host)
                   {| ExtHostTerminalShellIntegration.integration :=
                        InternalTerminalShellIntegration.new;
                      ExtHostTerminalShellIntegration.store := all_listeners;
                      ExtHostTerminalShellIntegration._terminal := 1 |}
                   eq_refl _)).
  simpl. unfold all_listeners. by repeat constructor.
Defined.

(** X10: [$shellIntegrationChange] sets a terminal up once.  The first
    signal for a terminal without integration creates an integration
    with the four listeners in its store, assigns [shellIntegration] of
    the terminal and adds one listener to its [onWillDispose]; a second
    signal changes neither the integrations nor the terminals; each of
    the two emits one change event. *)
Theorem shellIntegrationChange_registers_once
    (i : nat) (h : ExtHostTerminalShellIntegration.t)
    (terminal : ExtHostTerminalShellIntegration.ExtHostTerminal) :
  ExtHostTerminalShellIntegration.getTerminalById i h = Some terminal ->
  ExtHostTerminalShellIntegration._activeShellIntegrations h !! i = None ->
  let h1 := ExtHostTerminalShellIntegration.shellIntegrationChange i h in
  let h2 := ExtHostTerminalShellIntegration.shellIntegrationChange i h1 in
  ExtHostTerminalShellIntegration._activeShellIntegrations h1 !! i
  = Some {| ExtHostTerminalShellIntegration.integration :=
              InternalTerminalShellIntegration.new;
            ExtHostTerminalShellIntegration.store := all_listeners;
            ExtHostTerminalShellIntegration._terminal := i |}
  /\ ExtHostTerminalShellIntegration.getTerminalById i h1
     = Some {| ExtHostTerminalShellIntegration.shellIntegration := true;
               ExtHostTerminalShellIntegration.onWillDispose :=
                 S (ExtHostTerminalShellIntegration.onWillDispose terminal) |}
  /\ ExtHostTerminalShellIntegration._activeShellIntegrations h2
     = ExtHostTerminalShellIntegration._activeShellIntegrations h1
  /\ ExtHostTerminalShellIntegration._extHostTerminalService h2
     = ExtHostTerminalShellIntegration._extHostTerminalService h1
  /\ ExtHostTerminalShellIntegration.emitted h2
     = ExtHostTerminalShellIntegration.emitted h
       ++ [ExtHostTerminalShellIntegration.OnDidChangeTerminalShellIntegration i;
           ExtHostTerminalShellIntegration.OnDidChangeTerminalShellIntegration i].
Proof.
  intros Ht Hnone h1 h2.
  assert (ExtHostTerminalShellIntegration._activeShellIntegrations h1 !! i
          = Some {| ExtHostTerminalShellIntegration.integration :=
                      InternalTerminalShellIntegration.new;
                    ExtHostTerminalShellIntegration.store := all_listeners;
                    ExtHostTerminalShellIntegration._terminal := i |}) as H1.
  { subst h1. unfold ExtHostTerminalShellIntegration.shellIntegrationChange.
    rewrite Ht, Hnone. simpl. by rewrite lookup_insert_eq. }
  assert (ExtHostTerminalShellIntegration.getTerminalById i h1
          = Some {| ExtHostTerminalShellIntegration.shellIntegration := true;
                    ExtHostTerminalShellIntegration.onWillDispose :=
                      S (ExtHostTerminalShellIntegration.onWillDispose terminal) |}) as H2.
  { subst h1. unfold ExtHostTerminalShellIntegration.shellIntegrationChange.
    rewrite Ht, Hnone. unfold ExtHostTerminalShellIntegration.getTerminalById. simpl.
    by rewrite lookup_insert_eq. }
  split; [done|]. split; [done|].
  subst h2. unfold ExtHostTerminalShellIntegration.shellIntegrationChange at 1 2 3.
  rewrite H2, H1. simpl. split; [done|]. split; [done|].
  subst h1. unfold ExtHostTerminalShellIntegration.shellIntegrationChange.
  rewrite Ht, Hnone. simpl. by rewrite <- app_assoc.
Qed.

Lemma shellIntegrationChange_registers_once_witness :
  ExtHostTerminalShellIntegration.getTerminalById 1%nat
    (ExtHostTerminalShellIntegration.shellIntegrationChange 1%nat
       (ExtHostTerminalShellIntegration.shellIntegrationChange 1%nat a_host))
  = Some {| ExtHostTerminalShellIntegration.shellIntegration := true;
            ExtHostTerminalShellIntegration.onWillDispose := 1 |}.
Proof.
  destruct (shellIntegrationChange_registers_once 1%nat a_host _ eq_refl eq_refl)
    as (_ & H2 & _ & H4 & _).
  unfold ExtHostTerminalShellIntegration.getTerminalById in *.
  rewrite H4. exact H2.
Defined.
